(** * dcos_e2e._common: subprocess execution and output streaming

    A shallow embedding of [src/dcos_e2e/_common.py]:
    [_safe_decode], the [LineLogger] class and [run_subprocess].

    Python values are modelled as follows.
    - [bytes] is [list byte]; [str] is the list of its Unicode code points.
    - Exceptions are values of [exn]; a computation is a function from the
      program state to a [result] and the next state (a state and error
      monad, [M]).
    - The operating system and the child process are an explicit [World]:
      what each pipe will deliver, which descriptors each [select] reports,
      how [wait], [terminate] and [kill] answer.  The world describes a
      child that has been spawned and whose output is finite.
    - Every call that leaves the program ([select.select], [os.read],
      [LOGGER.debug], [LOGGER.warning], [process.wait], [process.terminate],
      [process.kill], the exit of the [with Popen] block) is recorded, in
      order, in the [trace] of the state. *)

From Stdlib.Strings Require Import String Byte.
From Stdlib Require Import List ZArith Lia Bool.
Import ListNotations.
Open Scope Z_scope.

Set Implicit Arguments.

(** ** Python values *)

Definition bytes := list byte.

(** A [str]: the sequence of its code points. *)
Definition str := list Z.

Definition byte_val (b : byte) : Z := Z.of_N (Byte.to_N b).

(** An ASCII literal as a [str], for readable examples. *)
Definition str_of_string (s : string) : str :=
  map byte_val (list_byte_of_string s).

(** [b''.join(chunks)] *)
Definition bytes_join (chunks : list bytes) : bytes := concat chunks.

(** ** Exceptions *)

Inductive exn : Type :=
| OSError (errno : Z)
| KeyboardInterrupt
| KeyError (key : Z)
| ValueError
| UnicodeDecodeError
| TimeoutExpired (timeout : Z)
| CalledProcessError (returncode : option Z) (cmd : list string)
                     (output stderr : option bytes).

(** [isinstance(e, Exception)]: [KeyboardInterrupt] derives from
    [BaseException] only, so [except Exception] lets it through. *)
Definition is_Exception (e : exn) : bool :=
  match e with
  | KeyboardInterrupt => false
  | _ => true
  end.

Definition is_TimeoutExpired (e : exn) : bool :=
  match e with
  | TimeoutExpired _ => true
  | _ => false
  end.

Inductive result (A : Type) : Type :=
| Val (a : A)
| Exc (e : exn)
| OutOfFuel.

Arguments Val {A} a.
Arguments Exc {A} e.
Arguments OutOfFuel {A}.

(** ** [bytes.decode] *)

Module Codec.

Definition between (lo x hi : Z) : bool := (lo <=? x) && (x <=? hi).

(** A UTF-8 continuation byte, [10xxxxxx]. *)
Definition is_cont (b : Z) : bool := between 0x80 b 0xBF.

Definition cont_bits (b : Z) : Z := Z.land b 0x3F.

Definition cp2 (b0 b1 : Z) : Z :=
  Z.lor (Z.shiftl (Z.land b0 0x1F) 6) (cont_bits b1).

Definition cp3 (b0 b1 b2 : Z) : Z :=
  Z.lor (Z.shiftl (Z.land b0 0x0F) 12)
        (Z.lor (Z.shiftl (cont_bits b1) 6) (cont_bits b2)).

Definition cp4 (b0 b1 b2 b3 : Z) : Z :=
  Z.lor (Z.shiftl (Z.land b0 0x07) 18)
        (Z.lor (Z.shiftl (cont_bits b1) 12)
               (Z.lor (Z.shiftl (cont_bits b2) 6) (cont_bits b3))).

(** The second byte of a multi-byte sequence has a range that depends on
    the lead byte: this is what rejects overlong forms, surrogates and
    code points above U+10FFFF. *)
Definition second_ok (b0 b1 : Z) : bool :=
  if b0 =? 0xE0 then between 0xA0 b1 0xBF
  else if b0 =? 0xED then between 0x80 b1 0x9F
  else if b0 =? 0xF0 then between 0x90 b1 0xBF
  else if b0 =? 0xF4 then between 0x80 b1 0x8F
  else is_cont b1.

(** The strict UTF-8 decoder; [None] is [UnicodeDecodeError]. *)
Fixpoint utf8_strict (l : list Z) : option str :=
  match l with
  | [] => Some []
  | b0 :: t0 =>
      if b0 <? 0x80 then option_map (cons b0) (utf8_strict t0)
      else if between 0xC2 b0 0xDF then
        match t0 with
        | b1 :: t1 =>
            if is_cont b1 then option_map (cons (cp2 b0 b1)) (utf8_strict t1)
            else None
        | [] => None
        end
      else if between 0xE0 b0 0xEF then
        match t0 with
        | b1 :: b2 :: t2 =>
            if second_ok b0 b1 && is_cont b2
            then option_map (cons (cp3 b0 b1 b2)) (utf8_strict t2)
            else None
        | _ => None
        end
      else if between 0xF0 b0 0xF4 then
        match t0 with
        | b1 :: b2 :: b3 :: t3 =>
            if second_ok b0 b1 && is_cont b2 && is_cont b3
            then option_map (cons (cp4 b0 b1 b2 b3)) (utf8_strict t3)
            else None
        | _ => None
        end
      else None
  end.

(** A lower-case hexadecimal digit, as a code point. *)
Definition hex_digit (d : Z) : Z :=
  if d <? 10 then 48 + d else 87 + d.

(** The [backslashreplace] error handler on one byte: [\xNN]. *)
Definition backslash_escape (b : Z) : str :=
  [92; 120; hex_digit (b / 16); hex_digit (b mod 16)].

(** The ASCII decoder with [errors='backslashreplace']. *)
Fixpoint ascii_backslashreplace (l : list Z) : str :=
  match l with
  | [] => []
  | b :: t =>
      (if b <? 0x80 then [b] else backslash_escape b)
        ++ ascii_backslashreplace t
  end.

(** [b.decode(encoding='utf-8', errors='strict')] *)
Definition decode_utf8_strict (b : bytes) : result str :=
  match utf8_strict (map byte_val b) with
  | Some s => Val s
  | None => Exc UnicodeDecodeError
  end.

(** [b.decode(encoding='ascii', errors='backslashreplace')]: the error
    handler recovers from every byte, so no exception leaves the call. *)
Definition decode_ascii_backslashreplace (b : bytes) : result str :=
  Val (ascii_backslashreplace (map byte_val b)).

End Codec.

(** [_safe_decode]: strict UTF-8 first; on [UnicodeDecodeError], ASCII with
    [backslashreplace]. *)
Definition _safe_decode (output_bytes : bytes) : result str :=
  match Codec.decode_utf8_strict output_bytes with
  | Exc UnicodeDecodeError => Codec.decode_ascii_backslashreplace output_bytes
  | r => r
  end.

(** [b.split(b'\n')]: the segments between newline bytes; never empty. *)
Definition newline : byte := x0a.

Fixpoint bytes_split (b : bytes) : list bytes :=
  match b with
  | [] => [[]]
  | c :: t =>
      if Byte.eqb c newline then [] :: bytes_split t
      else match bytes_split t with
           | seg :: segs => (c :: seg) :: segs
           | [] => [[c]]
           end
  end.

(** ** Ordered dictionaries

    A [dict] keeps its keys in insertion order; assigning to a key that is
    present replaces the value and keeps the position. *)

Section Dict.
Variable V : Type.

Definition dict := list (Z * V).

Fixpoint dict_set (d : dict) (k : Z) (v : V) : dict :=
  match d with
  | [] => [(k, v)]
  | (k', v') :: d' =>
      if k' =? k then (k', v) :: d' else (k', v') :: dict_set d' k v
  end.

Fixpoint dict_get (d : dict) (k : Z) : option V :=
  match d with
  | [] => None
  | (k', v') :: d' => if k' =? k then Some v' else dict_get d' k
  end.

Definition dict_keys (d : dict) : list Z := map fst d.
End Dict.

(** [l.remove(x)]: drops the first occurrence; [None] is [ValueError]. *)
Fixpoint list_remove (l : list Z) (x : Z) : option (list Z) :=
  match l with
  | [] => None
  | y :: t =>
      if y =? x then Some t
      else option_map (cons y) (list_remove t x)
  end.

(** ** The environment *)

(** What a system call may raise: an [OSError], or the [KeyboardInterrupt]
    of a signal that arrives during the call. *)
Inductive fault : Type :=
| FaultOSError (errno : Z)
| FaultInterrupt.

Definition exn_of_fault (f : fault) : exn :=
  match f with
  | FaultOSError n => OSError n
  | FaultInterrupt => KeyboardInterrupt
  end.

Inductive answer (A : Type) : Type :=
| Done (a : A)
| Faulted (f : fault).

Arguments Done {A} a.
Arguments Faulted {A} f.

(** What the child makes available on a pipe, in order.  The end of the
    list is the end of the stream: every later read returns [b'']. *)
Inductive pipe_event : Type :=
| Deliver (data : bytes)
| ReadFault (f : fault).

Inductive select_response : Type :=
| Ready (ready : list Z)
| SelectFault (f : fault).

Inductive wait_response : Type :=
| Exited (returncode : Z)
| Expired
| WaitFault (f : fault).

Record World : Type := {
  stdout_fileno : Z;
  stderr_fileno : Z;
  stdout_pipe : list pipe_event;
  stderr_pipe : list pipe_event;
  select_oracle : list select_response;
  wait_answer : answer Z;             (* process.wait() *)
  terminate_answer : answer unit;     (* process.terminate() *)
  timed_wait_answer : wait_response;  (* process.wait(1) *)
  kill_answer : answer unit           (* process.kill() *)
}.

(** ** The program state *)

Inductive log_method : Type := LOGGER_debug | LOGGER_warning.

Record LineLogger : Type := {
  buffer : bytes;
  logger : log_method
}.

(** The two [LineLogger] instances and the two capture lists are objects
    that [fds_map] refers to; a reference names the object. *)
Inductive logger_ref : Type := StdoutLogger | StderrLogger.
Inductive list_ref : Type := StdoutList | StderrList.

Inductive event : Type :=
| EvSelect (fds : list Z) (r : answer (list Z))
| EvRead (fd : Z) (n : Z) (r : answer bytes)
| EvLog (m : log_method) (msg : str)
| EvWait (timeout : option Z) (r : wait_response)
| EvTerminate (r : answer unit)
| EvKill (r : answer unit)
| EvPopenExit.

Record State : Type := {
  world : World;
  stdout_logger : LineLogger;
  stderr_logger : LineLogger;
  stdout_list : list bytes;
  stderr_list : list bytes;
  fds : list Z;
  returncode : option Z;
  trace : list event
}.

Definition initial_state (w : World) : State :=
  {| world := w;
     stdout_logger := {| buffer := []; logger := LOGGER_debug |};
     stderr_logger := {| buffer := []; logger := LOGGER_warning |};
     stdout_list := [];
     stderr_list := [];
     fds := [];
     returncode := None;
     trace := [] |}.

Definition with_world (w : World) (st : State) : State :=
  {| world := w;
     stdout_logger := stdout_logger st; stderr_logger := stderr_logger st;
     stdout_list := stdout_list st; stderr_list := stderr_list st;
     fds := fds st; returncode := returncode st; trace := trace st |}.

Definition with_trace (t : list event) (st : State) : State :=
  {| world := world st;
     stdout_logger := stdout_logger st; stderr_logger := stderr_logger st;
     stdout_list := stdout_list st; stderr_list := stderr_list st;
     fds := fds st; returncode := returncode st; trace := t |}.

Definition with_fds (l : list Z) (st : State) : State :=
  {| world := world st;
     stdout_logger := stdout_logger st; stderr_logger := stderr_logger st;
     stdout_list := stdout_list st; stderr_list := stderr_list st;
     fds := l; returncode := returncode st; trace := trace st |}.

Definition with_returncode (rc : option Z) (st : State) : State :=
  {| world := world st;
     stdout_logger := stdout_logger st; stderr_logger := stderr_logger st;
     stdout_list := stdout_list st; stderr_list := stderr_list st;
     fds := fds st; returncode := rc; trace := trace st |}.

Definition get_logger (r : logger_ref) (st : State) : LineLogger :=
  match r with
  | StdoutLogger => stdout_logger st
  | StderrLogger => stderr_logger st
  end.

Definition with_logger (r : logger_ref) (ll : LineLogger) (st : State) : State :=
  {| world := world st;
     stdout_logger := match r with StdoutLogger => ll | _ => stdout_logger st end;
     stderr_logger := match r with StderrLogger => ll | _ => stderr_logger st end;
     stdout_list := stdout_list st; stderr_list := stderr_list st;
     fds := fds st; returncode := returncode st; trace := trace st |}.

Definition get_list (r : list_ref) (st : State) : list bytes :=
  match r with
  | StdoutList => stdout_list st
  | StderrList => stderr_list st
  end.

Definition with_list (r : list_ref) (l : list bytes) (st : State) : State :=
  {| world := world st;
     stdout_logger := stdout_logger st; stderr_logger := stderr_logger st;
     stdout_list := match r with StdoutList => l | _ => stdout_list st end;
     stderr_list := match r with StderrList => l | _ => stderr_list st end;
     fds := fds st; returncode := returncode st; trace := trace st |}.

Definition emit (ev : event) (st : State) : State :=
  with_trace (trace st ++ [ev]) st.

(** ** The state and error monad *)

Definition M (A : Type) : Type := State -> result A * State.

Definition ret {A} (a : A) : M A := fun st => (Val a, st).

Definition bind {A B} (m : M A) (k : A -> M B) : M B :=
  fun st =>
    match m st with
    | (Val a, st') => k a st'
    | (Exc e, st') => (Exc e, st')
    | (OutOfFuel, st') => (OutOfFuel, st')
    end.

Definition raise {A} (e : exn) : M A := fun st => (Exc e, st).

Definition gets {A} (f : State -> A) : M A := fun st => (Val (f st), st).

Definition modify (f : State -> State) : M unit := fun st => (Val tt, f st).

(** The value or the exception of a pure call. *)
Definition lift {A} (r : result A) : M A := fun st => (r, st).

(** [try: m  except <those e with a handler>: handler e] *)
Definition try_except {A} (m : M A) (handler : exn -> option (M A)) : M A :=
  fun st =>
    match m st with
    | (Exc e, st') =>
        match handler e with
        | Some h => h st'
        | None => (Exc e, st')
        end
    | r => r
    end.

Declare Scope monad_scope.
Delimit Scope monad_scope with monad.
Notation "x <- m ;; k" := (bind m (fun x => k))
  (at level 61, m at next level, right associativity) : monad_scope.
Notation "m ;; k" := (bind m (fun _ => k))
  (at level 61, right associativity) : monad_scope.
Open Scope monad_scope.

(** [for x in l: body x] *)
Fixpoint for_each {A} (l : list A) (body : A -> M unit) : M unit :=
  match l with
  | [] => ret tt
  | x :: t => body x ;; for_each t body
  end.

(** [while cond: body], for at most [fuel] iterations. *)
Fixpoint while (fuel : nat) (cond : State -> bool) (body : M unit) : M unit :=
  fun st =>
    if cond st then
      match fuel with
      | O => (OutOfFuel, st)
      | S fuel' => (body ;; while fuel' cond body) st
      end
    else (Val tt, st).

(** ** System calls *)

Definition with_stdout_pipe (p : list pipe_event) (w : World) : World :=
  {| stdout_fileno := stdout_fileno w; stderr_fileno := stderr_fileno w;
     stdout_pipe := p; stderr_pipe := stderr_pipe w;
     select_oracle := select_oracle w; wait_answer := wait_answer w;
     terminate_answer := terminate_answer w;
     timed_wait_answer := timed_wait_answer w; kill_answer := kill_answer w |}.

Definition with_stderr_pipe (p : list pipe_event) (w : World) : World :=
  {| stdout_fileno := stdout_fileno w; stderr_fileno := stderr_fileno w;
     stdout_pipe := stdout_pipe w; stderr_pipe := p;
     select_oracle := select_oracle w; wait_answer := wait_answer w;
     terminate_answer := terminate_answer w;
     timed_wait_answer := timed_wait_answer w; kill_answer := kill_answer w |}.

Definition with_select_oracle (o : list select_response) (w : World) : World :=
  {| stdout_fileno := stdout_fileno w; stderr_fileno := stderr_fileno w;
     stdout_pipe := stdout_pipe w; stderr_pipe := stderr_pipe w;
     select_oracle := o; wait_answer := wait_answer w;
     terminate_answer := terminate_answer w;
     timed_wait_answer := timed_wait_answer w; kill_answer := kill_answer w |}.

Definition reply {A} (r : answer A) : M A :=
  match r with
  | Done a => ret a
  | Faulted f => raise (exn_of_fault f)
  end.

(** One [read] of at most [n] bytes from a pipe: part of what the child
    delivered next, [b''] at the end of the stream, or a fault. *)
Definition pipe_read (n : Z) (p : list pipe_event)
  : answer bytes * list pipe_event :=
  match p with
  | [] => (Done [], [])
  | Deliver d :: rest =>
      (Done (firstn (Z.to_nat n) d),
       match skipn (Z.to_nat n) d with
       | [] => rest
       | d' => Deliver d' :: rest
       end)
  | ReadFault f :: rest => (Faulted f, rest)
  end.

Definition EBADF : Z := 9.

(** [os.read(fd, n)] *)
Definition os_read (fd n : Z) : M bytes :=
  fun st =>
    let w := world st in
    if fd =? stdout_fileno w then
      let (r, p) := pipe_read n (stdout_pipe w) in
      reply r (emit (EvRead fd n r)
                    (with_world (with_stdout_pipe p w) st))
    else if fd =? stderr_fileno w then
      let (r, p) := pipe_read n (stderr_pipe w) in
      reply r (emit (EvRead fd n r)
                    (with_world (with_stderr_pipe p w) st))
    else
      let r := Faulted (FaultOSError EBADF) in
      reply r (emit (EvRead fd n r) st).

Definition mem (x : Z) (l : list Z) : bool := existsb (Z.eqb x) l.

(** [select.select(rlist, [], [])[0]]: the call blocks until some
    descriptor of [rlist] is readable, so the descriptors the oracle names
    are clipped to a non-empty sublist of [rlist]; once the oracle is used
    up the child has finished and every descriptor is readable. *)
Definition select_select (rlist : list Z) : M (list Z) :=
  fun st =>
    let w := world st in
    match select_oracle w with
    | [] => (Val rlist, emit (EvSelect rlist (Done rlist)) st)
    | Ready r :: o =>
        let ready := match filter (fun fd => mem fd r) rlist with
                     | [] => rlist
                     | sel => sel
                     end in
        (Val ready,
         emit (EvSelect rlist (Done ready))
              (with_world (with_select_oracle o w) st))
    | SelectFault f :: o =>
        (Exc (exn_of_fault f),
         emit (EvSelect rlist (Faulted f))
              (with_world (with_select_oracle o w) st))
    end.

(** [process.wait(timeout)] *)
Definition process_wait (timeout : option Z) : M Z :=
  fun st =>
    let r := match timeout with
             | None => match wait_answer (world st) with
                       | Done rc => Exited rc
                       | Faulted f => WaitFault f
                       end
             | Some _ => timed_wait_answer (world st)
             end in
    let st' := emit (EvWait timeout r) st in
    match r with
    | Exited rc => (Val rc, with_returncode (Some rc) st')
    | Expired => (Exc (TimeoutExpired (match timeout with
                                       | Some t => t
                                       | None => 0
                                       end)), st')
    | WaitFault f => (Exc (exn_of_fault f), st')
    end.

(** [process.terminate()] *)
Definition process_terminate : M unit :=
  fun st =>
    let r := terminate_answer (world st) in
    reply r (emit (EvTerminate r) st).

(** [process.kill()] *)
Definition process_kill : M unit :=
  fun st =>
    let r := kill_answer (world st) in
    reply r (emit (EvKill r) st).

(** [self.logger(msg)] with [self.logger] one of [LOGGER.debug],
    [LOGGER.warning]. *)
Definition call_logger (m : log_method) (msg : str) : M unit :=
  modify (emit (EvLog m msg)).

(** ** [LineLogger] *)

Definition set_buffer (self : logger_ref) (b : bytes) : M unit :=
  modify (fun st =>
            with_logger self {| buffer := b;
                                logger := logger (get_logger self st) |} st).

(** [LineLogger.__init__] *)
Definition LineLogger_init (self : logger_ref) (lg : log_method) : M unit :=
  modify (with_logger self {| buffer := []; logger := lg |}).

(** [LineLogger.log] *)
Definition LineLogger_log (self : logger_ref) (data : bytes) : M unit :=
  b <- gets (fun st => buffer (get_logger self st)) ;;
  set_buffer self (b ++ data) ;;
  b <- gets (fun st => buffer (get_logger self st)) ;;
  let lines := bytes_split b in
  (* self.buffer = lines.pop() *)
  set_buffer self (last lines []) ;;
  let lines := removelast lines in
  lg <- gets (fun st => logger (get_logger self st)) ;;
  for_each lines (fun line => msg <- lift (_safe_decode line) ;;
                              call_logger lg msg).

(** [LineLogger.flush] *)
Definition LineLogger_flush (self : logger_ref) : M unit :=
  b <- gets (fun st => buffer (get_logger self st)) ;;
  if (0 <? Z.of_nat (length b)) then
    lg <- gets (fun st => logger (get_logger self st)) ;;
    msg <- lift (_safe_decode b) ;;
    call_logger lg msg ;;
    set_buffer self []
  else ret tt.

(** ** [run_subprocess] *)

Record CompletedProcess : Type := {
  cp_args : list string;
  cp_returncode : option Z;
  cp_stdout : option bytes;
  cp_stderr : option bytes
}.

Definition read_size : Z := 8192.

(** The truth value of a [bytes] or of a list: non-empty. *)
Definition truthy {A} (l : list A) : bool :=
  match l with
  | [] => false
  | _ => true
  end.

(** The body of [for fd in ret[0]] (lines 114 to 122). *)
Definition drain_fd (fds_map : dict (logger_ref * list_ref))
           (log_output_live : bool) (fd : Z) : M unit :=
  entry <- match dict_get fds_map fd with
           | Some e => ret e
           | None => raise (KeyError fd)
           end ;;
  let (logger, lines) := entry : logger_ref * list_ref in
  buff <- os_read fd read_size ;;
  if truthy buff then
    modify (fun st => with_list lines (get_list lines st ++ [buff]) st) ;;
    if log_output_live then LineLogger_log logger buff else ret tt
  else
    l <- gets fds ;;
    match list_remove l fd with
    | Some l' => modify (with_fds l')
    | None => raise ValueError
    end ;;
    LineLogger_flush logger.

(** The body of [while fds] (lines 109 to 122). *)
Definition drain_step (fds_map : dict (logger_ref * list_ref))
           (log_output_live : bool) : M unit :=
  l <- gets fds ;;
  ready <- select_select l ;;
  for_each ready (drain_fd fds_map log_output_live).

Definition pipe_weight (p : list pipe_event) : nat :=
  fold_right (fun ev n => match ev with
                          | Deliver d => S (length d + n)
                          | ReadFault _ => S n
                          end) O p.

(** A bound on the iterations of the drain loop: every iteration consumes
    part of a pipe, removes a descriptor from [fds], or raises. *)
Definition drain_fuel (st : State) : nat :=
  (pipe_weight (stdout_pipe (world st))
   + pipe_weight (stderr_pipe (world st)) + length (fds st))%nat.

(** The dictionary display of lines 102 to 105. *)
Definition make_fds_map (fo fe : Z) : dict (logger_ref * list_ref) :=
  dict_set (dict_set [] fo (StdoutLogger, StdoutList))
           fe (StderrLogger, StderrList).

(** The [if pipe_output] block of lines 101 to 122. *)
Definition drain (log_output_live : bool) : M unit :=
  fo <- gets (fun st => stdout_fileno (world st)) ;;
  LineLogger_init StdoutLogger LOGGER_debug ;;
  fe <- gets (fun st => stderr_fileno (world st)) ;;
  LineLogger_init StderrLogger LOGGER_warning ;;
  let fds_map := make_fds_map fo fe in
  modify (with_fds (dict_keys fds_map)) ;;
  fuel <- gets drain_fuel ;;
  while fuel (fun st => truthy (fds st)) (drain_step fds_map log_output_live).

(** The [try] block (lines 98 to 135); its value is [(stdout, stderr)]. *)
Definition try_block (log_output_live pipe_output : bool)
  : M (option bytes * option bytes) :=
  modify (with_list StdoutList []) ;;
  modify (with_list StderrList []) ;;
  (if pipe_output then drain log_output_live else ret tt) ;;
  process_wait None ;;
  if pipe_output then
    out <- gets stdout_list ;;
    err <- gets stderr_list ;;
    ret (Some (bytes_join out), Some (bytes_join err))
  else ret (None, None).

(** The [except Exception] handler (lines 141 to 147), before its [raise]. *)
Definition cleanup : M unit :=
  process_terminate ;;
  try_except (process_wait (Some 1) ;; ret tt)
             (fun e => if is_TimeoutExpired e then Some process_kill else None).

Definition opt_Z_eqb (a b : option Z) : bool :=
  match a, b with
  | Some x, Some y => x =? y
  | None, None => true
  | _, _ => false
  end.

(** The body of the [with] statement (lines 97 to 154). *)
Definition with_body (args : list string) (log_output_live pipe_output : bool)
  : M (option bytes * option bytes) :=
  out <- try_except (try_block log_output_live pipe_output)
                    (fun e => if is_Exception e
                              then Some (cleanup ;; raise e)
                              else None) ;;
  rc <- gets returncode ;;
  if negb (opt_Z_eqb rc (Some 0)) then
    raise (CalledProcessError rc args (fst out) (snd out))
  else ret out.

(** [with Popen(...) as process: m]: when the block is left, normally or
    by an exception, [Popen.__exit__] closes the pipes and reaps the child;
    an exception of the block goes on to the caller. *)
Definition with_Popen {A} (m : M A) : M A :=
  fun st => let (r, st') := m st in (r, emit EvPopenExit st').

Definition run_subprocess (args : list string)
           (log_output_live pipe_output : bool) : M CompletedProcess :=
  out <- with_Popen (with_body args log_output_live pipe_output) ;;
  rc <- gets returncode ;;
  ret {| cp_args := args; cp_returncode := rc;
         cp_stdout := fst out; cp_stderr := snd out |}.

(** A call of [run_subprocess] in a world: what the caller gets and what
    happened. *)
Definition run (w : World) (args : list string)
           (log_output_live pipe_output : bool)
  : result CompletedProcess * State :=
  run_subprocess args log_output_live pipe_output (initial_state w).

(** * Vocabulary of the properties *)

(** The text [_safe_decode] produces. *)
Definition decoded (b : bytes) : str :=
  match Codec.utf8_strict (map byte_val b) with
  | Some s => s
  | None => Codec.ascii_backslashreplace (map byte_val b)
  end.

(** An ASCII code point. *)
Definition is_ascii (c : Z) : bool := (0 <=? c) && (c <? 0x80).

Definition has_newline (b : bytes) : bool := existsb (Byte.eqb newline) b.

(** [b'\n'.join(segs)] *)
Fixpoint newline_join (segs : list bytes) : bytes :=
  match segs with
  | [] => []
  | [seg] => seg
  | seg :: rest => seg ++ newline :: newline_join rest
  end.

(** The call of the logger for the line [seg]. *)
Definition log_event (lg : log_method) (seg : bytes) : event :=
  EvLog lg (decoded seg).

(** Feeding a line buffer a sequence of chunks. *)
Definition feed (self : logger_ref) (chunks : list bytes) : M unit :=
  for_each chunks (LineLogger_log self).

(** The bytes [b"a\nb\nc"] and [b"a\nbc"]. *)
Definition a_b_c : bytes := [x61; x0a; x62; x0a; x63].

Definition a_bc : bytes := [x61; x0a; x62; x63].

(** A pipe on which no read fails and no delivery is empty (an empty read
    is the end of the stream). *)
Definition quiet_pipe (p : list pipe_event) : bool :=
  forallb (fun ev => match ev with
                     | Deliver d => truthy d
                     | ReadFault _ => false
                     end) p.

(** No [select] fails. *)
Definition quiet_select (o : list select_response) : bool :=
  forallb (fun r => match r with
                    | Ready _ => true
                    | SelectFault _ => false
                    end) o.

(** The pipes have distinct descriptors, as two open files have. *)
Definition distinct_fds (w : World) : bool :=
  negb (stdout_fileno w =? stderr_fileno w).

(** Nothing fails while the streams are drained. *)
Definition quiet (w : World) : bool :=
  distinct_fds w && quiet_pipe (stdout_pipe w) && quiet_pipe (stderr_pipe w)
  && quiet_select (select_oracle w).

(** All the bytes a pipe delivers, in order. *)
Definition stream_bytes (p : list pipe_event) : bytes :=
  concat (map (fun ev => match ev with
                         | Deliver d => d
                         | ReadFault _ => []
                         end) p).

(** How the child answers [wait], [terminate], [wait(1)] and [kill]. *)
Definition answers (w : World)
  : answer Z * answer unit * wait_response * answer unit :=
  (wait_answer w, terminate_answer w, timed_wait_answer w, kill_answer w).

(** The events of a drain loop in which nothing fails. *)
Definition is_drain_event (ev : event) : bool :=
  match ev with
  | EvSelect _ (Done _) | EvRead _ _ (Done _) | EvLog _ _ => true
  | _ => false
  end.

(** The read that reports the end of the stream of [fd]. *)
Definition eof (fd : Z) : event := EvRead fd read_size (Done []).

(** A call of the logger. *)
Definition is_log (ev : event) : bool :=
  match ev with
  | EvLog _ _ => true
  | _ => false
  end.

(** [st'] differs from [st] in the line buffers and in calls of the
    logger only. *)
Record log_ext (st st' : State) : Prop := {
  ext_world : world st' = world st;
  ext_stdout_list : stdout_list st' = stdout_list st;
  ext_stderr_list : stderr_list st' = stderr_list st;
  ext_fds : fds st' = fds st;
  ext_returncode : returncode st' = returncode st;
  ext_trace : exists logs,
      trace st' = trace st ++ logs /\ forallb is_log logs = true
}.

(** The invariant of the drain loop in a world without faults.  [bo] and
    [be] tell which descriptors are still in [fds]; what has been captured
    and what the pipe still holds make up the whole stream; a descriptor
    leaves [fds] on the read that reports the end of its stream. *)
Record drain_inv (fo fe : Z) (total_out total_err : bytes)
       (ans : answer Z * answer unit * wait_response * answer unit)
       (rc0 : option Z) (tr0 : list event)
       (bo be : bool) (st : State) : Prop := {
  inv_fo : stdout_fileno (world st) = fo;
  inv_fe : stderr_fileno (world st) = fe;
  inv_ans : answers (world st) = ans;
  inv_quiet_out : quiet_pipe (stdout_pipe (world st)) = true;
  inv_quiet_err : quiet_pipe (stderr_pipe (world st)) = true;
  inv_quiet_sel : quiet_select (select_oracle (world st)) = true;
  inv_rc : returncode st = rc0;
  inv_out : bytes_join (stdout_list st)
              ++ stream_bytes (stdout_pipe (world st)) = total_out;
  inv_err : bytes_join (stderr_list st)
              ++ stream_bytes (stderr_pipe (world st)) = total_err;
  inv_fds : fds st = (if bo then [fo] else []) ++ (if be then [fe] else []);
  inv_closed_out : bo = false -> stdout_pipe (world st) = [];
  inv_closed_err : be = false -> stderr_pipe (world st) = [];
  inv_trace : exists evs,
      trace st = tr0 ++ evs
      /\ forallb is_drain_event evs = true
      /\ (bo = false -> In (eof fo) evs)
      /\ (be = false -> In (eof fe) evs)
}.

(** What [cleanup] does, case by case. *)
Definition cleanup_spec (st : State) : result unit * State :=
  match terminate_answer (world st) with
  | Faulted f => (Exc (exn_of_fault f), emit (EvTerminate (Faulted f)) st)
  | Done u =>
      let st1 := emit (EvTerminate (Done u)) st in
      match timed_wait_answer (world st) with
      | Exited rc =>
          (Val tt, with_returncode (Some rc)
                     (emit (EvWait (Some 1) (Exited rc)) st1))
      | WaitFault f =>
          (Exc (exn_of_fault f), emit (EvWait (Some 1) (WaitFault f)) st1)
      | Expired =>
          let st2 := emit (EvWait (Some 1) Expired) st1 in
          match kill_answer (world st) with
          | Done u' => (Val tt, emit (EvKill (Done u')) st2)
          | Faulted f => (Exc (exn_of_fault f), emit (EvKill (Faulted f)) st2)
          end
      end
  end.


(** The bytes [b"hello\n"]. *)
Definition hello : bytes := [x68; x65; x6c; x6c; x6f; x0a].

(** A child that writes [b"hello\n"] to its standard output, in two
    deliveries, and exits with [code]. *)
Definition hello_world (code : Z) : World :=
  {| stdout_fileno := 3; stderr_fileno := 5;
     stdout_pipe := [Deliver [x68; x65]; Deliver [x6c; x6c; x6f; x0a]];
     stderr_pipe := [];
     select_oracle := [Ready [5]; Ready [3]];
     wait_answer := Done code;
     terminate_answer := Done tt;
     timed_wait_answer := Exited code;
     kill_answer := Done tt |}.

(** Calls that touch a stream or the logger. *)
Definition is_stream_event (ev : event) : bool :=
  match ev with
  | EvSelect _ _ | EvRead _ _ _ | EvLog _ _ => true
  | _ => false
  end.

(** The state after [stdout_list = []] and [stderr_list = []]. *)
Definition reset_lists (st : State) : State :=
  with_list StderrList [] (with_list StdoutList [] st).

(** A child that exits with [code]; its streams are not looked at. *)
Definition silent_world (code : Z) : World :=
  {| stdout_fileno := 1; stderr_fileno := 2;
     stdout_pipe := [Deliver hello]; stderr_pipe := [Deliver hello];
     select_oracle := [];
     wait_answer := Done code;
     terminate_answer := Done tt;
     timed_wait_answer := Exited code;
     kill_answer := Done tt |}.

Definition EIO : Z := 5.

Definition EPERM : Z := 1.

(** A child whose standard output fails with [f] on the first read, and
    which answers the cleanup calls as given. *)
Definition failing_world (f : fault) (term : answer unit)
           (timed : wait_response) (kill : answer unit) : World :=
  {| stdout_fileno := 3; stderr_fileno := 5;
     stdout_pipe := [ReadFault f]; stderr_pipe := [Deliver hello];
     select_oracle := [Ready [3]];
     wait_answer := Done 0;
     terminate_answer := term;
     timed_wait_answer := timed;
     kill_answer := kill |}.

Definition is_terminate (ev : event) : bool :=
  match ev with
  | EvTerminate _ => true
  | _ => false
  end.

(** No cleanup call raises, the timeout of the bounded wait apart. *)
Definition cleanup_nominal (w : World) : bool :=
  match terminate_answer w, timed_wait_answer w, kill_answer w with
  | Done _, Exited _, _ => true
  | Done _, Expired, Done _ => true
  | _, _, _ => false
  end.

(** The first fault among the cleanup calls that are made. *)
Definition cleanup_fault (w : World) : option fault :=
  match terminate_answer w with
  | Faulted f => Some f
  | Done _ =>
      match timed_wait_answer w with
      | WaitFault f => Some f
      | Exited _ => None
      | Expired =>
          match kill_answer w with
          | Faulted f => Some f
          | Done _ => None
          end
      end
  end.

(** A child that writes the bytes [b"\xff\n"] to its standard output. *)
Definition malformed_world : World :=
  {| stdout_fileno := 3; stderr_fileno := 5;
     stdout_pipe := [Deliver [xff; x0a]]; stderr_pipe := [];
     select_oracle := [];
     wait_answer := Done 0;
     terminate_answer := Done tt;
     timed_wait_answer := Exited 0;
     kill_answer := Done tt |}.


Definition is_eof (fd : Z) (ev : event) : bool :=
  match ev with
  | EvRead fd' _ (Done []) => fd' =? fd
  | _ => false
  end.


(** The [process.wait()] of line 129, which has no timeout. *)
Definition is_untimed_wait (ev : event) : bool :=
  match ev with
  | EvWait None _ => true
  | _ => false
  end.

(** What [run_subprocess] makes for its caller at the end: a
    [CompletedProcess] or a [CalledProcessError]. *)
Definition is_final_result (r : result CompletedProcess) : bool :=
  match r with
  | Val _ => true
  | Exc (CalledProcessError _ _ _ _) => true
  | _ => false
  end.

Definition not_log (ev : event) : bool := negb (is_log ev).

(** What is left of a state when the line buffers and the calls of the
    logger are put aside. *)
Definition observable (st : State)
  : World * list bytes * list bytes * list Z * option Z * list event :=
  (world st, stdout_list st, stderr_list st, fds st, returncode st,
   filter not_log (trace st)).

Definition sim (s1 s2 : State) : Prop := observable s1 = observable s2.

(** Two computations that, from states with the same observable part, give
    the same result and again states with the same observable part. *)
Definition msim {A} (m1 m2 : M A) : Prop :=
  forall s1 s2 : State,
    sim s1 s2 ->
    fst (m1 s1) = fst (m2 s2) /\ sim (snd (m1 s1)) (snd (m2 s2)).

Definition out_of_fuel {A} (r : result A) : bool :=
  match r with
  | OutOfFuel => true
  | _ => false
  end.

(** A computation that never runs out of fuel. *)
Definition total {A} (m : M A) : Prop :=
  forall st : State, out_of_fuel (fst (m st)) = false.

(** What a step that ends normally has done to the fuel. *)
Definition progress {A} (r : result A * State) (st : State) (k : nat) : Prop :=
  match r with
  | (Val _, st') => (drain_fuel st' + k <= drain_fuel st)%nat
  | (Exc _, _) => True
  | (OutOfFuel, _) => False
  end.

(** Both line buffers are empty and the logger has not been called. *)
Definition unlogged (st : State) : Prop :=
  buffer (stdout_logger st) = [] /\ buffer (stderr_logger st) = []
  /\ existsb is_log (trace st) = false.

(** [m] keeps the logger silent. *)
Definition preserves {A} (m : M A) : Prop :=
  forall st : State, unlogged st -> unlogged (snd (m st)).

(** The bytes that successful reads of [fd] returned, in order. *)
Fixpoint bytes_read (fd : Z) (tr : list event) : bytes :=
  match tr with
  | [] => []
  | EvRead fd' _ (Done d) :: t =>
      if fd' =? fd then d ++ bytes_read fd t else bytes_read fd t
  | _ :: t => bytes_read fd t
  end.

(** The exit code that [process.wait()] returned, if it was called and
    returned. *)
Fixpoint exit_code_obtained (tr : list event) : option Z :=
  match tr with
  | [] => None
  | EvWait None (Exited rc) :: _ => Some rc
  | _ :: t => exit_code_obtained t
  end.

(** In [tr], [process.wait()] is called at most once, and when it is called
    both streams have reported their end. *)
Fixpoint untimed_wait_in_place (fo fe : Z) (seen_out seen_err : bool)
         (tr : list event) : bool :=
  match tr with
  | [] => true
  | ev :: rest =>
      if is_untimed_wait ev
      then seen_out && seen_err && negb (existsb is_untimed_wait rest)
      else untimed_wait_in_place fo fe (seen_out || is_eof fo ev)
                                 (seen_err || is_eof fe ev) rest
  end.

(** [isinstance(e, CalledProcessError)] *)
Definition is_cpe (e : exn) : bool :=
  match e with
  | CalledProcessError _ _ _ _ => true
  | _ => false
  end.

(** [m] keeps the invariant [I], whatever its result, and raises only
    exceptions in [P]. *)
Definition keeps (I : State -> Prop) (P : exn -> Prop) {A} (m : M A) : Prop :=
  forall st : State,
    I st ->
    I (snd (m st))
    /\ match fst (m st) with
       | Exc e => P e
       | _ => True
       end.

(** What holds at every point of the drain loop, in every world: each
    capture list holds what the reads of its descriptor returned;
    [process.wait()] has not been called; [fds] is what is left of the two
    descriptors, and one that has left was seen at its end of stream. *)
Record capture_inv (fo fe : Z) (st : State) : Prop := {
  cap_fo : stdout_fileno (world st) = fo;
  cap_fe : stderr_fileno (world st) = fe;
  cap_out : bytes_join (stdout_list st) = bytes_read fo (trace st);
  cap_err : bytes_join (stderr_list st) = bytes_read fe (trace st);
  cap_no_wait : existsb is_untimed_wait (trace st) = false;
  cap_fds : exists bo be : bool,
      fds st = (if bo then [fo] else []) ++ (if be then [fe] else [])
      /\ (bo = false -> existsb (is_eof fo) (trace st) = true)
      /\ (be = false -> existsb (is_eof fe) (trace st) = true)
}.



(** A call made by the [except Exception] handler: [process.terminate()],
    [process.wait(1)] or [process.kill()]. *)
Definition is_cleanup_event (ev : event) : bool :=
  match ev with
  | EvTerminate _ | EvKill _ | EvWait (Some _) _ => true
  | _ => false
  end.

Definition is_exit_event (ev : event) : bool :=
  match ev with
  | EvPopenExit => true
  | _ => false
  end.

(** The ways the trace may end, from the first call of the handler on:
    no call of the handler at all; [terminate] that fails; [terminate],
    then [wait(1)] that returns or fails; [terminate], [wait(1)] that
    times out, then [kill]. *)
Definition escalation (tail : list event) : bool :=
  match tail with
  | [EvPopenExit] => true
  | [EvTerminate (Faulted _); EvPopenExit] => true
  | [EvTerminate (Done _); EvWait (Some 1) (Exited _); EvPopenExit] => true
  | [EvTerminate (Done _); EvWait (Some 1) (WaitFault _); EvPopenExit] => true
  | [EvTerminate (Done _); EvWait (Some 1) Expired; EvKill _; EvPopenExit] =>
      true
  | _ => false
  end.

(** The calls of the handler come last, in the order of [escalation], and
    the trace ends with the exit of the [with] block. *)
Fixpoint cleanup_in_order (tr : list event) : bool :=
  match tr with
  | [] => false
  | ev :: t =>
      if is_cleanup_event ev || is_exit_event ev then escalation tr
      else cleanup_in_order t
  end.

(** No call of the handler and no exit of the block so far. *)
Definition in_try_block (st : State) : Prop :=
  existsb (fun ev => is_cleanup_event ev || is_exit_event ev) (trace st)
  = false.

(** An exception that comes from a system call: an [OSError] or a
    [KeyboardInterrupt]. *)
Definition is_system (e : exn) : bool :=
  match e with
  | OSError _ | KeyboardInterrupt => true
  | _ => false
  end.

(** The exceptions a caller of [run_subprocess] has to expect. *)
Definition raises_only_expected {A} (r : result A) : bool :=
  match r with
  | Exc e => is_cpe e || is_system e
  | _ => true
  end.

Fixpoint list_Z_eqb (a b : list Z) : bool :=
  match a, b with
  | [], [] => true
  | x :: a', y :: b' => (x =? y) && list_Z_eqb a' b'
  | _, _ => false
  end.

(** The two descriptors, without those that have reported their end. *)
Definition open_fds (fo fe : Z) (bo be : bool) : list Z :=
  (if bo then [fo] else []) ++ (if be then [fe] else []).

Definition drop_fd (fd : Z) (l : list Z) : list Z :=
  filter (fun x => negb (x =? fd)) l.

(** The discipline of the calls on the pipes.  [open] are the descriptors
    that have not reported their end, [pending] those the last [select]
    reported ready and that have not been read since, [over] tells that
    the loop has been left.
    - [select] is called only inside the loop, when nothing is pending,
      with exactly the open descriptors, of which there is at least one;
    - a read is of the first pending descriptor, which is open, asks for
      [read_size] bytes and gets no more; an empty read closes the
      descriptor; a failed read ends the loop;
    - any other call but the logger's comes when nothing is pending and
      ends the loop. *)
Fixpoint follows_select (open pending : list Z) (over : bool)
         (tr : list event) : bool :=
  match tr with
  | [] => true
  | EvSelect rlist r :: t =>
      negb over && negb (truthy pending) && truthy rlist
      && list_Z_eqb rlist open
      && match r with
         | Done ready => follows_select open ready false t
         | Faulted _ => follows_select open [] true t
         end
  | EvRead fd n r :: t =>
      match pending with
      | next :: later =>
          (fd =? next) && mem fd open && (n =? read_size)
          && match r with
             | Done d =>
                 (Z.of_nat (length d) <=? n)
                 && follows_select (if truthy d then open else drop_fd fd open)
                                   later false t
             | Faulted _ => follows_select open [] true t
             end
      | [] => false
      end
  | EvLog _ _ :: t => follows_select open pending over t
  | _ :: t => negb (truthy pending) && follows_select open [] true t
  end.

Definition same_method (a b : log_method) : bool :=
  match a, b with
  | LOGGER_debug, LOGGER_debug | LOGGER_warning, LOGGER_warning => true
  | _, _ => false
  end.

(** The messages given to one method of the logger, in order. *)
Fixpoint logged (lg : log_method) (tr : list event) : list str :=
  match tr with
  | [] => []
  | EvLog lg' msg :: t =>
      if same_method lg' lg then msg :: logged lg t else logged lg t
  | _ :: t => logged lg t
  end.

(** The lines of a text: the segments that a newline ends, and what
    follows the last newline when it is not empty. *)
Definition text_lines (b : bytes) : list bytes :=
  removelast (bytes_split b)
    ++ (if truthy (last (bytes_split b) []) then [last (bytes_split b) []]
        else []).

(** A [LineLogger] that has been given the bytes [B] of its stream and
    has sent [msgs] to its logger; [opened] tells that the stream has not
    ended. *)
Definition line_state (lg : log_method) (ll : LineLogger) (opened : bool)
           (B : bytes) (msgs : list str) : Prop :=
  logger ll = lg
  /\ buffer ll = (if opened then last (bytes_split B) [] else [])
  /\ msgs = map decoded (if opened then removelast (bytes_split B)
                         else text_lines B).

(** The invariant of the drain loop in every world.  [bo] and [be] tell
    which descriptors are open, [pend] which are still to be read after
    the last [select]. *)
Record loop_inv (fo fe : Z) (live : bool) (bo be : bool) (pend : list Z)
       (st : State) : Prop := {
  li_fo : stdout_fileno (world st) = fo;
  li_fe : stderr_fileno (world st) = fe;
  li_fds : fds st = open_fds fo fe bo be;
  li_proto : forall rest,
      follows_select [fo; fe] [] false (trace st ++ rest)
      = follows_select (open_fds fo fe bo be) pend false rest;
  li_out : live = true ->
           line_state LOGGER_debug (stdout_logger st) bo
                      (bytes_read fo (trace st))
                      (logged LOGGER_debug (trace st));
  li_err : live = true ->
           line_state LOGGER_warning (stderr_logger st) be
                      (bytes_read fe (trace st))
                      (logged LOGGER_warning (trace st));
  li_eof_out : existsb (is_eof fo) (trace st) = negb bo;
  li_eof_err : existsb (is_eof fe) (trace st) = negb be
}.

(** The lines that the bytes read so far from [fd] make: the complete
    ones, and the last one without newline once the end of the stream
    has been read. *)
Definition lines_so_far (fd : Z) (tr : list event) : list bytes :=
  if existsb (is_eof fd) tr then text_lines (bytes_read fd tr)
  else removelast (bytes_split (bytes_read fd tr)).

(** The log holds the lines read so far, of both streams. *)
Definition log_so_far (fo fe : Z) (tr : list event) : Prop :=
  logged LOGGER_debug tr = map decoded (lines_so_far fo tr)
  /\ logged LOGGER_warning tr = map decoded (lines_so_far fe tr).

(** A call that reads no data and logs nothing. *)
Definition is_silent (ev : event) : bool :=
  match ev with
  | EvRead _ _ (Done _) | EvLog _ _ => false
  | _ => true
  end.

(** What is left of the invariant when the loop is left by an exception. *)
Definition loop_left (fo fe : Z) (live : bool) (st : State) : Prop :=
  (exists open : list Z,
      forall rest,
        follows_select [fo; fe] [] false (trace st ++ rest)
        = follows_select open [] true rest)
  /\ (live = true -> log_so_far fo fe (trace st)).

(** The buffers a final result carries. *)
Definition captured (r : result CompletedProcess)
  : option (option bytes * option bytes) :=
  match r with
  | Val cp => Some (cp_stdout cp, cp_stderr cp)
  | Exc (CalledProcessError _ _ out err) => Some (out, err)
  | _ => None
  end.

(** What one step of the loop leaves: the invariant [P] when it returns,
    and when it raises an exception of a system call, which ends the
    loop. *)
Definition loop_outcome (fo fe : Z) (live : bool) (P : State -> Prop)
           (r : result unit)
           (st' : State) : Prop :=
  match r with
  | Val _ => P st'
  | Exc e => is_system e = true /\ loop_left fo fe live st'
  | OutOfFuel => False
  end.

(** A message that holds no line feed. *)
Definition single_line (msg : str) : bool := negb (existsb (Z.eqb 10) msg).

Definition single_line_event (ev : event) : bool :=
  match ev with
  | EvLog _ msg => single_line msg
  | _ => true
  end.

(** Every message logged so far is a single line, and no line buffer holds
    a newline. *)
Definition single_lines (st : State) : Prop :=
  forallb single_line_event (trace st) = true
  /\ has_newline (buffer (stdout_logger st)) = false
  /\ has_newline (buffer (stderr_logger st)) = false.

(** ['\n'.join(lines)] on texts. *)
Fixpoint line_feed_join (lines : list str) : str :=
  match lines with
  | [] => []
  | [s] => s
  | s :: rest => s ++ 10 :: line_feed_join rest
  end.

(** * Properties *)

(** ** Decoding *)

Lemma safe_decode_val (b : bytes) : _safe_decode b = Val (decoded b).
Proof.
  unfold _safe_decode, decoded, Codec.decode_utf8_strict,
    Codec.decode_ascii_backslashreplace.
  destruct (Codec.utf8_strict (map byte_val b)); reflexivity.
Qed.

Lemma byte_val_range (b : byte) : 0 <= byte_val b < 256.
Proof.
  unfold byte_val. pose proof (Byte.to_N_bounded b). lia.
Qed.

Lemma hex_digit_ascii (d : Z) : 0 <= d < 16 -> is_ascii (Codec.hex_digit d) = true.
Proof.
  intros Hd. unfold is_ascii, Codec.hex_digit.
  destruct (d <? 10) eqn:E; apply andb_true_iff; split;
    try apply Z.leb_le; try apply Z.ltb_lt; lia.
Qed.

Lemma ascii_backslashreplace_ascii (b : bytes) :
  forallb is_ascii (Codec.ascii_backslashreplace (map byte_val b)) = true.
Proof.
  induction b as [|c t IH]; [reflexivity|].
  cbn [map Codec.ascii_backslashreplace].
  rewrite forallb_app, IH, andb_true_r.
  pose proof (byte_val_range c) as Hc.
  destruct (byte_val c <? 128) eqn:E.
  - cbn. rewrite andb_true_r. unfold is_ascii.
    apply andb_true_iff; split; [apply Z.leb_le; lia | exact E].
  - unfold Codec.backslash_escape. cbn [forallb].
    rewrite !hex_digit_ascii; [reflexivity | |].
    + apply Z.mod_pos_bound; lia.
    + split; [apply Z.div_pos; lia | apply Z.div_lt_upper_bound; lia].
Qed.

(** ** Splitting on newlines *)

Lemma bytes_split_cons_inv (b : bytes) :
  exists seg segs, bytes_split b = seg :: segs.
Proof.
  induction b as [|c t [seg [segs IH]]]; cbn; [eauto|].
  destruct (Byte.eqb c newline); [eauto|]. rewrite IH. eauto.
Qed.

Lemma bytes_split_not_nil (b : bytes) : bytes_split b <> [].
Proof.
  destruct (bytes_split_cons_inv b) as [seg [segs E]]. rewrite E. discriminate.
Qed.

Lemma byte_eqb_sym (a b : byte) : Byte.eqb a b = Byte.eqb b a.
Proof.
  destruct (Byte.eqb a b) eqn:E.
  - apply Byte.byte_dec_bl in E. subst. symmetry. apply Byte.byte_dec_lb. reflexivity.
  - destruct (Byte.eqb b a) eqn:E'; [|reflexivity].
    apply Byte.byte_dec_bl in E'. subst.
    rewrite (Byte.byte_dec_lb eq_refl) in E. discriminate.
Qed.

Lemma bytes_split_segments (b : bytes) :
  forallb (fun seg => negb (has_newline seg)) (bytes_split b) = true.
Proof.
  induction b as [|c t IH]; [reflexivity|]. cbn [bytes_split].
  destruct (Byte.eqb c newline) eqn:E; [exact IH|].
  unfold has_newline in *.
  destruct (bytes_split t) as [|seg segs]; cbn [forallb existsb] in *.
  - rewrite byte_eqb_sym, E. reflexivity.
  - rewrite byte_eqb_sym, E. exact IH.
Qed.

Lemma newline_join_split (b : bytes) : newline_join (bytes_split b) = b.
Proof.
  induction b as [|c t IH]; [reflexivity|]. cbn [bytes_split].
  destruct (Byte.eqb c newline) eqn:E.
  - apply Byte.byte_dec_bl in E. subst c.
    destruct (bytes_split_cons_inv t) as [seg [segs Es]].
    rewrite Es in *. rewrite <- IH. reflexivity.
  - destruct (bytes_split_cons_inv t) as [seg [segs Es]]. rewrite Es in *.
    destruct segs; cbn in *; rewrite <- IH; reflexivity.
Qed.

Lemma bytes_split_length (b : bytes) :
  length (bytes_split b) = S (count_occ Byte.byte_eq_dec b newline).
Proof.
  induction b as [|c t IH]; [reflexivity|]. cbn [bytes_split count_occ].
  destruct (Byte.eqb c newline) eqn:E.
  - apply Byte.byte_dec_bl in E. subst c.
    destruct (Byte.byte_eq_dec newline newline); [|congruence].
    cbn. rewrite IH. reflexivity.
  - destruct (Byte.byte_eq_dec c newline) as [->|_].
    + rewrite (Byte.byte_dec_lb eq_refl) in E. discriminate.
    + destruct (bytes_split_cons_inv t) as [seg [segs Es]]. rewrite Es in *.
      exact IH.
Qed.

Lemma removelast_length {A} (l : list A) :
  length (removelast l) = Nat.pred (length l).
Proof.
  induction l as [|x [|y t] IH]; [reflexivity | reflexivity |].
  change (removelast (x :: y :: t)) with (x :: removelast (y :: t)).
  cbn [length] in *. rewrite IH. reflexivity.
Qed.

(** The lines of what has been received so far do not depend on where the
    data was cut: splitting [a ++ b] is splitting [a], then going on from
    its last, unterminated segment. *)
Lemma bytes_split_app (a b : bytes) :
  bytes_split (a ++ b)
  = removelast (bytes_split a) ++ bytes_split (last (bytes_split a) [] ++ b).
Proof.
  induction a as [|c t IH]; [reflexivity|].
  cbn [app bytes_split].
  destruct (Byte.eqb c newline) eqn:E.
  - destruct (bytes_split_cons_inv t) as [seg [segs Es]].
    rewrite IH, Es. reflexivity.
  - rewrite IH. destruct (bytes_split t) as [|seg [|seg2 segs]] eqn:Es.
    + exfalso. eapply bytes_split_not_nil. exact Es.
    + cbn [removelast last app bytes_split]. rewrite E. reflexivity.
    + change (removelast (seg :: seg2 :: segs))
        with (seg :: removelast (seg2 :: segs)).
      change (removelast ((c :: seg) :: seg2 :: segs))
        with ((c :: seg) :: removelast (seg2 :: segs)).
      reflexivity.
Qed.

Lemma last_app_not_nil {A} (l l' : list A) (d : A) :
  l' <> [] -> last (l ++ l') d = last l' d.
Proof.
  intros H. induction l as [|x t IH]; [reflexivity|].
  change ((x :: t) ++ l') with (x :: (t ++ l')).
  destruct (t ++ l') as [|y r] eqn:E.
  - destruct t; [cbn in E; contradiction | discriminate].
  - exact IH.
Qed.

Lemma bytes_split_app_removelast (a b : bytes) :
  removelast (bytes_split (a ++ b))
  = removelast (bytes_split a)
      ++ removelast (bytes_split (last (bytes_split a) [] ++ b)).
Proof.
  rewrite bytes_split_app. apply removelast_app, bytes_split_not_nil.
Qed.

Lemma bytes_split_app_last (a b : bytes) :
  last (bytes_split (a ++ b)) []
  = last (bytes_split (last (bytes_split a) [] ++ b)) [].
Proof.
  rewrite bytes_split_app. apply last_app_not_nil, bytes_split_not_nil.
Qed.

Lemma last_split_no_newline (b : bytes) :
  has_newline (last (bytes_split b) []) = false.
Proof.
  pose proof (bytes_split_segments b) as H.
  induction (bytes_split b) as [|seg [|seg2 segs] IH]; [reflexivity | |].
  - cbn in *. rewrite andb_true_r in H. now apply negb_true_iff.
  - change (last (seg :: seg2 :: segs) []) with (last (seg2 :: segs) []).
    apply IH. cbn [forallb] in H. apply andb_true_iff in H. apply H.
Qed.

Lemma removelast_split_no_newline (b : bytes) :
  forallb (fun seg => negb (has_newline seg)) (removelast (bytes_split b)) = true.
Proof.
  pose proof (bytes_split_segments b) as H.
  induction (bytes_split b) as [|seg [|seg2 segs] IH]; [reflexivity | reflexivity |].
  change (removelast (seg :: seg2 :: segs)) with (seg :: removelast (seg2 :: segs)).
  cbn [forallb] in *. apply andb_true_iff in H as [H1 H2].
  rewrite H1. exact (IH H2).
Qed.

Lemma bytes_split_no_newline (b : bytes) :
  has_newline b = false -> bytes_split b = [b].
Proof.
  induction b as [|c t IH]; [reflexivity|].
  unfold has_newline. cbn [existsb bytes_split]. intros H.
  apply orb_false_iff in H as [H1 H2].
  rewrite byte_eqb_sym, H1, (IH H2). reflexivity.
Qed.

(** ** The line buffer *)

Lemma bind_gets {A B} (f : State -> A) (k : A -> M B) (st : State) :
  bind (gets f) k st = k (f st) st.
Proof. reflexivity. Qed.

Lemma bind_modify {B} (f : State -> State) (k : unit -> M B) (st : State) :
  bind (modify f) k st = k tt (f st).
Proof. reflexivity. Qed.

Lemma bind_ret {A B} (a : A) (k : A -> M B) (st : State) :
  bind (ret a) k st = k a st.
Proof. reflexivity. Qed.

Lemma bind_val {A B} (m : M A) (k : A -> M B) (st st' : State) (a : A) :
  m st = (Val a, st') -> bind m k st = k a st'.
Proof. intros H. unfold bind. rewrite H. reflexivity. Qed.

Arguments bind_val {A B m} k {st st' a} _.

Ltac mstep :=
  repeat first [ rewrite bind_gets | rewrite bind_modify | rewrite bind_ret ].

Lemma for_each_logger (lg : log_method) (lines : list bytes) (st : State) :
  for_each lines (fun line => msg <- lift (_safe_decode line) ;;
                              call_logger lg msg) st
  = (Val tt, with_trace (trace st ++ map (log_event lg) lines) st).
Proof.
  revert st. induction lines as [|line t IH]; intros st.
  - cbn. rewrite app_nil_r. destruct st; reflexivity.
  - cbn [for_each map]. unfold bind at 1. unfold bind at 1. unfold lift at 1.
    rewrite safe_decode_val. unfold call_logger, modify.
    rewrite IH. unfold emit. cbn [trace with_trace].
    rewrite <- app_assoc. reflexivity.
Qed.

(** What one call of [log] does: the buffer becomes the last segment of
    [buffer + data], all segments before it are sent to the logger. *)
Lemma LineLogger_log_run (self : logger_ref) (data : bytes) (st : State) :
  let ll := get_logger self st in
  let segs := bytes_split (buffer ll ++ data) in
  LineLogger_log self data st
  = (Val tt,
     with_trace (trace st ++ map (log_event (logger ll)) (removelast segs))
                (with_logger self {| buffer := last segs [];
                                     logger := logger ll |} st)).
Proof.
  unfold LineLogger_log, set_buffer. mstep.
  rewrite for_each_logger. destruct self; reflexivity.
Qed.

Lemma LineLogger_flush_run (self : logger_ref) (st : State) :
  let ll := get_logger self st in
  LineLogger_flush self st
  = (Val tt,
     if truthy (buffer ll)
     then with_trace (trace st ++ [log_event (logger ll) (buffer ll)])
                     (with_logger self {| buffer := [];
                                          logger := logger ll |} st)
     else st).
Proof.
  unfold LineLogger_flush, set_buffer, call_logger, lift.
  unfold bind, gets, modify, ret. cbn zeta.
  destruct self; cbn [get_logger];
    (destruct (buffer _) eqn:E; [reflexivity|]);
    cbn [length truthy]; rewrite safe_decode_val; reflexivity.
Qed.

Lemma with_logger_same (self : logger_ref) (st : State) :
  with_logger self {| buffer := buffer (get_logger self st);
                      logger := logger (get_logger self st) |} st = st.
Proof.
  destruct st as [w [b1 l1] [b2 l2] so se f rc tr]. destruct self; reflexivity.
Qed.

Lemma with_trace_same (st : State) : with_trace (trace st) st = st.
Proof. destruct st; reflexivity. Qed.

Lemma feed_run (self : logger_ref) (chunks : list bytes) :
  forall st : State,
    has_newline (buffer (get_logger self st)) = false ->
    let ll := get_logger self st in
    let segs := bytes_split (buffer ll ++ concat chunks) in
    feed self chunks st
    = (Val tt,
       with_trace (trace st ++ map (log_event (logger ll)) (removelast segs))
                  (with_logger self {| buffer := last segs [];
                                       logger := logger ll |} st)).
Proof.
  induction chunks as [|c t IH]; intros st Hnl; cbn zeta.
  - cbn [concat]. rewrite app_nil_r, (bytes_split_no_newline _ Hnl).
    cbn [removelast last map]. rewrite app_nil_r, with_logger_same, with_trace_same.
    reflexivity.
  - unfold feed. cbn [for_each].
    erewrite bind_val by apply LineLogger_log_run.
    fold (feed self t). rewrite IH.
    + cbn [concat]. rewrite (app_assoc _ c (concat t)).
      rewrite (bytes_split_app_removelast (_ ++ c) (concat t)).
      rewrite (bytes_split_app_last (_ ++ c) (concat t)).
      rewrite map_app, app_assoc.
      destruct self; reflexivity.
    + destruct self; cbn; apply last_split_no_newline.
Qed.

Lemma init_feed_run (self : logger_ref) (lg : log_method)
      (chunks : list bytes) (st : State) :
  let segs := bytes_split (concat chunks) in
  (LineLogger_init self lg ;; feed self chunks) st
  = (Val tt,
     with_trace (trace st ++ map (log_event lg) (removelast segs))
                (with_logger self {| buffer := last segs []; logger := lg |} st)).
Proof.
  unfold LineLogger_init. rewrite bind_modify. rewrite feed_run.
  - destruct self; reflexivity.
  - destruct self; reflexivity.
Qed.

(** C3.  A line buffer sends a line to its logger only for a newline seen in
    what it has accumulated: a call of [log] emits as many lines as
    [buffer + data] holds newline bytes; after any sequence of chunks the
    lines emitted are the newline-terminated segments of the concatenated
    input, and [flush] emits what is left, once, when it is not empty.  So
    [b"a\nb\nc"], however it is cut, gives "a" and "b" during [log] and "c"
    at [flush], with no empty line at the end, and [b"a\nbc"] gives "a"
    during [log] and "bc" at [flush] only. *)
Theorem line_buffer_emits_lines :
  (forall (st : State) (self : logger_ref) (data : bytes),
      let ll := get_logger self st in
      let out := LineLogger_log self data st in
      exists lines : list bytes,
        fst out = Val tt
        /\ trace (snd out) = trace st ++ map (log_event (logger ll)) lines
        /\ length lines
           = count_occ Byte.byte_eq_dec (buffer ll ++ data) newline)
  /\ (forall (st : State) (self : logger_ref) (lg : log_method)
             (chunks : list bytes),
         let segs := bytes_split (concat chunks) in
         let fed := (LineLogger_init self lg ;; feed self chunks) st in
         let flushed := LineLogger_flush self (snd fed) in
         fst fed = Val tt
         /\ trace (snd fed) = trace st ++ map (log_event lg) (removelast segs)
         /\ fst flushed = Val tt
         /\ trace (snd flushed)
            = trace (snd fed)
                ++ (if truthy (last segs [])
                    then [log_event lg (last segs [])] else []))
  /\ (forall (st : State) (self : logger_ref) (lg : log_method)
             (chunks : list bytes),
         concat chunks = a_b_c ->
         let fed := (LineLogger_init self lg ;; feed self chunks) st in
         let flushed := LineLogger_flush self (snd fed) in
         trace (snd fed)
         = trace st ++ [EvLog lg (str_of_string "a"); EvLog lg (str_of_string "b")]
         /\ trace (snd flushed)
            = trace (snd fed) ++ [EvLog lg (str_of_string "c")])
  /\ (forall (st : State) (self : logger_ref) (lg : log_method)
             (chunks : list bytes),
         concat chunks = a_bc ->
         let fed := (LineLogger_init self lg ;; feed self chunks) st in
         let flushed := LineLogger_flush self (snd fed) in
         trace (snd fed) = trace st ++ [EvLog lg (str_of_string "a")]
         /\ trace (snd flushed)
            = trace (snd fed) ++ [EvLog lg (str_of_string "bc")]).
Proof.
  assert (General :
    forall (st : State) (self : logger_ref) (lg : log_method)
           (chunks : list bytes),
      let segs := bytes_split (concat chunks) in
      let fed := (LineLogger_init self lg ;; feed self chunks) st in
      let flushed := LineLogger_flush self (snd fed) in
      fst fed = Val tt
      /\ trace (snd fed) = trace st ++ map (log_event lg) (removelast segs)
      /\ fst flushed = Val tt
      /\ trace (snd flushed)
         = trace (snd fed)
             ++ (if truthy (last segs [])
                 then [log_event lg (last segs [])] else [])).
  { intros st self lg chunks. cbn zeta.
    rewrite init_feed_run, LineLogger_flush_run. cbn [fst snd].
    repeat split.
    destruct self; cbn [get_logger with_trace with_logger stdout_logger
                          stderr_logger buffer logger];
      destruct (truthy _); cbn [trace with_trace]; rewrite ?app_nil_r;
      reflexivity. }
  split; [|split; [exact General|split]].
  - intros st self data ll out.
    exists (removelast (bytes_split (buffer ll ++ data))).
    subst out. rewrite LineLogger_log_run. cbn [fst snd trace with_trace].
    repeat split.
    rewrite removelast_length, bytes_split_length. reflexivity.
  - intros st self lg chunks E. cbn zeta.
    destruct (General st self lg chunks) as (_ & H1 & _ & H2).
    rewrite H2, H1, E. split; reflexivity.
  - intros st self lg chunks E. cbn zeta.
    destruct (General st self lg chunks) as (_ & H1 & _ & H2).
    rewrite H2, H1, E. split; reflexivity.
Qed.

Lemma line_buffer_emits_lines_witness :
  concat [[x61]; [x0a; x62; x0a]; [x63]] = a_b_c
  /\ trace (snd ((LineLogger_init StdoutLogger LOGGER_debug ;;
                  feed StdoutLogger [[x61]; [x0a; x62; x0a]; [x63]])
                   (initial_state
                      {| stdout_fileno := 3; stderr_fileno := 5;
                         stdout_pipe := []; stderr_pipe := [];
                         select_oracle := []; wait_answer := Done 0;
                         terminate_answer := Done tt;
                         timed_wait_answer := Exited 0;
                         kill_answer := Done tt |})))
     = [EvLog LOGGER_debug [97]; EvLog LOGGER_debug [98]].
Proof.
  split; [reflexivity|].
  exact (proj1 (proj1 (proj2 (proj2 line_buffer_emits_lines))
                  (initial_state _) StdoutLogger LOGGER_debug
                  [[x61]; [x0a; x62; x0a]; [x63]] eq_refl)).
Defined.

(** C9.  After [log] the buffer holds no newline byte, the segments sent to
    the logger hold none either, and together with the buffer they are
    exactly [buffer + data]: every newline-terminated segment has been
    emitted when the call returns.  After [flush] the buffer is empty, and
    a second [flush] changes nothing and emits nothing. *)
Theorem line_buffer_residue_invariant :
  forall (st : State) (self : logger_ref) (data : bytes),
    (let ll := get_logger self st in
     let out := LineLogger_log self data st in
     let residue := buffer (get_logger self (snd out)) in
     exists lines : list bytes,
       fst out = Val tt
       /\ has_newline residue = false
       /\ trace (snd out) = trace st ++ map (log_event (logger ll)) lines
       /\ forallb (fun seg => negb (has_newline seg)) lines = true
       /\ newline_join (lines ++ [residue]) = buffer ll ++ data)
    /\ (let out := LineLogger_flush self st in
        fst out = Val tt
        /\ buffer (get_logger self (snd out)) = []
        /\ has_newline (buffer (get_logger self (snd out))) = false
        /\ LineLogger_flush self (snd out) = (Val tt, snd out)).
Proof.
  intros st self data. split.
  - cbn zeta. rewrite LineLogger_log_run. cbn [fst snd].
    exists (removelast (bytes_split (buffer (get_logger self st) ++ data))).
    assert (R : buffer (get_logger self
                 (with_trace
                    (trace st ++ map (log_event (logger (get_logger self st)))
                       (removelast (bytes_split (buffer (get_logger self st) ++ data))))
                    (with_logger self
                       {| buffer := last (bytes_split (buffer (get_logger self st) ++ data)) [];
                          logger := logger (get_logger self st) |} st)))
                = last (bytes_split (buffer (get_logger self st) ++ data)) [])
      by (destruct self; reflexivity).
    rewrite R. repeat split.
    + apply last_split_no_newline.
    + apply removelast_split_no_newline.
    + rewrite <- app_removelast_last by apply bytes_split_not_nil.
      apply newline_join_split.
  - cbn zeta. rewrite LineLogger_flush_run. cbn [fst snd].
    assert (R : buffer (get_logger self
                 (if truthy (buffer (get_logger self st))
                  then with_trace
                         (trace st ++ [log_event (logger (get_logger self st))
                                         (buffer (get_logger self st))])
                         (with_logger self
                            {| buffer := [];
                               logger := logger (get_logger self st) |} st)
                  else st)) = []).
    { destruct (buffer (get_logger self st)) eqn:E; cbn [truthy];
        [exact E | destruct self; reflexivity]. }
    repeat split; [exact R | rewrite R; reflexivity |].
    rewrite LineLogger_flush_run. rewrite R. reflexivity.
Qed.

(** ** Draining in a world without faults *)

Arguments read_size : simpl never.

Lemma read_size_pos : (0 < Z.to_nat read_size)%nat.
Proof. unfold read_size. lia. Qed.

Lemma pipe_read_quiet (n : Z) (ev : pipe_event) (p : list pipe_event) :
  (0 < Z.to_nat n)%nat ->
  quiet_pipe (ev :: p) = true ->
  exists (d : bytes) (p' : list pipe_event),
    pipe_read n (ev :: p) = (Done d, p')
    /\ truthy d = true
    /\ d ++ stream_bytes p' = stream_bytes (ev :: p)
    /\ quiet_pipe p' = true
    /\ (pipe_weight p' < pipe_weight (ev :: p))%nat.
Proof.
  intros Hn Hq. destruct ev as [data|f]; [|discriminate Hq].
  cbn [quiet_pipe forallb] in Hq. apply andb_true_iff in Hq as [Hd Hq].
  fold (quiet_pipe p) in Hq.
  destruct data as [|c data]; [discriminate Hd|].
  cbn [pipe_read]. remember (Z.to_nat n) as k eqn:Ek.
  destruct k as [|k]; [lia|].
  pose proof (firstn_skipn (S k) (c :: data)) as Hfs.
  pose proof (length_skipn (S k) (c :: data)) as Hlen.
  exists (firstn (S k) (c :: data)).
  destruct (skipn (S k) (c :: data)) as [|c' d'] eqn:Es.
  - exists p. rewrite app_nil_r in Hfs. rewrite Hfs.
    repeat split; auto. unfold pipe_weight. cbn [fold_right]. lia.
  - exists (Deliver (c' :: d') :: p). repeat split.
    + unfold stream_bytes. cbn [map concat].
      rewrite app_assoc, Hfs. reflexivity.
    + cbn [quiet_pipe forallb truthy andb]. exact Hq.
    + unfold pipe_weight. cbn [fold_right]. cbn [length] in *. lia.
Qed.

Lemma log_ext_refl (st : State) : log_ext st st.
Proof.
  constructor; try reflexivity. exists []. rewrite app_nil_r. split; reflexivity.
Qed.

Lemma forallb_is_log_map (lg : log_method) (segs : list bytes) :
  forallb is_log (map (log_event lg) segs) = true.
Proof. induction segs; [reflexivity | exact IHsegs]. Qed.

Lemma LineLogger_log_frame (self : logger_ref) (data : bytes) (st : State) :
  exists st', LineLogger_log self data st = (Val tt, st') /\ log_ext st st'.
Proof.
  eexists. split; [apply LineLogger_log_run|].
  constructor; try (destruct self; reflexivity).
  eexists. split; [destruct self; reflexivity | apply forallb_is_log_map].
Qed.

Lemma LineLogger_flush_frame (self : logger_ref) (st : State) :
  exists st', LineLogger_flush self st = (Val tt, st') /\ log_ext st st'.
Proof.
  eexists. split; [apply LineLogger_flush_run|].
  cbn zeta. destruct (truthy (buffer (get_logger self st))).
  - constructor; try (destruct self; reflexivity).
    eexists. split; [destruct self; reflexivity | reflexivity].
  - apply log_ext_refl.
Qed.

Lemma is_log_drain_event (logs : list event) :
  forallb is_log logs = true -> forallb is_drain_event logs = true.
Proof.
  induction logs as [|ev t IH]; [reflexivity|]. cbn [forallb].
  intros H. apply andb_true_iff in H as [H1 H2]. rewrite (IH H2).
  destruct ev; try discriminate H1; reflexivity.
Qed.

Lemma log_ext_fuel (st st' : State) :
  log_ext st st' -> drain_fuel st' = drain_fuel st.
Proof.
  intros [Hw _ _ Hf _ _]. unfold drain_fuel. rewrite Hw, Hf. reflexivity.
Qed.

Ltac state_simpl :=
  cbn [world stdout_logger stderr_logger stdout_list stderr_list fds
       returncode trace with_world with_trace with_fds with_returncode
       with_logger with_list get_list get_logger emit
       stdout_fileno stderr_fileno stdout_pipe stderr_pipe select_oracle
       wait_answer terminate_answer timed_wait_answer kill_answer
       with_stdout_pipe with_stderr_pipe with_select_oracle answers].

Section QuietDrain.

Variables (fo fe : Z) (log_output_live : bool).
Variables (total_out total_err : bytes).
Variable ans : answer Z * answer unit * wait_response * answer unit.
Variable rc0 : option Z.
Variable tr0 : list event.
Hypothesis Hne : (fo =? fe) = false.

Local Abbreviation inv := (drain_inv fo fe total_out total_err ans rc0 tr0).

Lemma drain_inv_log_ext (bo be : bool) (st st' : State) :
  inv bo be st -> log_ext st st' -> inv bo be st'.
Proof.
  intros I [Hw Hso Hse Hf Hrc (logs & Ht & Hl)]. destruct I.
  constructor; rewrite ?Hw, ?Hso, ?Hse, ?Hf, ?Hrc; auto.
  destruct inv_trace0 as (evs & E & Hd & Ho & He).
  exists (evs ++ logs). rewrite Ht, E, app_assoc. split; [reflexivity|].
  rewrite forallb_app, Hd, (is_log_drain_event _ Hl).
  repeat split; intros; apply in_or_app; left; auto.
Qed.

Lemma make_fds_map_distinct :
  make_fds_map fo fe
  = [(fo, (StdoutLogger, StdoutList)); (fe, (StderrLogger, StderrList))].
Proof. unfold make_fds_map. cbn. rewrite Hne. reflexivity. Qed.

Lemma fileno_distinct_sym : (fe =? fo) = false.
Proof. rewrite Z.eqb_sym. exact Hne. Qed.

Lemma bytes_join_snoc (l : list bytes) (b : bytes) :
  bytes_join (l ++ [b]) = bytes_join l ++ b.
Proof.
  unfold bytes_join. rewrite concat_app. cbn. rewrite app_nil_r. reflexivity.
Qed.

Lemma drain_fd_stdout (be : bool) (st : State) :
  inv true be st ->
  exists (bo' : bool) (st' : State),
    drain_fd (make_fds_map fo fe) log_output_live fo st = (Val tt, st')
    /\ inv bo' be st'
    /\ (drain_fuel st' < drain_fuel st)%nat.
Proof.
  intros I. pose proof I as I0. destruct I.
  unfold drain_fd. rewrite make_fds_map_distinct.
  cbn [dict_get]. rewrite Z.eqb_refl. rewrite bind_ret.
  unfold bind at 1. unfold os_read. rewrite inv_fo0, Z.eqb_refl.
  destruct inv_trace0 as (evs & Et & Hd & _ & He).
  destruct (stdout_pipe (world st)) as [|ev p] eqn:Ep.
  - cbn [pipe_read reply ret truthy].
    rewrite bind_gets. cbn [fds emit with_trace with_world].
    rewrite inv_fds0. cbn [app list_remove]. rewrite Z.eqb_refl.
    rewrite bind_modify.
    match goal with
    | |- context [LineLogger_flush ?r ?s] =>
        destruct (LineLogger_flush_frame r s) as (st' & Er & Hext);
        assert (I1 : inv false be s)
    end.
    { constructor; cbn; auto.
      exists (evs ++ [eof fo]). rewrite Et, app_assoc.
      split; [reflexivity|]. rewrite forallb_app, Hd.
      repeat split; intros; apply in_or_app;
        [right; left; reflexivity | left; auto]. }
    exists false, st'. split; [exact Er|]. split.
    + eapply drain_inv_log_ext; eauto.
    + rewrite (log_ext_fuel Hext). unfold drain_fuel.
      cbn [world fds with_fds emit with_trace with_world stdout_pipe
             stderr_pipe with_stdout_pipe].
      rewrite Ep, inv_fds0. cbn [app length]. lia.
  - destruct (pipe_read_quiet read_size ev p read_size_pos inv_quiet_out0)
      as (d & p' & Er & Hd1 & Hd2 & Hd3 & Hd4).
    rewrite Er. cbn [reply ret]. rewrite Hd1. rewrite bind_modify.
    match goal with
    | |- context [(if log_output_live then _ else _) ?s] =>
        assert (I1 : inv true be s);
        [| assert (F1 : (drain_fuel s < drain_fuel st)%nat);
           [| assert (L : exists st',
                   (if log_output_live
                    then LineLogger_log StdoutLogger d else ret tt) s
                   = (Val tt, st') /\ log_ext s st') ] ]
    end.
    + constructor; state_simpl; auto.
      * rewrite bytes_join_snoc, <- app_assoc, Hd2. exact inv_out0.
      * discriminate.
      * exists (evs ++ [EvRead fo read_size (Done d)]).
        rewrite Et, app_assoc. split; [reflexivity|].
        rewrite forallb_app, Hd. repeat split; [discriminate|].
        intros; apply in_or_app; left; auto.
    + unfold drain_fuel.
      cbn [world fds with_fds emit with_trace with_world stdout_pipe
             stderr_pipe with_stdout_pipe with_list].
      rewrite Ep. lia.
    + destruct log_output_live.
      * apply LineLogger_log_frame.
      * eexists. split; [reflexivity | apply log_ext_refl].
    + destruct L as (st' & Erun & Hext).
      exists true, st'. split; [exact Erun|]. split.
      * eapply drain_inv_log_ext; eauto.
      * rewrite (log_ext_fuel Hext). exact F1.
Qed.

Lemma drain_fd_stderr (bo : bool) (st : State) :
  inv bo true st ->
  exists (be' : bool) (st' : State),
    drain_fd (make_fds_map fo fe) log_output_live fe st = (Val tt, st')
    /\ inv bo be' st'
    /\ (drain_fuel st' < drain_fuel st)%nat.
Proof.
  intros I. pose proof I as I0. destruct I.
  unfold drain_fd. rewrite make_fds_map_distinct.
  cbn [dict_get]. rewrite Hne, Z.eqb_refl. rewrite bind_ret.
  unfold bind at 1. unfold os_read.
  rewrite inv_fo0, inv_fe0, fileno_distinct_sym, Z.eqb_refl.
  destruct inv_trace0 as (evs & Et & Hd & Ho & _).
  destruct (stderr_pipe (world st)) as [|ev p] eqn:Ep.
  - cbn [pipe_read reply ret truthy].
    rewrite bind_gets. cbn [fds emit with_trace with_world].
    rewrite inv_fds0.
    assert (Erm : list_remove ((if bo then [fo] else []) ++ [fe]) fe
                  = Some ((if bo then [fo] else []) ++ [])).
    { destruct bo; cbn [app list_remove]; rewrite ?Hne, Z.eqb_refl; reflexivity. }
    rewrite Erm, bind_modify.
    match goal with
    | |- context [LineLogger_flush ?r ?s] =>
        destruct (LineLogger_flush_frame r s) as (st' & Er & Hext);
        assert (I1 : inv bo false s)
    end.
    { constructor; state_simpl; auto.
      exists (evs ++ [eof fe]). rewrite Et, app_assoc.
      split; [reflexivity|]. rewrite forallb_app, Hd.
      repeat split; intros; apply in_or_app;
        [left; auto | right; left; reflexivity]. }
    exists false, st'. split; [exact Er|]. split.
    + eapply drain_inv_log_ext; eauto.
    + rewrite (log_ext_fuel Hext). unfold drain_fuel. state_simpl.
      rewrite Ep, inv_fds0, !length_app. cbn [length]. lia.
  - destruct (pipe_read_quiet read_size ev p read_size_pos inv_quiet_err0)
      as (d & p' & Er & Hd1 & Hd2 & Hd3 & Hd4).
    rewrite Er. cbn [reply ret]. rewrite Hd1. rewrite bind_modify.
    match goal with
    | |- context [(if log_output_live then _ else _) ?s] =>
        assert (I1 : inv bo true s);
        [| assert (F1 : (drain_fuel s < drain_fuel st)%nat);
           [| assert (L : exists st',
                   (if log_output_live
                    then LineLogger_log StderrLogger d else ret tt) s
                   = (Val tt, st') /\ log_ext s st') ] ]
    end.
    + constructor; state_simpl; auto.
      * rewrite bytes_join_snoc, <- app_assoc, Hd2. exact inv_err0.
      * discriminate.
      * exists (evs ++ [EvRead fe read_size (Done d)]).
        rewrite Et, app_assoc. split; [reflexivity|].
        rewrite forallb_app, Hd. repeat split; [|discriminate].
        intros; apply in_or_app; left; auto.
    + unfold drain_fuel. state_simpl. rewrite Ep. lia.
    + destruct log_output_live.
      * apply LineLogger_log_frame.
      * eexists. split; [reflexivity | apply log_ext_refl].
    + destruct L as (st' & Erun & Hext).
      exists true, st'. split; [exact Erun|]. split.
      * eapply drain_inv_log_ext; eauto.
      * rewrite (log_ext_fuel Hext). exact F1.
Qed.

(** [select] in a quiet world: a non-empty part of [fds], in order. *)
Lemma select_quiet (bo be : bool) (st : State) :
  inv bo be st ->
  bo || be = true ->
  exists (ro re : bool) (st' : State),
    select_select (fds st) st
    = (Val ((if ro then [fo] else []) ++ (if re then [fe] else [])), st')
    /\ ro || re = true
    /\ (ro = true -> bo = true) /\ (re = true -> be = true)
    /\ inv bo be st'
    /\ drain_fuel st' = drain_fuel st.
Proof.
  intros I Hopen. pose proof I as I0. destruct I.
  destruct inv_trace0 as (evs & Et & Hd & Ho & He).
  unfold select_select.
  destruct (select_oracle (world st)) as [|[r|f] o] eqn:Eo.
  - exists bo, be, (emit (EvSelect (fds st) (Done (fds st))) st).
    rewrite <- inv_fds0.
    split; [reflexivity|]. split; [exact Hopen|].
    split; [auto|]. split; [auto|]. split; [|reflexivity].
    constructor; state_simpl; auto; [rewrite Eo; reflexivity|].
    exists (evs ++ [EvSelect (fds st) (Done (fds st))]).
    rewrite Et, app_assoc. split; [reflexivity|].
    rewrite forallb_app, Hd.
    repeat split; intros; apply in_or_app; left; auto.
  - set (ready := match filter (fun fd => mem fd r) (fds st) with
                  | [] => fds st
                  | sel => sel
                  end).
    assert (Hr : exists ro re : bool,
               ready = (if ro then [fo] else []) ++ (if re then [fe] else [])
               /\ ro || re = true
               /\ (ro = true -> bo = true) /\ (re = true -> be = true)).
    { subst ready. rewrite inv_fds0.
      destruct bo, be; try discriminate Hopen; cbn [app filter];
        destruct (mem fo r); destruct (mem fe r);
        first [ exists true, true; repeat split; auto; fail
              | exists true, false; repeat split; auto; fail
              | exists false, true; repeat split; auto; fail ]. }
    destruct Hr as (ro & re & Er & Hro & Hbo & Hbe).
    exists ro, re. eexists. rewrite <- Er. split; [reflexivity|].
    split; [exact Hro|].
    split; [auto|]. split; [auto|]. split; [|reflexivity].
    constructor; state_simpl; auto.
    exists (evs ++ [EvSelect (fds st) (Done ready)]).
    rewrite Et, app_assoc. split; [reflexivity|].
    rewrite forallb_app, Hd.
    repeat split; intros; apply in_or_app; left; auto.
  - discriminate inv_quiet_sel0.
Qed.

Lemma drain_step_quiet (bo be : bool) (st : State) :
  inv bo be st ->
  bo || be = true ->
  exists (bo' be' : bool) (st' : State),
    drain_step (make_fds_map fo fe) log_output_live st = (Val tt, st')
    /\ inv bo' be' st'
    /\ (drain_fuel st' < drain_fuel st)%nat.
Proof.
  intros I Hopen. unfold drain_step. rewrite bind_gets.
  destruct (select_quiet I Hopen)
    as (ro & re & st1 & Esel & Hr & Hbo & Hbe & I1 & F1).
  rewrite (bind_val _ Esel). rewrite <- F1. clear Esel F1 I.
  destruct ro, re; try discriminate Hr; cbn [app for_each].
  - rewrite (Hbo eq_refl), (Hbe eq_refl) in I1.
    destruct (drain_fd_stdout I1) as (bo' & st2 & E2 & I2 & F2).
    destruct (drain_fd_stderr I2) as (be' & st3 & E3 & I3 & F3).
    exists bo', be', st3.
    rewrite (bind_val _ E2), (bind_val _ E3).
    split; [reflexivity|]. split; [exact I3 | lia].
  - rewrite (Hbo eq_refl) in I1.
    destruct (drain_fd_stdout I1) as (bo' & st2 & E2 & I2 & F2).
    exists bo', be, st2. rewrite (bind_val _ E2).
    split; [reflexivity|]. split; [exact I2 | lia].
  - rewrite (Hbe eq_refl) in I1.
    destruct (drain_fd_stderr I1) as (be' & st2 & E2 & I2 & F2).
    exists bo, be', st2. rewrite (bind_val _ E2).
    split; [reflexivity|]. split; [exact I2 | lia].
Qed.

Lemma while_fds_quiet (fuel : nat) :
  forall (bo be : bool) (st : State),
    inv bo be st ->
    (drain_fuel st <= fuel)%nat ->
    exists st' : State,
      while fuel (fun st => truthy (fds st))
            (drain_step (make_fds_map fo fe) log_output_live) st
      = (Val tt, st')
      /\ inv false false st'.
Proof.
  induction fuel as [|fuel IH]; intros bo be st I Hfuel.
  - destruct bo, be;
      try (exfalso; unfold drain_fuel in Hfuel; rewrite (inv_fds I) in Hfuel;
           cbn [app length] in Hfuel; lia).
    exists st. cbn [while]. rewrite (inv_fds I). split; [reflexivity | exact I].
  - destruct (bo || be) eqn:Hopen.
    + destruct (drain_step_quiet I Hopen) as (bo' & be' & st1 & E1 & I1 & F1).
      destruct (IH bo' be' st1 I1) as (st' & E' & I'); [lia|].
      exists st'. cbn [while]. rewrite (inv_fds I).
      replace (truthy ((if bo then [fo] else []) ++ (if be then [fe] else [])))
        with true by (destruct bo, be; try discriminate Hopen; reflexivity).
      rewrite (bind_val _ E1). split; [exact E' | exact I'].
    + apply orb_false_iff in Hopen as [-> ->].
      exists st. cbn [while]. rewrite (inv_fds I). split; [reflexivity | exact I].
Qed.
End QuietDrain.

Lemma quiet_parts (w : World) :
  quiet w = true ->
  (stdout_fileno w =? stderr_fileno w) = false
  /\ quiet_pipe (stdout_pipe w) = true
  /\ quiet_pipe (stderr_pipe w) = true
  /\ quiet_select (select_oracle w) = true.
Proof.
  unfold quiet, distinct_fds. intros H.
  apply andb_true_iff in H as [H H4]. apply andb_true_iff in H as [H H3].
  apply andb_true_iff in H as [H1 H2]. apply negb_true_iff in H1. auto.
Qed.

(** Draining in a quiet world ends normally with [fds] empty; each capture
    list has grown by all the bytes of its stream; the calls made are
    [select], successful reads and calls of the logger, among them the two
    reads that report the end of a stream. *)
Lemma drain_quiet (log_output_live : bool) (st : State) :
  quiet (world st) = true ->
  exists (st' : State) (evs : list event),
    drain log_output_live st = (Val tt, st')
    /\ bytes_join (stdout_list st')
       = bytes_join (stdout_list st) ++ stream_bytes (stdout_pipe (world st))
    /\ bytes_join (stderr_list st')
       = bytes_join (stderr_list st) ++ stream_bytes (stderr_pipe (world st))
    /\ answers (world st') = answers (world st)
    /\ returncode st' = returncode st
    /\ trace st' = trace st ++ evs
    /\ forallb is_drain_event evs = true
    /\ In (eof (stdout_fileno (world st))) evs
    /\ In (eof (stderr_fileno (world st))) evs
    /\ stdout_pipe (world st') = [] /\ stderr_pipe (world st') = [].
Proof.
  intros Hq. destruct (quiet_parts _ Hq) as (Hne & Hqo & Hqe & Hqs).
  unfold drain, LineLogger_init. mstep. state_simpl.
  rewrite (@make_fds_map_distinct _ _ Hne). cbn [dict_keys map fst].
  match goal with
  | |- context [while ?n _ _ ?s] =>
      destruct (@while_fds_quiet
                  (stdout_fileno (world st)) (stderr_fileno (world st))
                  log_output_live
                  (bytes_join (stdout_list st)
                     ++ stream_bytes (stdout_pipe (world st)))
                  (bytes_join (stderr_list st)
                     ++ stream_bytes (stderr_pipe (world st)))
                  (answers (world st)) (returncode st) (trace st)
                  Hne n true true s) as (st' & Erun & I)
  end.
  - constructor; state_simpl; auto; try discriminate.
    exists []. rewrite app_nil_r. repeat split; discriminate.
  - apply Nat.le_refl.
  - destruct I. destruct inv_trace0 as (evs & Et & Hd & Ho & He).
    exists st', evs. rewrite (@make_fds_map_distinct _ _ Hne) in Erun.
    pose proof (inv_closed_out0 eq_refl) as Hco.
    pose proof (inv_closed_err0 eq_refl) as Hce.
    rewrite Hco, Hce in *.
    unfold stream_bytes in inv_out0, inv_err0. cbn [map concat] in *.
    rewrite app_nil_r in *.
    repeat split; auto.
Qed.

(** ** The [try] block and the handler *)


Lemma cleanup_run (st : State) : cleanup st = cleanup_spec st.
Proof.
  unfold cleanup, cleanup_spec, process_terminate, process_wait, process_kill,
    try_except, bind, reply, ret, raise.
  destruct (terminate_answer (world st)) as [[]|f]; [|reflexivity].
  state_simpl.
  destruct (timed_wait_answer (world st)) as [rc| |[n|]]; try reflexivity.
  cbn [is_TimeoutExpired]. state_simpl.
  destruct (kill_answer (world st)) as [[]|f]; reflexivity.
Qed.

(** [run] when the [try] block ends normally. *)
Lemma run_try_val (w : World) (args : list string)
      (log_output_live pipe_output : bool)
      (out : option bytes * option bytes) (st1 : State) :
  try_block log_output_live pipe_output (initial_state w) = (Val out, st1) ->
  run w args log_output_live pipe_output
  = (if negb (opt_Z_eqb (returncode st1) (Some 0))
     then Exc (CalledProcessError (returncode st1) args (fst out) (snd out))
     else Val {| cp_args := args; cp_returncode := returncode st1;
                 cp_stdout := fst out; cp_stderr := snd out |},
     emit EvPopenExit st1).
Proof.
  intros E. unfold run, run_subprocess, with_Popen, with_body.
  unfold bind at 1. unfold bind at 1. unfold try_except. rewrite E.
  unfold bind, gets, ret, raise. state_simpl.
  destruct (negb (opt_Z_eqb (returncode st1) (Some 0))); reflexivity.
Qed.

(** [run] when the [try] block raises. *)
Lemma run_try_exc (w : World) (args : list string)
      (log_output_live pipe_output : bool) (e : exn) (st1 : State) :
  try_block log_output_live pipe_output (initial_state w) = (Exc e, st1) ->
  run w args log_output_live pipe_output
  = if is_Exception e then
      match cleanup_spec st1 with
      | (Val _, st2) => (Exc e, emit EvPopenExit st2)
      | (Exc e', st2) => (Exc e', emit EvPopenExit st2)
      | (OutOfFuel, st2) => (OutOfFuel, emit EvPopenExit st2)
      end
    else (Exc e, emit EvPopenExit st1).
Proof.
  intros E. unfold run, run_subprocess, with_Popen, with_body.
  unfold bind at 1. unfold bind at 1. unfold try_except. rewrite E.
  destruct (is_Exception e); [|reflexivity].
  unfold bind at 1. rewrite cleanup_run.
  destruct (cleanup_spec st1) as [[[]|e'|] st2]; reflexivity.
Qed.

(** ** Capture does not depend on chunking *)

Lemma quiet_pipe_deliver (chunks : list bytes) :
  quiet_pipe (map Deliver chunks) = forallb truthy chunks.
Proof.
  induction chunks as [|c t IH]; [reflexivity|].
  cbn [map quiet_pipe forallb]. f_equal. exact IH.
Qed.

Lemma stream_bytes_deliver (chunks : list bytes) :
  stream_bytes (map Deliver chunks) = concat chunks.
Proof.
  unfold stream_bytes. rewrite map_map, map_id. reflexivity.
Qed.

(** C2.  Whatever bytes a stream delivers and however they are cut into
    (non-empty) chunks, and in whatever order [select] serves the two
    streams, the drain loop ends and joining the chunks appended to the
    capture list of the stream gives back exactly the bytes delivered, in
    order. *)
Theorem capture_independent_of_chunking :
  forall (w : World) (log_output_live : bool)
         (out_chunks err_chunks : list bytes) (out err : bytes),
    distinct_fds w = true ->
    quiet_select (select_oracle w) = true ->
    stdout_pipe w = map Deliver out_chunks ->
    stderr_pipe w = map Deliver err_chunks ->
    forallb truthy out_chunks = true ->
    forallb truthy err_chunks = true ->
    concat out_chunks = out ->
    concat err_chunks = err ->
    let r := drain log_output_live (initial_state w) in
    fst r = Val tt
    /\ bytes_join (stdout_list (snd r)) = out
    /\ bytes_join (stderr_list (snd r)) = err.
Proof.
  intros w live oc ec out err Hd Hs Ho He Hoc Hec Eo Ee r.
  assert (Hq : quiet (world (initial_state w)) = true).
  { unfold quiet. cbn [world initial_state].
    rewrite Hd, Hs, Ho, He, !quiet_pipe_deliver, Hoc, Hec. reflexivity. }
  destruct (@drain_quiet live (initial_state w) Hq)
    as (st' & evs & Er & Hout & Herr & _).
  subst r. rewrite Er. cbn [fst snd].
  rewrite Hout, Herr. cbn [world initial_state stdout_list stderr_list].
  rewrite Ho, He, !stream_bytes_deliver, Eo, Ee. repeat split.
Qed.

Lemma capture_independent_of_chunking_witness :
  bytes_join (stdout_list (snd (drain true (initial_state (hello_world 0)))))
  = hello
  /\ bytes_join (stderr_list (snd (drain true (initial_state (hello_world 0)))))
     = [].
Proof.
  exact (proj2 (@capture_independent_of_chunking (hello_world 0) true
                  [[x68; x65]; [x6c; x6c; x6f; x0a]] [] hello []
                  eq_refl eq_refl eq_refl eq_refl eq_refl eq_refl
                  eq_refl eq_refl)).
Defined.

(** ** Capture disabled *)

Lemma try_block_no_capture (log_output_live : bool) (st : State) :
  try_block log_output_live false st
  = match wait_answer (world st) with
    | Done rc =>
        (Val (None, None),
         with_returncode (Some rc)
           (emit (EvWait None (Exited rc)) (reset_lists st)))
    | Faulted f =>
        (Exc (exn_of_fault f),
         emit (EvWait None (WaitFault f)) (reset_lists st))
    end.
Proof.
  unfold try_block. cbv iota. mstep. unfold bind, process_wait. state_simpl.
  destruct (wait_answer (world st)); reflexivity.
Qed.

(** C10.  With [pipe_output=False], whatever [log_output_live] is: no
    [select], no read and no call of the logger happens; when [wait] gives
    the exit code [rc], a zero [rc] returns a [CompletedProcess] whose
    [stdout] and [stderr] are [None], and a non-zero [rc] raises
    [CalledProcessError] with [None] for both buffers. *)
Theorem no_capture_no_streams :
  forall (w : World) (args : list string) (log_output_live : bool),
    let r := run w args log_output_live false in
    forallb (fun ev => negb (is_stream_event ev)) (trace (snd r)) = true
    /\ (forall rc : Z,
           wait_answer w = Done rc ->
           fst r = (if rc =? 0
                    then Val {| cp_args := args; cp_returncode := Some 0;
                                cp_stdout := None; cp_stderr := None |}
                    else Exc (CalledProcessError (Some rc) args None None))
           /\ trace (snd r) = [EvWait None (Exited rc); EvPopenExit]).
Proof.
  intros w args live r. subst r.
  pose proof (try_block_no_capture live (initial_state w)) as E.
  cbn [world initial_state] in E.
  destruct (wait_answer w) as [rc|f] eqn:Ew.
  - rewrite (run_try_val _ _ _ _ E). cbn [fst snd]. state_simpl.
    cbn [opt_Z_eqb]. split; [reflexivity|].
    intros rc' Hrc. injection Hrc as <-.
    destruct (rc =? 0) eqn:E0; cbn [negb]; [|split; reflexivity].
    apply Z.eqb_eq in E0. subst rc. split; reflexivity.
  - rewrite (run_try_exc _ _ _ _ E). split; [|discriminate].
    unfold cleanup_spec, reset_lists. state_simpl. cbn [initial_state world].
    destruct f; cbn [exn_of_fault is_Exception];
      try (destruct (terminate_answer w) as [[]|?];
           [destruct (timed_wait_answer w);
            [| destruct (kill_answer w) as [[]|?] |] |]);
      reflexivity.
Qed.

Lemma no_capture_no_streams_witness :
  fst (run (silent_world 2) ["false"%string] true false)
  = Exc (CalledProcessError (Some 2) ["false"%string] None None)
  /\ trace (snd (run (silent_world 2) ["false"%string] true false))
     = [EvWait None (Exited 2); EvPopenExit].
Proof.
  exact (proj2 (no_capture_no_streams (silent_world 2) ["false"%string] true)
               2 eq_refl).
Defined.

(** ** Cleanup after an exception *)

(** C4, as stated, fails: a [KeyboardInterrupt] raised by a read is not an
    [Exception]; the handler is skipped, no termination is requested and
    the interrupt goes to the caller. *)
Lemma interrupt_skips_cleanup :
  let r := run (failing_world FaultInterrupt (Done tt) Expired (Done tt))
               ["cat"%string] true true in
  fst r = Exc KeyboardInterrupt
  /\ existsb is_terminate (trace (snd r)) = false
  /\ trace (snd r)
     = [EvSelect [3; 5] (Done [3]);
        EvRead 3 read_size (Faulted FaultInterrupt);
        EvPopenExit].
Proof. vm_compute. repeat split. Qed.

(** C4, amended.  When the [try] block raises an exception [e] that is an
    [Exception], the next call is [process.terminate()].  When moreover no
    cleanup call raises anything but the timeout of the wait, the calls
    that follow are [process.wait(1)] and, only if that wait timed out,
    [process.kill()]; then the block is left and [e] itself is raised to
    the caller. *)
Theorem cleanup_escalation :
  forall (w : World) (args : list string) (log_output_live pipe_output : bool)
         (e : exn) (st1 : State),
    try_block log_output_live pipe_output (initial_state w) = (Exc e, st1) ->
    is_Exception e = true ->
    let r := run w args log_output_live pipe_output in
    (exists evs,
        trace (snd r)
        = trace st1 ++ EvTerminate (terminate_answer (world st1)) :: evs)
    /\ (cleanup_nominal (world st1) = true ->
        fst r = Exc e
        /\ trace (snd r)
           = trace st1
               ++ [EvTerminate (Done tt);
                   EvWait (Some 1) (timed_wait_answer (world st1))]
               ++ match timed_wait_answer (world st1) with
                  | Expired => [EvKill (Done tt)]
                  | _ => []
                  end
               ++ [EvPopenExit]).
Proof.
  intros w args live pipe e st1 Et He r. subst r.
  rewrite (run_try_exc _ _ _ _ Et), He.
  unfold cleanup_spec, cleanup_nominal.
  destruct (terminate_answer (world st1)) as [[]|f].
  - destruct (timed_wait_answer (world st1)) as [rc| |f].
    + state_simpl. cbn [fst snd]. state_simpl.
      split; [eexists; rewrite <- !app_assoc; reflexivity|].
      intros _. rewrite <- !app_assoc. split; reflexivity.
    + destruct (kill_answer (world st1)) as [[]|f];
        cbn [fst snd]; state_simpl;
        (split; [eexists; rewrite <- !app_assoc; reflexivity|]).
      * intros _. rewrite <- !app_assoc. split; reflexivity.
      * discriminate.
    + cbn [fst snd]. state_simpl.
      split; [eexists; rewrite <- !app_assoc; reflexivity | discriminate].
  - cbn [fst snd]. state_simpl.
    split; [eexists; rewrite <- !app_assoc; reflexivity | discriminate].
Qed.

Lemma cleanup_escalation_witness :
  let w := failing_world (FaultOSError EIO) (Done tt) Expired (Done tt) in
  fst (run w ["cat"%string] true true) = Exc (OSError EIO)
  /\ trace (snd (run w ["cat"%string] true true))
     = [EvSelect [3; 5] (Done [3]);
        EvRead 3 read_size (Faulted (FaultOSError EIO));
        EvTerminate (Done tt);
        EvWait (Some 1) Expired;
        EvKill (Done tt);
        EvPopenExit].
Proof.
  exact (proj2 (@cleanup_escalation
                  (failing_world (FaultOSError EIO) (Done tt) Expired (Done tt))
                  ["cat"%string] true true (OSError EIO)
                  (snd (try_block true true
                          (initial_state
                             (failing_world (FaultOSError EIO) (Done tt)
                                            Expired (Done tt)))))
                  eq_refl eq_refl)
               eq_refl).
Defined.

(** C5, as stated, fails: the read fails with [EIO], the child ignores the
    termination request and [kill] fails with [EPERM]; the caller gets the
    [EPERM] error of the cleanup, not the [EIO] error that started it, and
    nothing is sent to the logger. *)
Lemma cleanup_error_replaces_fault :
  let w := failing_world (FaultOSError EIO) (Done tt) Expired
                         (Faulted (FaultOSError EPERM)) in
  fst (try_block true true (initial_state w)) = Exc (OSError EIO)
  /\ fst (run w ["cat"%string] true true) = Exc (OSError EPERM)
  /\ existsb is_log (trace (snd (run w ["cat"%string] true true))) = false.
Proof. vm_compute. repeat split. Qed.

(** C5, amended.  The handler neither catches nor logs an exception of a
    cleanup call, the timeout of [process.wait(1)] apart: the first of
    [terminate], [wait(1)] (unless it times out) and [kill] to raise ends
    the handler and its exception is the one the caller gets; when none
    raises, the caller gets the exception [e] that started the cleanup.
    No call of the logger is made by the handler. *)
Theorem cleanup_error_propagates :
  forall (w : World) (args : list string) (log_output_live pipe_output : bool)
         (e : exn) (st1 : State),
    try_block log_output_live pipe_output (initial_state w) = (Exc e, st1) ->
    is_Exception e = true ->
    let r := run w args log_output_live pipe_output in
    fst r = Exc (match cleanup_fault (world st1) with
                 | Some f => exn_of_fault f
                 | None => e
                 end)
    /\ exists evs,
        trace (snd r) = trace st1 ++ evs
        /\ existsb is_log evs = false.
Proof.
  intros w args live pipe e st1 Et He r. subst r.
  rewrite (run_try_exc _ _ _ _ Et), He.
  unfold cleanup_spec, cleanup_fault.
  destruct (terminate_answer (world st1)) as [[]|f];
    [destruct (timed_wait_answer (world st1)) as [rc| |f];
     [| destruct (kill_answer (world st1)) as [[]|f] |] |];
    cbn [fst snd]; state_simpl;
    (split; [reflexivity|]);
    eexists; rewrite <- !app_assoc; (split; [reflexivity|]); reflexivity.
Qed.

Lemma cleanup_error_propagates_witness :
  let w := failing_world (FaultOSError EIO) (Done tt)
                         (WaitFault FaultInterrupt) (Done tt) in
  fst (run w ["cat"%string] false true) = Exc KeyboardInterrupt.
Proof.
  exact (proj1 (@cleanup_error_propagates
                  (failing_world (FaultOSError EIO) (Done tt)
                                 (WaitFault FaultInterrupt) (Done tt))
                  ["cat"%string] false true (OSError EIO)
                  (snd (try_block false true
                          (initial_state
                             (failing_world (FaultOSError EIO) (Done tt)
                                            (WaitFault FaultInterrupt)
                                            (Done tt)))))
                  eq_refl eq_refl)).
Defined.

(** ** Malformed output *)

(** C6.  [_safe_decode] gives a text for every byte string and raises for
    none: the strict UTF-8 decoding when there is one, otherwise the ASCII
    decoding in which every byte that is not ASCII is written as a [\xNN]
    escape, so that the fallback text is pure ASCII.  The line [b"\xff"]
    becomes the four characters [\xff]; a run with live logging whose
    standard output is [b"\xff\n"] sends them to [LOGGER.debug], raises
    nothing and returns the raw bytes [b"\xff\n"] as captured output. *)
Theorem safe_decode_never_raises :
  (forall b : bytes,
      _safe_decode b
      = Val (match Codec.utf8_strict (map byte_val b) with
             | Some s => s
             | None => Codec.ascii_backslashreplace (map byte_val b)
             end)
      /\ forallb is_ascii (Codec.ascii_backslashreplace (map byte_val b))
         = true)
  /\ _safe_decode [xff] = Val (str_of_string "\xff")
  /\ (let r := run malformed_world ["printf"%string] true true in
      fst r = Val {| cp_args := ["printf"%string]; cp_returncode := Some 0;
                     cp_stdout := Some [xff; x0a]; cp_stderr := Some [] |}
      /\ trace (snd r)
         = [EvSelect [3; 5] (Done [3; 5]);
            EvRead 3 read_size (Done [xff; x0a]);
            EvLog LOGGER_debug (str_of_string "\xff");
            EvRead 5 read_size (Done []);
            EvSelect [3] (Done [3]);
            EvRead 3 read_size (Done []);
            EvWait None (Exited 0);
            EvPopenExit]).
Proof.
  split; [|split].
  - intros b. split.
    + apply safe_decode_val.
    + apply ascii_backslashreplace_ascii.
  - reflexivity.
  - vm_compute. split; reflexivity.
Qed.

(** ** The place of [wait] *)





(** ** Live logging does not interfere with capture *)

Lemma sim_parts (s1 s2 : State) :
  sim s1 s2 ->
  world s1 = world s2 /\ stdout_list s1 = stdout_list s2
  /\ stderr_list s1 = stderr_list s2 /\ fds s1 = fds s2
  /\ returncode s1 = returncode s2
  /\ filter not_log (trace s1) = filter not_log (trace s2).
Proof. unfold sim, observable. intros H. injection H. auto 10. Qed.

Lemma sim_intro (s1 s2 : State) :
  world s1 = world s2 -> stdout_list s1 = stdout_list s2 ->
  stderr_list s1 = stderr_list s2 -> fds s1 = fds s2 ->
  returncode s1 = returncode s2 ->
  filter not_log (trace s1) = filter not_log (trace s2) ->
  sim s1 s2.
Proof. unfold sim, observable. congruence. Qed.

Lemma sim_trans (s1 s2 s3 : State) : sim s1 s2 -> sim s2 s3 -> sim s1 s3.
Proof. unfold sim. congruence. Qed.

Lemma sim_sym (s1 s2 : State) : sim s1 s2 -> sim s2 s1.
Proof. unfold sim. congruence. Qed.

Lemma filter_not_log_logs (logs : list event) :
  forallb is_log logs = true -> filter not_log logs = [].
Proof.
  induction logs as [|ev t IH]; [reflexivity|]. cbn [forallb filter].
  intros H. apply andb_true_iff in H as [H1 H2].
  unfold not_log at 1. rewrite H1. exact (IH H2).
Qed.

Lemma log_ext_sim (st st' : State) : log_ext st st' -> sim st st'.
Proof.
  intros [Hw Hso Hse Hf Hrc (logs & Ht & Hl)].
  apply sim_intro; try congruence.
  rewrite Ht, filter_app, (filter_not_log_logs _ Hl), app_nil_r. reflexivity.
Qed.

Lemma msim_ret {A} (a : A) : msim (ret a) (ret a).
Proof. intros s1 s2 H. split; [reflexivity | exact H]. Qed.

Lemma msim_raise {A} (e : exn) : msim (@raise A e) (raise e).
Proof. intros s1 s2 H. split; [reflexivity | exact H]. Qed.

Lemma msim_bind {A B} (m1 m2 : M A) (k1 k2 : A -> M B) :
  msim m1 m2 -> (forall a, msim (k1 a) (k2 a)) ->
  msim (bind m1 k1) (bind m2 k2).
Proof.
  intros Hm Hk s1 s2 H. unfold bind.
  destruct (Hm s1 s2 H) as [Hr Hs].
  destruct (m1 s1) as [r1 s1'], (m2 s2) as [r2 s2']. cbn [fst snd] in *.
  subst r2. destruct r1 as [a|e|]; [apply Hk; exact Hs | split; auto ..].
Qed.

Lemma msim_try_except {A} (m1 m2 : M A) (h1 h2 : exn -> option (M A)) :
  msim m1 m2 ->
  (forall e, match h1 e, h2 e with
             | Some c1, Some c2 => msim c1 c2
             | None, None => True
             | _, _ => False
             end) ->
  msim (try_except m1 h1) (try_except m2 h2).
Proof.
  intros Hm Hh s1 s2 H. unfold try_except.
  destruct (Hm s1 s2 H) as [Hr Hs].
  destruct (m1 s1) as [r1 s1'], (m2 s2) as [r2 s2']. cbn [fst snd] in *.
  subst r2. destruct r1 as [a|e|]; [split; auto | | split; auto].
  specialize (Hh e). destruct (h1 e), (h2 e); try contradiction.
  - apply Hh. exact Hs.
  - split; auto.
Qed.

Lemma msim_for_each {A} (l : list A) (b1 b2 : A -> M unit) :
  (forall x, msim (b1 x) (b2 x)) -> msim (for_each l b1) (for_each l b2).
Proof.
  intros Hb. induction l as [|x t IH]; cbn [for_each].
  - apply msim_ret.
  - apply msim_bind; [apply Hb | intros _; exact IH].
Qed.

Lemma msim_while (fuel : nat) (cond : State -> bool) (b1 b2 : M unit) :
  (forall s1 s2, sim s1 s2 -> cond s1 = cond s2) ->
  msim b1 b2 -> msim (while fuel cond b1) (while fuel cond b2).
Proof.
  intros Hc Hb. induction fuel as [|fuel IH]; intros s1 s2 H; cbn [while];
    rewrite <- (Hc s1 s2 H); destruct (cond s1); try (split; auto; fail).
  apply msim_bind; [exact Hb | intros _; exact IH | exact H].
Qed.

Lemma msim_gets {A} (f : State -> A) :
  (forall s1 s2, sim s1 s2 -> f s1 = f s2) -> msim (gets f) (gets f).
Proof. intros Hf s1 s2 H. split; [cbn; f_equal; auto | exact H]. Qed.

Lemma msim_modify (f g : State -> State) :
  (forall s1 s2, sim s1 s2 -> sim (f s1) (g s2)) ->
  msim (modify f) (modify g).
Proof. intros Hf s1 s2 H. split; [reflexivity | apply Hf; exact H]. Qed.

Lemma sim_emit (ev : event) (s1 s2 : State) :
  sim s1 s2 -> sim (emit ev s1) (emit ev s2).
Proof.
  intros H. destruct (sim_parts H) as (Hw & Hso & Hse & Hf & Hrc & Ht).
  apply sim_intro; state_simpl; auto.
  rewrite !filter_app, Ht. reflexivity.
Qed.

Lemma sim_with_world (w : World) (s1 s2 : State) :
  sim s1 s2 -> sim (with_world w s1) (with_world w s2).
Proof.
  intros H. destruct (sim_parts H) as (Hw & Hso & Hse & Hf & Hrc & Ht).
  apply sim_intro; state_simpl; auto.
Qed.

Lemma sim_with_returncode (rc : option Z) (s1 s2 : State) :
  sim s1 s2 -> sim (with_returncode rc s1) (with_returncode rc s2).
Proof.
  intros H. destruct (sim_parts H) as (Hw & Hso & Hse & Hf & Hrc & Ht).
  apply sim_intro; state_simpl; auto.
Qed.

Lemma sim_with_fds (l : list Z) (s1 s2 : State) :
  sim s1 s2 -> sim (with_fds l s1) (with_fds l s2).
Proof.
  intros H. destruct (sim_parts H) as (Hw & Hso & Hse & Hf & Hrc & Ht).
  apply sim_intro; state_simpl; auto.
Qed.

Lemma sim_with_list (r : list_ref) (l : list bytes) (s1 s2 : State) :
  sim s1 s2 -> sim (with_list r l s1) (with_list r l s2).
Proof.
  intros H. destruct (sim_parts H) as (Hw & Hso & Hse & Hf & Hrc & Ht).
  apply sim_intro; state_simpl; auto; destruct r; auto.
Qed.

Lemma sim_with_logger (r : logger_ref) (l1 l2 : LineLogger) (s1 s2 : State) :
  sim s1 s2 -> sim (with_logger r l1 s1) (with_logger r l2 s2).
Proof.
  intros H. destruct (sim_parts H) as (Hw & Hso & Hse & Hf & Hrc & Ht).
  apply sim_intro; state_simpl; auto.
Qed.

Ltac sim_solve H :=
  split; [reflexivity|];
  repeat first [ apply sim_emit | apply sim_with_world
               | apply sim_with_returncode | apply sim_with_fds ];
  exact H.

Lemma msim_os_read (fd n : Z) : msim (os_read fd n) (os_read fd n).
Proof.
  intros s1 s2 H. destruct (sim_parts H) as (Hw & _).
  unfold os_read. rewrite Hw.
  destruct (fd =? stdout_fileno (world s2));
    [|destruct (fd =? stderr_fileno (world s2))];
    try destruct (pipe_read n _) as [[d|f] p];
    cbn [reply ret raise]; unfold ret, raise; sim_solve H.
Qed.

Lemma msim_select_select (rlist : list Z) :
  msim (select_select rlist) (select_select rlist).
Proof.
  intros s1 s2 H. destruct (sim_parts H) as (Hw & _).
  unfold select_select. rewrite Hw.
  destruct (select_oracle (world s2)) as [|[r|f] o]; sim_solve H.
Qed.

Lemma msim_process_wait (timeout : option Z) :
  msim (process_wait timeout) (process_wait timeout).
Proof.
  intros s1 s2 H. destruct (sim_parts H) as (Hw & _).
  unfold process_wait. rewrite Hw.
  match goal with |- context [EvWait timeout ?r] => destruct r end;
    sim_solve H.
Qed.

Lemma msim_process_terminate : msim process_terminate process_terminate.
Proof.
  intros s1 s2 H. destruct (sim_parts H) as (Hw & _).
  unfold process_terminate. rewrite Hw.
  destruct (terminate_answer (world s2)); unfold reply, ret, raise; sim_solve H.
Qed.

Lemma msim_process_kill : msim process_kill process_kill.
Proof.
  intros s1 s2 H. destruct (sim_parts H) as (Hw & _).
  unfold process_kill. rewrite Hw.
  destruct (kill_answer (world s2)); unfold reply, ret, raise; sim_solve H.
Qed.

Lemma msim_LineLogger_init (self : logger_ref) (lg : log_method) :
  msim (LineLogger_init self lg) (LineLogger_init self lg).
Proof. apply msim_modify. intros s1 s2 H. apply sim_with_logger, H. Qed.

Lemma msim_LineLogger_flush (self : logger_ref) :
  msim (LineLogger_flush self) (LineLogger_flush self).
Proof.
  intros s1 s2 H.
  destruct (LineLogger_flush_frame self s1) as (s1' & E1 & X1).
  destruct (LineLogger_flush_frame self s2) as (s2' & E2 & X2).
  rewrite E1, E2. split; [reflexivity|]. cbn [snd].
  eapply sim_trans; [apply sim_sym, log_ext_sim; exact X1|].
  eapply sim_trans; [exact H | apply log_ext_sim; exact X2].
Qed.

(** Logging a chunk is invisible in the observable part of the state. *)
Lemma msim_LineLogger_log (self : logger_ref) (data : bytes) :
  msim (LineLogger_log self data) (ret tt).
Proof.
  intros s1 s2 H.
  destruct (LineLogger_log_frame self data s1) as (s1' & E1 & X1).
  rewrite E1. split; [reflexivity|]. cbn [snd ret].
  eapply sim_trans; [apply sim_sym, log_ext_sim; exact X1 | exact H].
Qed.

Lemma msim_drain_fd (fds_map : dict (logger_ref * list_ref)) (fd : Z) :
  msim (drain_fd fds_map true fd) (drain_fd fds_map false fd).
Proof.
  unfold drain_fd. apply msim_bind.
  - destruct (dict_get fds_map fd); [apply msim_ret | apply msim_raise].
  - intros [logger lines]. apply msim_bind; [apply msim_os_read|].
    intros buff. destruct (truthy buff).
    + apply msim_bind; [|intros ?; apply msim_LineLogger_log].
      apply msim_modify. intros s1 s2 H.
      destruct (sim_parts H) as (_ & Hso & Hse & _).
      replace (get_list lines s1) with (get_list lines s2)
        by (destruct lines; cbn; congruence).
      apply sim_with_list, H.
    + apply msim_bind;
        [apply msim_gets; intros s1 s2 H; apply (sim_parts H)|]. intros l.
      apply msim_bind; [|intros ?; apply msim_LineLogger_flush].
      destruct (list_remove l fd); [|apply msim_raise].
      apply msim_modify. intros; now apply sim_with_fds.
Qed.

Lemma msim_drain_step (fds_map : dict (logger_ref * list_ref)) :
  msim (drain_step fds_map true) (drain_step fds_map false).
Proof.
  unfold drain_step. intros s1 s2 H.
  destruct (sim_parts H) as (_ & _ & _ & Hf & _).
  rewrite !bind_gets, Hf.
  apply msim_bind; [apply msim_select_select | | exact H].
  intros ready. apply msim_for_each. intros fd. apply msim_drain_fd.
Qed.

Lemma sim_world (s1 s2 : State) : sim s1 s2 -> world s1 = world s2.
Proof. intros H. apply (sim_parts H). Qed.

Lemma sim_fds (s1 s2 : State) : sim s1 s2 -> fds s1 = fds s2.
Proof. intros H. apply (sim_parts H). Qed.

Lemma msim_drain : msim (drain true) (drain false).
Proof.
  unfold drain.
  apply msim_bind;
    [apply msim_gets; intros s1 s2 H; now rewrite (sim_world H)|]. intros fo.
  apply msim_bind; [apply msim_LineLogger_init|]. intros ?.
  apply msim_bind;
    [apply msim_gets; intros s1 s2 H; now rewrite (sim_world H)|]. intros fe.
  apply msim_bind; [apply msim_LineLogger_init|]. intros ?.
  apply msim_bind;
    [apply msim_modify; intros s1 s2 H; now apply sim_with_fds|]. intros ?.
  apply msim_bind.
  - apply msim_gets. intros s1 s2 H. unfold drain_fuel.
    now rewrite (sim_world H), (sim_fds H).
  - intros fuel. apply msim_while.
    + intros s1 s2 H. now rewrite (sim_fds H).
    + apply msim_drain_step.
Qed.

Lemma msim_try_block (pipe_output : bool) :
  msim (try_block true pipe_output) (try_block false pipe_output).
Proof.
  unfold try_block.
  apply msim_bind;
    [apply msim_modify; intros s1 s2 H; now apply sim_with_list|]. intros ?.
  apply msim_bind;
    [apply msim_modify; intros s1 s2 H; now apply sim_with_list|]. intros ?.
  apply msim_bind.
  { destruct pipe_output; [apply msim_drain | apply msim_ret]. }
  intros ?. apply msim_bind; [apply msim_process_wait|]. intros ?.
  destruct pipe_output; [|apply msim_ret].
  apply msim_bind;
    [apply msim_gets; intros s1 s2 H; apply (sim_parts H)|]. intros out.
  apply msim_bind;
    [apply msim_gets; intros s1 s2 H; apply (sim_parts H)|]. intros err.
  apply msim_ret.
Qed.

Lemma msim_cleanup : msim cleanup cleanup.
Proof.
  unfold cleanup. apply msim_bind; [apply msim_process_terminate|]. intros ?.
  apply msim_try_except.
  - apply msim_bind; [apply msim_process_wait | intros ?; apply msim_ret].
  - intros e. destruct (is_TimeoutExpired e); [apply msim_process_kill | exact I].
Qed.

Lemma msim_run_subprocess (args : list string) (pipe_output : bool) :
  msim (run_subprocess args true pipe_output)
       (run_subprocess args false pipe_output).
Proof.
  unfold run_subprocess. apply msim_bind.
  - assert (Hb : msim (with_body args true pipe_output)
                      (with_body args false pipe_output)).
    { unfold with_body. apply msim_bind.
      - apply msim_try_except; [apply msim_try_block|].
        intros e. destruct (is_Exception e); [|exact I].
        apply msim_bind; [apply msim_cleanup | intros ?; apply msim_raise].
      - intros out. apply msim_bind;
          [apply msim_gets; intros s1 s2 H; apply (sim_parts H)|].
        intros rc. destruct (negb _); [apply msim_raise | apply msim_ret]. }
    intros s1 s2 H. unfold with_Popen.
    destruct (Hb s1 s2 H) as [Hr Hs].
    destruct (with_body args true pipe_output s1) as [r1 s1'].
    destruct (with_body args false pipe_output s2) as [r2 s2'].
    cbn [fst snd] in *. split; [exact Hr | apply sim_emit, Hs].
  - intros out. apply msim_bind;
      [apply msim_gets; intros s1 s2 H; apply (sim_parts H)|].
    intros rc. apply msim_ret.
Qed.

(** ** The drain loop always has enough fuel *)

Lemma total_ret {A} (a : A) : total (ret a).
Proof. intros st. reflexivity. Qed.

Lemma total_raise {A} (e : exn) : total (@raise A e).
Proof. intros st. reflexivity. Qed.

Lemma total_gets {A} (f : State -> A) : total (gets f).
Proof. intros st. reflexivity. Qed.

Lemma total_modify (f : State -> State) : total (modify f).
Proof. intros st. reflexivity. Qed.

Lemma total_bind {A B} (m : M A) (k : A -> M B) :
  total m -> (forall a, total (k a)) -> total (bind m k).
Proof.
  intros Hm Hk st. unfold bind. specialize (Hm st).
  destruct (m st) as [[a|e|] st']; [apply Hk | reflexivity | discriminate Hm].
Qed.

Lemma total_try_except {A} (m : M A) (h : exn -> option (M A)) :
  total m ->
  (forall e, match h e with Some c => total c | None => True end) ->
  total (try_except m h).
Proof.
  intros Hm Hh st. unfold try_except. specialize (Hm st).
  destruct (m st) as [[a|e|] st']; [reflexivity | | discriminate Hm].
  specialize (Hh e). destruct (h e); [apply Hh | reflexivity].
Qed.

Lemma total_reply {A} (r : answer A) : total (reply r).
Proof. destruct r; intros st; reflexivity. Qed.

Lemma total_process_wait (timeout : option Z) : total (process_wait timeout).
Proof.
  intros st. unfold process_wait.
  match goal with |- context [EvWait timeout ?r] => destruct r end; reflexivity.
Qed.

Lemma total_cleanup : total cleanup.
Proof.
  unfold cleanup. apply total_bind.
  - intros st. unfold process_terminate. apply total_reply.
  - intros _. apply total_try_except.
    + apply total_bind; [apply total_process_wait | intros; apply total_ret].
    + intros e. destruct (is_TimeoutExpired e); [|exact I].
      intros st. unfold process_kill. apply total_reply.
Qed.

Lemma pipe_read_weight (n : Z) (p : list pipe_event) :
  (0 < Z.to_nat n)%nat ->
  (pipe_weight (snd (pipe_read n p)) <= pipe_weight p)%nat
  /\ match fst (pipe_read n p) with
     | Done d => truthy d = true ->
                 (pipe_weight (snd (pipe_read n p)) < pipe_weight p)%nat
     | Faulted _ => True
     end.
Proof.
  intros Hn. destruct p as [|[d|f] rest]; cbn [pipe_read fst snd].
  - split; [apply Nat.le_refl | discriminate].
  - pose proof (length_skipn (Z.to_nat n) d) as Hs.
    destruct (skipn (Z.to_nat n) d) as [|c d'] eqn:Es;
      unfold pipe_weight; cbn [fold_right length] in *.
    + split; [lia | intros _; lia].
    + split; [lia | intros _; lia].
  - unfold pipe_weight. cbn [fold_right]. split; [lia | exact I].
Qed.

Lemma list_remove_length (l l' : list Z) (x : Z) :
  list_remove l x = Some l' -> length l = S (length l').
Proof.
  revert l'. induction l as [|y t IH]; intros l' H; [discriminate H|].
  cbn [list_remove] in H. destruct (y =? x).
  - injection H as <-. reflexivity.
  - destruct (list_remove t x) as [t'|]; [|discriminate H].
    injection H as <-. cbn [length]. rewrite (IH t' eq_refl). reflexivity.
Qed.

Lemma os_read_progress (fd : Z) (st : State) :
  match os_read fd read_size st with
  | (Val d, st1) =>
      fds st1 = fds st
      /\ (drain_fuel st1 <= drain_fuel st)%nat
      /\ (truthy d = true -> (drain_fuel st1 < drain_fuel st)%nat)
  | (Exc _, _) => True
  | (OutOfFuel, _) => False
  end.
Proof.
  unfold os_read.
  destruct (fd =? stdout_fileno (world st));
    [|destruct (fd =? stderr_fileno (world st)); [|exact I]].
  - pose proof (pipe_read_weight read_size (stdout_pipe (world st))
                                 read_size_pos) as [Hle Hlt].
    destruct (pipe_read read_size (stdout_pipe (world st))) as [[d|f] p'];
      cbn [fst snd reply ret raise] in *; unfold ret, raise; [|exact I].
    unfold drain_fuel. state_simpl.
    split; [reflexivity|]. split; [lia|]. intros Ht. specialize (Hlt Ht). lia.
  - pose proof (pipe_read_weight read_size (stderr_pipe (world st))
                                 read_size_pos) as [Hle Hlt].
    destruct (pipe_read read_size (stderr_pipe (world st))) as [[d|f] p'];
      cbn [fst snd reply ret raise] in *; unfold ret, raise; [|exact I].
    unfold drain_fuel. state_simpl.
    split; [reflexivity|]. split; [lia|]. intros Ht. specialize (Hlt Ht). lia.
Qed.

Lemma drain_fd_progress (fds_map : dict (logger_ref * list_ref))
      (log_output_live : bool) (fd : Z) (st : State) :
  progress (drain_fd fds_map log_output_live fd st) st 1.
Proof.
  unfold drain_fd.
  destruct (dict_get fds_map fd) as [[logger lines]|]; [|exact I].
  rewrite bind_ret. unfold bind at 1.
  pose proof (os_read_progress fd st) as Hr.
  destruct (os_read fd read_size st) as [[d|e|] st1];
    [|exact I|contradiction].
  destruct Hr as (Hf & Hle & Hlt).
  destruct (truthy d).
  - specialize (Hlt eq_refl). rewrite bind_modify.
    match goal with
    | |- progress ((if log_output_live then _ else _) ?s) _ _ =>
        assert (L : exists st',
                   (if log_output_live
                    then LineLogger_log logger d else ret tt) s
                   = (Val tt, st') /\ log_ext s st')
    end.
    { destruct log_output_live.
      - apply LineLogger_log_frame.
      - eexists. split; [reflexivity | apply log_ext_refl]. }
    destruct L as (st' & E & X). rewrite E. unfold progress.
    rewrite (log_ext_fuel X).
    replace (drain_fuel (with_list lines (get_list lines st1 ++ [d]) st1))
      with (drain_fuel st1) by reflexivity.
    lia.
  - rewrite bind_gets.
    destruct (list_remove (fds st1) fd) as [l'|] eqn:El; [|exact I].
    rewrite bind_modify.
    destruct (LineLogger_flush_frame logger (with_fds l' st1))
      as (st' & E & X).
    rewrite E. unfold progress. rewrite (log_ext_fuel X).
    apply list_remove_length in El.
    unfold drain_fuel in *. state_simpl. lia.
Qed.

Lemma for_each_progress (fds_map : dict (logger_ref * list_ref))
      (log_output_live : bool) (ready : list Z) :
  forall st : State,
    progress (for_each ready (drain_fd fds_map log_output_live) st) st
             (length ready).
Proof.
  induction ready as [|fd t IH]; intros st.
  - unfold progress. cbn. lia.
  - cbn [for_each]. unfold bind.
    pose proof (drain_fd_progress fds_map log_output_live fd st) as H1.
    destruct (drain_fd fds_map log_output_live fd st) as [[[]|e|] st1];
      [|exact I|contradiction].
    specialize (IH st1). unfold progress in *.
    destruct (for_each t (drain_fd fds_map log_output_live) st1)
      as [[[]|e|] st2]; [|exact I|contradiction].
    cbn [length]. lia.
Qed.

Lemma select_progress (rlist : list Z) (st : State) :
  match select_select rlist st with
  | (Val ready, st') =>
      drain_fuel st' = drain_fuel st
      /\ (truthy rlist = true -> (0 < length ready)%nat)
  | (Exc _, _) => True
  | (OutOfFuel, _) => False
  end.
Proof.
  unfold select_select.
  destruct (select_oracle (world st)) as [|[r|f] o]; [| |exact I].
  - split; [reflexivity|]. destruct rlist; [discriminate | cbn; lia].
  - split; [reflexivity|]. intros Ht.
    destruct (filter (fun fd => mem fd r) rlist); [|cbn; lia].
    destruct rlist; [discriminate | cbn; lia].
Qed.

Lemma drain_step_progress (fds_map : dict (logger_ref * list_ref))
      (log_output_live : bool) (st : State) :
  truthy (fds st) = true ->
  progress (drain_step fds_map log_output_live st) st 1.
Proof.
  intros Ht. unfold drain_step. rewrite bind_gets. unfold bind.
  pose proof (select_progress (fds st) st) as Hs.
  destruct (select_select (fds st) st) as [[ready|e|] st1];
    [|exact I|contradiction].
  destruct Hs as [Hf Hr]. specialize (Hr Ht).
  pose proof (for_each_progress fds_map log_output_live ready st1) as Hp.
  unfold progress in *.
  destruct (for_each ready (drain_fd fds_map log_output_live) st1)
    as [[[]|e|] st2]; [|exact I|contradiction].
  lia.
Qed.

Lemma while_fds_total (fds_map : dict (logger_ref * list_ref))
      (log_output_live : bool) (fuel : nat) :
  forall st : State,
    (drain_fuel st <= fuel)%nat ->
    out_of_fuel (fst (while fuel (fun st => truthy (fds st))
                            (drain_step fds_map log_output_live) st)) = false.
Proof.
  induction fuel as [|fuel IH]; intros st Hfuel; cbn [while];
    destruct (truthy (fds st)) eqn:Ht; try reflexivity.
  - exfalso. unfold drain_fuel in Hfuel.
    destruct (fds st); [discriminate Ht | cbn [length] in Hfuel; lia].
  - unfold bind.
    pose proof (drain_step_progress fds_map log_output_live st Ht) as Hp.
    unfold progress in Hp.
    destruct (drain_step fds_map log_output_live st) as [[[]|e|] st1];
      [|reflexivity|contradiction].
    apply IH. lia.
Qed.

Lemma total_drain (log_output_live : bool) : total (drain log_output_live).
Proof.
  unfold drain, LineLogger_init. intros st. mstep.
  apply while_fds_total. apply Nat.le_refl.
Qed.

Lemma total_try_block (log_output_live pipe_output : bool) :
  total (try_block log_output_live pipe_output).
Proof.
  unfold try_block.
  apply total_bind; [apply total_modify|]. intros _.
  apply total_bind; [apply total_modify|]. intros _.
  apply total_bind.
  { destruct pipe_output; [apply total_drain | apply total_ret]. }
  intros _. apply total_bind; [apply total_process_wait|]. intros _.
  destruct pipe_output; [|apply total_ret].
  apply total_bind; [apply total_gets|]. intros out.
  apply total_bind; [apply total_gets|]. intros err. apply total_ret.
Qed.

(** [run_subprocess] gives a value or an exception in every world: the
    bound [drain_fuel] on the iterations of the drain loop is never
    reached. *)
Lemma total_run_subprocess (args : list string)
      (log_output_live pipe_output : bool) :
  total (run_subprocess args log_output_live pipe_output).
Proof.
  unfold run_subprocess. apply total_bind.
  - assert (Hb : total (with_body args log_output_live pipe_output)).
    { unfold with_body. apply total_bind.
      - apply total_try_except; [apply total_try_block|].
        intros e. destruct (is_Exception e); [|exact I].
        apply total_bind; [apply total_cleanup | intros; apply total_raise].
      - intros out. apply total_bind; [apply total_gets|].
        intros rc. destruct (negb _); [apply total_raise | apply total_ret]. }
    intros st. unfold with_Popen. specialize (Hb st).
    destruct (with_body args log_output_live pipe_output st). exact Hb.
  - intros out. apply total_bind; [apply total_gets|].
    intros rc. apply total_ret.
Qed.

(** ** Without live logging the logger is silent *)

Lemma preserves_ret {A} (a : A) : preserves (ret a).
Proof. intros st H. exact H. Qed.

Lemma preserves_raise {A} (e : exn) : preserves (@raise A e).
Proof. intros st H. exact H. Qed.

Lemma preserves_gets {A} (f : State -> A) : preserves (gets f).
Proof. intros st H. exact H. Qed.

Lemma preserves_bind {A B} (m : M A) (k : A -> M B) :
  preserves m -> (forall a, preserves (k a)) -> preserves (bind m k).
Proof.
  intros Hm Hk st H. unfold bind. specialize (Hm st H).
  destruct (m st) as [[a|e|] st']; [apply Hk | |]; exact Hm.
Qed.

Lemma preserves_try_except {A} (m : M A) (h : exn -> option (M A)) :
  preserves m ->
  (forall e, match h e with Some c => preserves c | None => True end) ->
  preserves (try_except m h).
Proof.
  intros Hm Hh st H. unfold try_except. specialize (Hm st H).
  destruct (m st) as [[a|e|] st']; try exact Hm.
  specialize (Hh e). destruct (h e); [apply Hh|]; exact Hm.
Qed.

Lemma preserves_for_each {A} (l : list A) (body : A -> M unit) :
  (forall x, preserves (body x)) -> preserves (for_each l body).
Proof.
  intros Hb. induction l as [|x t IH]; cbn [for_each].
  - apply preserves_ret.
  - apply preserves_bind; [apply Hb | intros; exact IH].
Qed.

Lemma preserves_while (fuel : nat) (cond : State -> bool) (body : M unit) :
  preserves body -> preserves (while fuel cond body).
Proof.
  intros Hb. induction fuel as [|fuel IH]; intros st H; cbn [while];
    destruct (cond st); try exact H.
  apply preserves_bind; [exact Hb | intros; exact IH | exact H].
Qed.

Lemma unlogged_emit (ev : event) (st : State) :
  is_log ev = false -> unlogged st -> unlogged (emit ev st).
Proof.
  intros He (H1 & H2 & H3). repeat split; state_simpl; auto.
  rewrite existsb_app, H3. cbn. rewrite He. reflexivity.
Qed.

Lemma preserves_reply_emit {A} (r : answer A) (ev : event) (st st' : State) :
  is_log ev = false -> unlogged st' -> unlogged (snd (reply r (emit ev st'))).
Proof.
  intros He H. destruct r; cbn [reply]; unfold ret, raise; cbn [snd];
    apply unlogged_emit; auto.
Qed.

Lemma preserves_os_read (fd n : Z) : preserves (os_read fd n).
Proof.
  intros st H. unfold os_read.
  destruct (fd =? stdout_fileno (world st));
    [|destruct (fd =? stderr_fileno (world st))];
    try destruct (pipe_read n _) as [r p];
    apply preserves_reply_emit; auto.
Qed.

Lemma preserves_select_select (rlist : list Z) :
  preserves (select_select rlist).
Proof.
  intros st H. unfold select_select.
  destruct (select_oracle (world st)) as [|[r|f] o]; cbn [snd];
    apply unlogged_emit; auto.
Qed.

Lemma preserves_process_wait (timeout : option Z) :
  preserves (process_wait timeout).
Proof.
  intros st H. unfold process_wait.
  match goal with |- context [EvWait timeout ?r] => destruct r end;
    cbn [snd];
    try (change (unlogged (with_returncode ?rc ?s)) with (unlogged s));
    apply unlogged_emit; auto.
Qed.

Lemma preserves_cleanup : preserves cleanup.
Proof.
  unfold cleanup. apply preserves_bind.
  - intros st H. unfold process_terminate. apply preserves_reply_emit; auto.
  - intros _. apply preserves_try_except.
    + apply preserves_bind;
        [apply preserves_process_wait | intros; apply preserves_ret].
    + intros e. destruct (is_TimeoutExpired e); [|exact I].
      intros st H. unfold process_kill. apply preserves_reply_emit; auto.
Qed.

Lemma preserves_LineLogger_flush (self : logger_ref) :
  preserves (LineLogger_flush self).
Proof.
  intros st H. rewrite LineLogger_flush_run. cbn [snd].
  destruct H as (H1 & H2 & H3).
  destruct self; cbn [get_logger]; rewrite ?H1, ?H2; cbn [truthy];
    repeat split; auto.
Qed.

Lemma preserves_drain_fd (fds_map : dict (logger_ref * list_ref)) (fd : Z) :
  preserves (drain_fd fds_map false fd).
Proof.
  unfold drain_fd. apply preserves_bind.
  - destruct (dict_get fds_map fd); [apply preserves_ret | apply preserves_raise].
  - intros [logger lines]. apply preserves_bind; [apply preserves_os_read|].
    intros buff. destruct (truthy buff).
    + apply preserves_bind; [|intros; apply preserves_ret].
      intros st H. exact H.
    + apply preserves_bind; [apply preserves_gets|]. intros l.
      apply preserves_bind; [|intros; apply preserves_LineLogger_flush].
      destruct (list_remove l fd); [|apply preserves_raise].
      intros st H. exact H.
Qed.

Lemma preserves_drain : preserves (drain false).
Proof.
  unfold drain.
  apply preserves_bind; [apply preserves_gets|]. intros fo.
  apply preserves_bind.
  { intros st (H1 & H2 & H3). repeat split; auto. } intros _.
  apply preserves_bind; [apply preserves_gets|]. intros fe.
  apply preserves_bind.
  { intros st (H1 & H2 & H3). repeat split; auto. } intros _.
  apply preserves_bind; [intros st H; exact H|]. intros _.
  apply preserves_bind; [apply preserves_gets|]. intros fuel.
  apply preserves_while. unfold drain_step.
  apply preserves_bind; [apply preserves_gets|]. intros l.
  apply preserves_bind; [apply preserves_select_select|]. intros ready.
  apply preserves_for_each. intros fd. apply preserves_drain_fd.
Qed.

Lemma preserves_run_subprocess (args : list string) (pipe_output : bool) :
  preserves (run_subprocess args false pipe_output).
Proof.
  unfold run_subprocess. apply preserves_bind.
  - assert (Hb : preserves (with_body args false pipe_output)).
    { unfold with_body. apply preserves_bind.
      - apply preserves_try_except.
        + unfold try_block.
          apply preserves_bind; [intros st H; exact H|]. intros _.
          apply preserves_bind; [intros st H; exact H|]. intros _.
          apply preserves_bind.
          { destruct pipe_output; [apply preserves_drain | apply preserves_ret]. }
          intros _. apply preserves_bind; [apply preserves_process_wait|].
          intros _. destruct pipe_output; [|apply preserves_ret].
          apply preserves_bind; [apply preserves_gets|]. intros out.
          apply preserves_bind; [apply preserves_gets|]. intros err.
          apply preserves_ret.
        + intros e. destruct (is_Exception e); [|exact I].
          apply preserves_bind;
            [apply preserves_cleanup | intros; apply preserves_raise].
      - intros out. apply preserves_bind; [apply preserves_gets|].
        intros rc. destruct (negb _); [apply preserves_raise | apply preserves_ret]. }
    intros st H. unfold with_Popen. specialize (Hb st H).
    destruct (with_body args false pipe_output st) as [r st'].
    cbn [snd] in *. apply unlogged_emit; auto.
  - intros out. apply preserves_bind; [apply preserves_gets|].
    intros rc. apply preserves_ret.
Qed.

(** C7.  Two runs in the same world that differ in [log_output_live] only
    end alike: the same value returned or the same exception raised, the
    same chunks in both capture lists (hence the same captured bytes),
    and the same calls in the same order once the calls of the logger are
    left out.  Without live logging the logger is not called at all.  Both
    runs end with a value or an exception. *)
Theorem live_logging_does_not_change_capture :
  forall (w : World) (args : list string) (pipe_output : bool),
    let live := run w args true pipe_output in
    let quiet_run := run w args false pipe_output in
    fst live = fst quiet_run
    /\ bytes_join (stdout_list (snd live))
       = bytes_join (stdout_list (snd quiet_run))
    /\ bytes_join (stderr_list (snd live))
       = bytes_join (stderr_list (snd quiet_run))
    /\ filter not_log (trace (snd live))
       = filter not_log (trace (snd quiet_run))
    /\ existsb is_log (trace (snd quiet_run)) = false
    /\ out_of_fuel (fst live) = false.
Proof.
  intros w args pipe. cbv zeta. unfold run.
  destruct (@msim_run_subprocess args pipe (initial_state w) (initial_state w)
              eq_refl) as [Hr Hs].
  destruct (sim_parts Hs) as (_ & Hso & Hse & _ & _ & Ht).
  rewrite Hso, Hse, Ht.
  split; [exact Hr|]. split; [reflexivity|]. split; [reflexivity|].
  split; [reflexivity|]. split.
  - apply (@preserves_run_subprocess args pipe (initial_state w)).
    repeat split.
  - apply total_run_subprocess.
Qed.

(** ** Invariants of every execution *)

Section Keeps.

Variable I : State -> Prop.
Variable P : exn -> Prop.

Lemma keeps_ret {A} (a : A) : keeps I P (ret a).
Proof. intros st H. split; [exact H | exact Logic.I]. Qed.

Lemma keeps_raise {A} (e : exn) : P e -> keeps I P (@raise A e).
Proof. intros He st H. split; [exact H | exact He]. Qed.

Lemma keeps_gets {A} (f : State -> A) : keeps I P (gets f).
Proof. intros st H. split; [exact H | exact Logic.I]. Qed.

Lemma keeps_bind {A B} (m : M A) (k : A -> M B) :
  keeps I P m -> (forall a, keeps I P (k a)) -> keeps I P (bind m k).
Proof.
  intros Hm Hk st H. unfold bind. specialize (Hm st H).
  destruct (m st) as [[a|e|] st']; cbn [fst snd] in *;
    [apply Hk; apply Hm | exact Hm | exact Hm].
Qed.

Lemma keeps_for_each {A} (l : list A) (body : A -> M unit) :
  (forall x, keeps I P (body x)) -> keeps I P (for_each l body).
Proof.
  intros Hb. induction l as [|x t IH]; cbn [for_each].
  - apply keeps_ret.
  - apply keeps_bind; [apply Hb | intros; exact IH].
Qed.

Lemma keeps_while (fuel : nat) (cond : State -> bool) (body : M unit) :
  keeps I P body -> keeps I P (while fuel cond body).
Proof.
  intros Hb. induction fuel as [|fuel IH]; intros st H; cbn [while];
    destruct (cond st); try (split; [exact H | exact Logic.I]).
  apply keeps_bind; [exact Hb | intros; exact IH | exact H].
Qed.

End Keeps.

Lemma keeps_intro (I : State -> Prop) (P : exn -> Prop) {A} (m : M A) :
  (forall st, I st ->
              exists r st', m st = (r, st')
                            /\ I st'
                            /\ match r with Exc e => P e | _ => True end) ->
  keeps I P m.
Proof.
  intros H st Hst. destruct (H st Hst) as (r & st' & E & H1 & H2).
  rewrite E. split; assumption.
Qed.

Lemma while_exit (fuel : nat) (cond : State -> bool) (body : M unit) :
  forall st st' : State,
    while fuel cond body st = (Val tt, st') -> cond st' = false.
Proof.
  induction fuel as [|fuel IH]; intros st st' H; cbn [while] in H;
    destruct (cond st) eqn:Ec; try discriminate H.
  - injection H as <-. exact Ec.
  - unfold bind in H. destruct (body st) as [[[]|e|] st1]; try discriminate H.
    eapply IH. exact H.
  - injection H as <-. exact Ec.
Qed.

Lemma bytes_read_app (fd : Z) (tr tr' : list event) :
  bytes_read fd (tr ++ tr') = bytes_read fd tr ++ bytes_read fd tr'.
Proof.
  induction tr as [|ev t IH]; [reflexivity|]. cbn [app bytes_read].
  destruct ev as [ | fd' n [d|f] | | | | | ]; try exact IH.
  destruct (fd' =? fd); [rewrite IH, app_assoc; reflexivity | exact IH].
Qed.

Lemma bytes_read_logs (fd : Z) (logs : list event) :
  forallb is_log logs = true -> bytes_read fd logs = [].
Proof.
  induction logs as [|ev t IH]; [reflexivity|]. cbn [forallb].
  intros H. apply andb_true_iff in H as [H1 H2].
  destruct ev; try discriminate H1. exact (IH H2).
Qed.

Lemma untimed_wait_logs (logs : list event) :
  forallb is_log logs = true -> existsb is_untimed_wait logs = false.
Proof.
  induction logs as [|ev t IH]; [reflexivity|]. cbn [forallb].
  intros H. apply andb_true_iff in H as [H1 H2].
  destruct ev; try discriminate H1. exact (IH H2).
Qed.

Lemma capture_inv_log_ext (fo fe : Z) (st st' : State) :
  capture_inv fo fe st -> log_ext st st' -> capture_inv fo fe st'.
Proof.
  intros C [Hw Hso Hse Hf Hrc (logs & Ht & Hl)]. destruct C.
  constructor; rewrite ?Hw, ?Hso, ?Hse, ?Hf, ?Ht; auto.
  - rewrite bytes_read_app, (bytes_read_logs _ _ Hl), app_nil_r. exact cap_out0.
  - rewrite bytes_read_app, (bytes_read_logs _ _ Hl), app_nil_r. exact cap_err0.
  - rewrite existsb_app, cap_no_wait0. apply untimed_wait_logs, Hl.
  - destruct cap_fds0 as (bo & be & E & Ho & He). exists bo, be.
    split; [exact E|].
    split; intros Hb; rewrite existsb_app; [rewrite (Ho Hb) | rewrite (He Hb)];
      reflexivity.
Qed.

Lemma truthy_false {A} (l : list A) : truthy l = false -> l = [].
Proof. destruct l; [reflexivity | discriminate]. Qed.

Lemma is_cpe_fault (f : fault) : is_cpe (exn_of_fault f) = false.
Proof. destruct f; reflexivity. Qed.

Section EveryExecution.

Variables (fo fe : Z) (log_output_live : bool).
Hypothesis Hne : (fo =? fe) = false.

Local Abbreviation cap := (capture_inv fo fe).
Local Abbreviation not_cpe := (fun e : exn => is_cpe e = false).

Lemma keeps_select_select (rlist : list Z) :
  keeps cap not_cpe (select_select rlist).
Proof.
  intros st C. unfold select_select.
  assert (G : forall r w,
             stdout_fileno w = stdout_fileno (world st) ->
             stderr_fileno w = stderr_fileno (world st) ->
             cap (emit (EvSelect rlist r) (with_world w st))).
  { intros r w Hfo Hfe. destruct C.
    constructor; state_simpl; try congruence.
    - rewrite bytes_read_app, app_nil_r. exact cap_out0.
    - rewrite bytes_read_app, app_nil_r. exact cap_err0.
    - rewrite existsb_app, cap_no_wait0. reflexivity.
    - destruct cap_fds0 as (bo & be & E & Ho & He). exists bo, be.
      split; [exact E|].
      split; intros Hb; rewrite existsb_app;
        [rewrite (Ho Hb) | rewrite (He Hb)]; reflexivity. }
  destruct (select_oracle (world st)) as [|[r|f] o]; cbn [fst snd].
  - split; [|exact I].
    replace st with (with_world (world st) st) at 2 by (destruct st; reflexivity).
    apply G; reflexivity.
  - split; [apply G; reflexivity | exact I].
  - split; [apply G; reflexivity | apply is_cpe_fault].
Qed.

Lemma log_or_not_frame (logger : logger_ref) (d : bytes) (st : State) :
  exists st',
    (if log_output_live then LineLogger_log logger d else ret tt) st
    = (Val tt, st')
    /\ log_ext st st'.
Proof.
  destruct log_output_live.
  - apply LineLogger_log_frame.
  - eexists. split; [reflexivity | apply log_ext_refl].
Qed.

Ltac cap_solve :=
  match goal with
  | Ef : fds _ = _, Ho : _ = false -> _, He : _ = false -> _ |- _ =>
      constructor; state_simpl; auto;
      [ rewrite ?bytes_join_snoc, bytes_read_app; cbn [bytes_read];
        rewrite ?Z.eqb_refl, ?Hne, ?(@fileno_distinct_sym _ _ Hne),
          ?app_nil_r; congruence
      | rewrite ?bytes_join_snoc, bytes_read_app; cbn [bytes_read];
        rewrite ?Z.eqb_refl, ?Hne, ?(@fileno_distinct_sym _ _ Hne),
          ?app_nil_r; congruence
      | rewrite existsb_app; cbn [existsb is_untimed_wait];
        rewrite ?orb_false_r; assumption
      | ]
  end.

Ltac flags_solve Ho He :=
  split; intros Hb; rewrite existsb_app;
  first [ rewrite (Ho Hb); reflexivity
        | rewrite (He Hb); reflexivity
        | cbn [existsb is_eof]; rewrite Z.eqb_refl, !orb_true_r; reflexivity ].

Lemma keeps_drain_fd_stdout :
  keeps cap not_cpe (drain_fd (make_fds_map fo fe) log_output_live fo).
Proof.
  apply keeps_intro. intros st C. destruct C.
  unfold drain_fd. rewrite (@make_fds_map_distinct _ _ Hne).
  cbn [dict_get]. rewrite Z.eqb_refl, bind_ret.
  unfold bind at 1. unfold os_read. rewrite cap_fo0, Z.eqb_refl.
  destruct cap_fds0 as (bo & be & Ef & Ho & He).
  destruct (pipe_read read_size (stdout_pipe (world st))) as [[d|f] p'];
    cbn [reply]; unfold ret at 1, raise at 1.
  - destruct (truthy d) eqn:Ed.
    + rewrite bind_modify.
      match goal with
      | |- context [(if log_output_live then _ else _) ?s] =>
          destruct (log_or_not_frame StdoutLogger d s) as (st' & E & X);
          assert (C1 : cap s)
      end.
      { cap_solve. exists bo, be. split; [exact Ef | flags_solve Ho He]. }
      exists (Val tt), st'. split; [exact E|]. split; [|exact I].
      eapply capture_inv_log_ext; eauto.
    + apply truthy_false in Ed. subst d. rewrite bind_gets. state_simpl.
      rewrite Ef. destruct bo; cbn [app list_remove].
      * rewrite Z.eqb_refl, bind_modify.
        match goal with
        | |- context [LineLogger_flush ?r ?s] =>
            destruct (LineLogger_flush_frame r s) as (st' & E & X);
            assert (C1 : cap s)
        end.
        { cap_solve. exists false, be.
          split; [reflexivity | flags_solve Ho He]. }
        exists (Val tt), st'. split; [exact E|]. split; [|exact I].
        eapply capture_inv_log_ext; eauto.
      * assert (En : list_remove (if be then [fe] else []) fo = None).
        { destruct be; cbn [list_remove];
            rewrite ?(@fileno_distinct_sym _ _ Hne); reflexivity. }
        rewrite En. unfold bind, raise.
        do 2 eexists. split; [reflexivity|]. split; [|reflexivity].
        cap_solve. exists false, be. split; [exact Ef | flags_solve Ho He].
  - do 2 eexists. split; [reflexivity|]. split; [|apply is_cpe_fault].
    cap_solve. exists bo, be. split; [exact Ef | flags_solve Ho He].
Qed.

Lemma keeps_drain_fd_stderr :
  keeps cap not_cpe (drain_fd (make_fds_map fo fe) log_output_live fe).
Proof.
  apply keeps_intro. intros st C. destruct C.
  unfold drain_fd. rewrite (@make_fds_map_distinct _ _ Hne).
  cbn [dict_get]. rewrite Hne, Z.eqb_refl, bind_ret.
  unfold bind at 1. unfold os_read.
  rewrite cap_fo0, cap_fe0, (@fileno_distinct_sym _ _ Hne), Z.eqb_refl.
  destruct cap_fds0 as (bo & be & Ef & Ho & He).
  destruct (pipe_read read_size (stderr_pipe (world st))) as [[d|f] p'];
    cbn [reply]; unfold ret at 1, raise at 1.
  - destruct (truthy d) eqn:Ed.
    + rewrite bind_modify.
      match goal with
      | |- context [(if log_output_live then _ else _) ?s] =>
          destruct (log_or_not_frame StderrLogger d s) as (st' & E & X);
          assert (C1 : cap s)
      end.
      { cap_solve. exists bo, be. split; [exact Ef | flags_solve Ho He]. }
      exists (Val tt), st'. split; [exact E|]. split; [|exact I].
      eapply capture_inv_log_ext; eauto.
    + apply truthy_false in Ed. subst d. rewrite bind_gets. state_simpl.
      rewrite Ef. destruct be.
      * assert (Er : list_remove ((if bo then [fo] else []) ++ [fe]) fe
                     = Some ((if bo then [fo] else []) ++ [])).
        { destruct bo; cbn [app list_remove]; rewrite ?Hne, Z.eqb_refl;
            reflexivity. }
        rewrite Er, bind_modify.
        match goal with
        | |- context [LineLogger_flush ?r ?s] =>
            destruct (LineLogger_flush_frame r s) as (st' & E & X);
            assert (C1 : cap s)
        end.
        { cap_solve. exists bo, false.
          split; [reflexivity | flags_solve Ho He]. }
        exists (Val tt), st'. split; [exact E|]. split; [|exact I].
        eapply capture_inv_log_ext; eauto.
      * assert (En : list_remove ((if bo then [fo] else []) ++ []) fe = None).
        { destruct bo; cbn [app list_remove]; rewrite ?Hne; reflexivity. }
        rewrite En. unfold bind, raise.
        do 2 eexists. split; [reflexivity|]. split; [|reflexivity].
        cap_solve. exists bo, false. split; [exact Ef | flags_solve Ho He].
  - do 2 eexists. split; [reflexivity|]. split; [|apply is_cpe_fault].
    cap_solve. exists bo, be. split; [exact Ef | flags_solve Ho He].
Qed.

Lemma keeps_drain_fd (fd : Z) :
  keeps cap not_cpe (drain_fd (make_fds_map fo fe) log_output_live fd).
Proof.
  destruct (fo =? fd) eqn:E1; [apply Z.eqb_eq in E1; subst fd;
                               apply keeps_drain_fd_stdout|].
  destruct (fe =? fd) eqn:E2; [apply Z.eqb_eq in E2; subst fd;
                               apply keeps_drain_fd_stderr|].
  unfold drain_fd. rewrite (@make_fds_map_distinct _ _ Hne).
  cbn [dict_get]. rewrite E1, E2.
  intros st C. split; [exact C | reflexivity].
Qed.

Lemma keeps_while_fds (fuel : nat) :
  keeps cap not_cpe
        (while fuel (fun st => truthy (fds st))
               (drain_step (make_fds_map fo fe) log_output_live)).
Proof.
  apply keeps_while. unfold drain_step.
  apply keeps_bind; [apply keeps_gets|]. intros l.
  apply keeps_bind; [apply keeps_select_select|]. intros ready.
  apply keeps_for_each. intros fd. apply keeps_drain_fd.
Qed.

End EveryExecution.

(** The loop is left normally only with [fds] empty, that is after both
    ends of stream. *)
Lemma capture_inv_done (fo fe : Z) (st : State) :
  capture_inv fo fe st ->
  truthy (fds st) = false ->
  existsb (is_eof fo) (trace st) = true
  /\ existsb (is_eof fe) (trace st) = true.
Proof.
  intros C Hf. destruct (cap_fds C) as (bo & be & E & Ho & He).
  rewrite E in Hf. destruct bo, be; try discriminate Hf. auto.
Qed.

(** What [drain] leaves, in every world with two distinct descriptors. *)
Lemma drain_general (log_output_live : bool) (st : State) :
  (stdout_fileno (world st) =? stderr_fileno (world st)) = false ->
  stdout_list st = [] -> stderr_list st = [] -> trace st = [] ->
  exists (r : result unit) (st' : State),
    drain log_output_live st = (r, st')
    /\ capture_inv (stdout_fileno (world st)) (stderr_fileno (world st)) st'
    /\ match r with
       | Val _ => existsb (is_eof (stdout_fileno (world st))) (trace st') = true
                  /\ existsb (is_eof (stderr_fileno (world st))) (trace st')
                     = true
       | Exc e => is_cpe e = false
       | OutOfFuel => False
       end.
Proof.
  intros Hne Hso Hse Htr.
  unfold drain, LineLogger_init. mstep. state_simpl.
  rewrite (@make_fds_map_distinct _ _ Hne). cbn [dict_keys map fst].
  match goal with
  | |- context [while ?n ?c ?b ?s] =>
      pose proof (@keeps_while_fds (stdout_fileno (world st))
                    (stderr_fileno (world st)) log_output_live Hne n s) as K;
      pose proof (@while_fds_total
                    [(stdout_fileno (world st), (StdoutLogger, StdoutList));
                     (stderr_fileno (world st), (StderrLogger, StderrList))]
                    log_output_live n s (Nat.le_refl _)) as T;
      pose proof (@while_exit n c b s) as X
  end.
  rewrite (@make_fds_map_distinct _ _ Hne) in K.
  match type of K with
  | ?C ?s -> _ => assert (C0 : C s)
  end.
  { constructor; state_simpl; auto.
    - rewrite Hso, Htr. reflexivity.
    - rewrite Hse, Htr. reflexivity.
    - rewrite Htr. reflexivity.
    - exists true, true. repeat split; discriminate. }
  specialize (K C0). destruct K as [K1 K2].
  match goal with
  | |- context [while ?n ?c ?b ?s] => destruct (while n c b s) as [r st']
  end.
  cbn [fst snd] in *. exists r, st'. split; [reflexivity|].
  split; [exact K1|].
  destruct r as [[]|e|]; [|exact K2|discriminate T].
  apply (capture_inv_done K1). apply (X st' eq_refl).
Qed.

Lemma exit_code_obtained_app (pre post : list event) :
  existsb is_untimed_wait pre = false ->
  exit_code_obtained (pre ++ post) = exit_code_obtained post.
Proof.
  induction pre as [|ev t IH]; [reflexivity|]. cbn [existsb app].
  intros H. apply orb_false_iff in H as [H1 H2].
  destruct ev as [ | | | [t'|] r | | | ]; try discriminate H1;
    cbn [exit_code_obtained]; apply IH, H2.
Qed.

Lemma untimed_wait_in_place_none (fo fe : Z) (tr : list event) :
  forall so se : bool,
    existsb is_untimed_wait tr = false ->
    untimed_wait_in_place fo fe so se tr = true.
Proof.
  induction tr as [|ev t IH]; intros so se H; [reflexivity|].
  cbn [existsb] in H. apply orb_false_iff in H as [H1 H2].
  cbn [untimed_wait_in_place]. rewrite H1. apply IH, H2.
Qed.

Lemma untimed_wait_in_place_app (fo fe : Z) (pre rest : list event)
      (ev : event) :
  forall so se : bool,
    existsb is_untimed_wait pre = false ->
    is_untimed_wait ev = true ->
    untimed_wait_in_place fo fe so se (pre ++ ev :: rest)
    = (so || existsb (is_eof fo) pre) && (se || existsb (is_eof fe) pre)
        && negb (existsb is_untimed_wait rest).
Proof.
  induction pre as [|e t IH]; intros so se H Hev.
  - cbn [app untimed_wait_in_place existsb]. rewrite Hev, !orb_false_r.
    reflexivity.
  - cbn [existsb] in H. apply orb_false_iff in H as [H1 H2].
    cbn [app untimed_wait_in_place existsb]. rewrite H1, (IH _ _ H2 Hev).
    rewrite !orb_assoc. reflexivity.
Qed.

(** After an exception of the [try] block that is not a
    [CalledProcessError]: only calls of the handler and the exit of the
    block follow, none of them [process.wait()], and the caller gets an
    exception that is not a [CalledProcessError] either. *)
Lemma run_after_exception (w : World) (args : list string)
      (log_output_live pipe_output : bool) (e : exn) (st1 : State) :
  try_block log_output_live pipe_output (initial_state w) = (Exc e, st1) ->
  is_cpe e = false ->
  let r := run w args log_output_live pipe_output in
  is_final_result (fst r) = false
  /\ exists evs,
      trace (snd r) = trace st1 ++ evs
      /\ existsb is_untimed_wait evs = false.
Proof.
  intros Et He r. subst r. rewrite (run_try_exc _ _ _ _ Et).
  assert (F : forall e' : exn,
             is_cpe e' = false -> is_final_result (Exc e') = false).
  { intros e' H. destruct e'; try reflexivity. discriminate H. }
  destruct (is_Exception e).
  - unfold cleanup_spec.
    destruct (terminate_answer (world st1)) as [[]|f];
      [destruct (timed_wait_answer (world st1)) as [rc| |f];
       [| destruct (kill_answer (world st1)) as [[]|f] |] |];
      cbn [fst snd]; state_simpl;
      (split; [apply F; auto using is_cpe_fault|]);
      eexists; rewrite <- !app_assoc; (split; [reflexivity|]); reflexivity.
  - cbn [fst snd]. state_simpl. split; [apply F, He|].
    eexists. split; reflexivity.
Qed.

(** ** Every execution with capture *)

Lemma run_capture_general (w : World) (args : list string)
      (log_output_live : bool) :
  distinct_fds w = true ->
  let r := run w args log_output_live true in
  let tr := trace (snd r) in
  let out := bytes_read (stdout_fileno w) tr in
  let err := bytes_read (stderr_fileno w) tr in
  untimed_wait_in_place (stdout_fileno w) (stderr_fileno w) false false tr
  = true
  /\ match exit_code_obtained tr with
     | Some rc =>
         fst r = (if rc =? 0
                  then Val {| cp_args := args; cp_returncode := Some 0;
                              cp_stdout := Some out; cp_stderr := Some err |}
                  else Exc (CalledProcessError (Some rc) args
                                               (Some out) (Some err)))
     | None => is_final_result (fst r) = false
     end.
Proof.
  intros Hd. unfold distinct_fds in Hd. apply negb_true_iff in Hd.
  destruct (@drain_general log_output_live (reset_lists (initial_state w)) Hd
              eq_refl eq_refl eq_refl) as (rd & sd & Ed & C & Hr).
  cbn [world reset_lists initial_state with_list] in C, Hr.
  assert (Et : try_block log_output_live true (initial_state w)
               = match rd with
                 | Val _ => (x <- process_wait None ;;
                             out <- gets stdout_list ;;
                             err <- gets stderr_list ;;
                             ret (Some (bytes_join out), Some (bytes_join err)))
                              sd
                 | Exc e => (Exc e, sd)
                 | OutOfFuel => (OutOfFuel, sd)
                 end).
  { unfold try_block. cbv iota. mstep. unfold bind at 1.
    unfold reset_lists in Ed. rewrite Ed. destruct rd; reflexivity. }
  destruct rd as [[]|e|]; [| |contradiction].
  - destruct Hr as [Ho He]. unfold bind at 1, process_wait in Et.
    destruct (wait_answer (world sd)) as [rc|f] eqn:Ew.
    + rewrite !bind_gets in Et. unfold ret in Et. revert Et. state_simpl.
      rewrite (cap_out C), (cap_err C). intros Et.
      cbv zeta. rewrite (run_try_val _ _ _ _ Et). cbn [fst snd]. state_simpl.
      rewrite <- app_assoc. cbn [app].
      rewrite (@untimed_wait_in_place_app _ _ (trace sd) _
                 (EvWait None (Exited rc)) _ _ (cap_no_wait C) eq_refl).
      rewrite Ho, He.
      rewrite (exit_code_obtained_app _ _ (cap_no_wait C)).
      cbn [exit_code_obtained existsb is_untimed_wait orb negb andb].
      rewrite !bytes_read_app. cbn [bytes_read]. rewrite !app_nil_r.
      split; [reflexivity|]. cbn [opt_Z_eqb].
      destruct (rc =? 0) eqn:E0; cbn [negb]; [|reflexivity].
      apply Z.eqb_eq in E0. subst rc. reflexivity.
    + destruct (@run_after_exception w args log_output_live true _ _ Et
                  (is_cpe_fault f)) as (Hf & evs & Htr & Hev).
      cbv zeta. rewrite Htr. state_simpl. rewrite <- app_assoc. cbn [app].
      rewrite (@untimed_wait_in_place_app _ _ (trace sd) _
                 (EvWait None (WaitFault f)) _ _ (cap_no_wait C) eq_refl).
      rewrite Ho, He, Hev.
      rewrite (exit_code_obtained_app _ _ (cap_no_wait C)).
      cbn [exit_code_obtained].
      split; [reflexivity|].
      replace (exit_code_obtained evs) with (@None Z); [exact Hf|].
      symmetry. rewrite <- (app_nil_r evs).
      apply (exit_code_obtained_app evs [] Hev).
  - destruct (@run_after_exception w args log_output_live true _ _ Et Hr)
      as (Hf & evs & Htr & Hev).
    cbv zeta. rewrite Htr.
    assert (Hn : existsb is_untimed_wait (trace sd ++ evs) = false).
    { rewrite existsb_app, (cap_no_wait C), Hev. reflexivity. }
    rewrite (untimed_wait_in_place_none _ _ _ _ _ Hn).
    split; [reflexivity|].
    replace (exit_code_obtained (trace sd ++ evs)) with (@None Z); [exact Hf|].
    symmetry. rewrite <- (app_nil_r (trace sd ++ evs)).
    apply (exit_code_obtained_app _ [] Hn).
Qed.







(** * Further properties *)

(** ** The line buffer, continued *)

(** X1.  Two calls of [log] in a row do what one call on the concatenated
    data does: the same lines go to the logger in the same order and the
    same buffer is left, from any state. *)
Theorem log_twice_is_log_once :
  forall (self : logger_ref) (a b : bytes) (st : State),
    (LineLogger_log self a ;; LineLogger_log self b) st
    = LineLogger_log self (a ++ b) st.
Proof.
  intros self a b st.
  rewrite (bind_val _ (LineLogger_log_run self a st)).
  rewrite !LineLogger_log_run. f_equal.
  set (B := buffer (get_logger self st)).
  assert (E1 : buffer (get_logger self
                 (with_trace
                    (trace st ++ map (log_event (logger (get_logger self st)))
                       (removelast (bytes_split (B ++ a))))
                    (with_logger self
                       {| buffer := last (bytes_split (B ++ a)) [];
                          logger := logger (get_logger self st) |} st)))
               = last (bytes_split (B ++ a)) [])
    by (destruct self; reflexivity).
  assert (E2 : logger (get_logger self
                 (with_trace
                    (trace st ++ map (log_event (logger (get_logger self st)))
                       (removelast (bytes_split (B ++ a))))
                    (with_logger self
                       {| buffer := last (bytes_split (B ++ a)) [];
                          logger := logger (get_logger self st) |} st)))
               = logger (get_logger self st))
    by (destruct self; reflexivity).
  rewrite E1, E2.
  rewrite (app_assoc B a b).
  rewrite (bytes_split_app_removelast (B ++ a) b).
  rewrite (bytes_split_app_last (B ++ a) b).
  rewrite map_app, app_assoc.
  destruct self; reflexivity.
Qed.

(** ** Decoding, continued *)




(** ** Termination *)


(** ** The handler is the only place that terminates or kills *)

Lemma in_try_block_emit (ev : event) (st : State) :
  is_cleanup_event ev || is_exit_event ev = false ->
  in_try_block st -> in_try_block (emit ev st).
Proof.
  unfold in_try_block. intros He H. state_simpl.
  rewrite existsb_app, H. cbn [existsb]. rewrite He. reflexivity.
Qed.

Lemma in_try_block_log_ext (st st' : State) :
  in_try_block st -> log_ext st st' -> in_try_block st'.
Proof.
  unfold in_try_block. intros H [_ _ _ _ _ (logs & Ht & Hl)].
  rewrite Ht, existsb_app, H. cbn [orb]. clear - Hl.
  induction logs as [|ev t IH]; [reflexivity|]. cbn [forallb existsb] in *.
  apply andb_true_iff in Hl as [H1 H2]. rewrite (IH H2), orb_false_r.
  destruct ev; try discriminate H1; reflexivity.
Qed.

Section TryBlock.

Local Abbreviation tb := (keeps in_try_block (fun e => is_cpe e = false)).

Lemma tb_reply_emit {A} (r : answer A) (ev : event) (st st' : State) :
  is_cleanup_event ev || is_exit_event ev = false ->
  in_try_block st' ->
  in_try_block (snd (reply r (emit ev st')))
  /\ match fst (reply r (emit ev st')) with
     | Exc e => is_cpe e = false
     | _ => True
     end.
Proof.
  intros He H. destruct r as [a|f]; cbn [reply]; unfold ret, raise;
    cbn [fst snd]; (split; [apply in_try_block_emit; auto|]);
    [exact I | apply is_cpe_fault].
Qed.

Lemma tb_os_read (fd n : Z) : tb (os_read fd n).
Proof.
  intros st H. unfold os_read.
  destruct (fd =? stdout_fileno (world st));
    [|destruct (fd =? stderr_fileno (world st))];
    try destruct (pipe_read n _) as [r p];
    apply tb_reply_emit; auto.
Qed.

Lemma tb_select_select (rlist : list Z) : tb (select_select rlist).
Proof.
  intros st H. unfold select_select.
  destruct (select_oracle (world st)) as [|[r|f] o]; cbn [fst snd];
    (split; [apply in_try_block_emit; auto|]);
    [exact I | exact I | apply is_cpe_fault].
Qed.

Lemma tb_process_wait : tb (process_wait None).
Proof.
  intros st H. unfold process_wait.
  destruct (wait_answer (world st)) as [rc|f]; cbn [fst snd].
  - split; [|exact I].
    change (in_try_block (emit (EvWait None (Exited rc)) st)).
    apply in_try_block_emit; auto.
  - split; [apply in_try_block_emit; auto | apply is_cpe_fault].
Qed.

Lemma tb_frame {A} (m : M A) :
  (forall st, exists a st', m st = (Val a, st') /\ log_ext st st') -> tb m.
Proof.
  intros Hm st H. destruct (Hm st) as (a & st' & E & X). rewrite E.
  split; [eapply in_try_block_log_ext; eauto | exact I].
Qed.

Lemma tb_modify (f : State -> State) :
  (forall st, trace (f st) = trace st) -> tb (modify f).
Proof.
  intros Hf st H. split; [|exact I]. unfold in_try_block in *. cbn [snd modify].
  unfold modify. cbn [snd]. rewrite Hf. exact H.
Qed.

Lemma tb_drain_fd (fds_map : dict (logger_ref * list_ref))
      (log_output_live : bool) (fd : Z) :
  tb (drain_fd fds_map log_output_live fd).
Proof.
  unfold drain_fd. apply keeps_bind.
  - destruct (dict_get fds_map fd); [apply keeps_ret | now apply keeps_raise].
  - intros [logger lines]. apply keeps_bind; [apply tb_os_read|].
    intros buff. destruct (truthy buff).
    + apply keeps_bind; [apply tb_modify; intros; destruct lines; reflexivity|].
      intros _. destruct log_output_live; [|apply keeps_ret].
      apply tb_frame. intros st.
      destruct (LineLogger_log_frame logger buff st) as (st' & E & X).
      exists tt, st'. auto.
    + apply keeps_bind; [apply keeps_gets|]. intros l.
      apply keeps_bind.
      * destruct (list_remove l fd); [|now apply keeps_raise].
        apply tb_modify. reflexivity.
      * intros _. apply tb_frame. intros st.
        destruct (LineLogger_flush_frame logger st) as (st' & E & X).
        exists tt, st'. auto.
Qed.

Lemma tb_try_block (log_output_live pipe_output : bool) :
  tb (try_block log_output_live pipe_output).
Proof.
  unfold try_block.
  apply keeps_bind; [apply tb_modify; reflexivity|]. intros _.
  apply keeps_bind; [apply tb_modify; reflexivity|]. intros _.
  apply keeps_bind.
  { destruct pipe_output; [|apply keeps_ret]. unfold drain, LineLogger_init.
    apply keeps_bind; [apply keeps_gets|]. intros fo.
    apply keeps_bind; [apply tb_modify; reflexivity|]. intros _.
    apply keeps_bind; [apply keeps_gets|]. intros fe.
    apply keeps_bind; [apply tb_modify; reflexivity|]. intros _.
    apply keeps_bind; [apply tb_modify; reflexivity|]. intros _.
    apply keeps_bind; [apply keeps_gets|]. intros fuel.
    apply keeps_while. unfold drain_step.
    apply keeps_bind; [apply keeps_gets|]. intros l.
    apply keeps_bind; [apply tb_select_select|]. intros ready.
    apply keeps_for_each. intros fd. apply tb_drain_fd. }
  intros _. apply keeps_bind; [apply tb_process_wait|]. intros _.
  destruct pipe_output; [|apply keeps_ret].
  apply keeps_bind; [apply keeps_gets|]. intros out.
  apply keeps_bind; [apply keeps_gets|]. intros err. apply keeps_ret.
Qed.

End TryBlock.

Lemma cleanup_in_order_app (pre tail : list event) (ev : event) :
  existsb (fun ev => is_cleanup_event ev || is_exit_event ev) pre = false ->
  is_cleanup_event ev || is_exit_event ev = true ->
  cleanup_in_order (pre ++ ev :: tail) = escalation (ev :: tail).
Proof.
  intros Hp He. induction pre as [|e t IH].
  - cbn [app cleanup_in_order]. rewrite He. reflexivity.
  - cbn [existsb] in Hp. apply orb_false_iff in Hp as [H1 H2].
    cbn [app cleanup_in_order]. rewrite H1. exact (IH H2).
Qed.

(** X4.  In every world, the calls of the handler are the last calls
    before the [with] block is left and come in one order: at most one
    [process.terminate()]; [process.wait(1)] only right after a
    [terminate] that returned; [process.kill()] only right after a
    [wait(1)] that timed out.  When [run_subprocess] returns a
    [CompletedProcess] or raises [CalledProcessError], the child was never
    asked to terminate and never killed. *)
Theorem cleanup_calls_in_order :
  forall (w : World) (args : list string) (log_output_live pipe_output : bool),
    let r := run w args log_output_live pipe_output in
    cleanup_in_order (trace (snd r)) = true
    /\ (if is_final_result (fst r)
        then negb (existsb is_cleanup_event (trace (snd r)))
        else true) = true.
Proof.
  intros w args live pipe r. subst r.
  destruct (@tb_try_block live pipe (initial_state w) eq_refl) as [H1 H2].
  pose proof (total_try_block live pipe (initial_state w)) as T.
  destruct (try_block live pipe (initial_state w)) as [[out|e|] st1] eqn:Et;
    cbn [fst snd] in *; [| |discriminate T].
  - rewrite (run_try_val _ _ _ _ Et). cbn [fst snd]. state_simpl.
    erewrite cleanup_in_order_app by (first [exact H1 | reflexivity]).
    split; [reflexivity|].
    assert (Hn : existsb is_cleanup_event (trace st1 ++ [EvPopenExit]) = false).
    { rewrite existsb_app. cbn [existsb is_cleanup_event]. rewrite !orb_false_r.
      clear - H1. unfold in_try_block in H1.
      induction (trace st1) as [|ev t IH]; [reflexivity|].
      cbn [existsb] in *. apply orb_false_iff in H1 as [Ha Hb].
      apply orb_false_iff in Ha as [Ha _]. rewrite Ha, (IH Hb). reflexivity. }
    rewrite Hn. destruct (is_final_result _); reflexivity.
  - rewrite (run_try_exc _ _ _ _ Et).
    assert (F : forall e' : exn,
               is_cpe e' = false -> is_final_result (Exc e') = false).
    { intros e' H. destruct e'; try reflexivity. discriminate H. }
    destruct (is_Exception e).
    + unfold cleanup_spec.
      destruct (terminate_answer (world st1)) as [[]|f];
        [destruct (timed_wait_answer (world st1)) as [rc| |f];
         [| destruct (kill_answer (world st1)) as [[]|f] |] |];
        cbn [fst snd]; state_simpl; rewrite <- ?app_assoc; cbn [app];
        erewrite cleanup_in_order_app by (first [exact H1 | reflexivity]);
        rewrite F by (auto using is_cpe_fault); split; reflexivity.
    + cbn [fst snd]. state_simpl.
      erewrite cleanup_in_order_app by (first [exact H1 | reflexivity]).
      rewrite (F _ H2).
      split; reflexivity.
Qed.

(** ** The discipline of [select] and [read], and what is logged *)

Lemma list_Z_eqb_refl (l : list Z) : list_Z_eqb l l = true.
Proof.
  induction l as [|x t IH]; [reflexivity|]. cbn. rewrite Z.eqb_refl. exact IH.
Qed.

Lemma follows_select_logs (logs rest : list event) :
  forall (open pending : list Z) (over : bool),
    forallb is_log logs = true ->
    follows_select open pending over (logs ++ rest)
    = follows_select open pending over rest.
Proof.
  induction logs as [|ev t IH]; intros open pending over H; [reflexivity|].
  cbn [forallb] in H. apply andb_true_iff in H as [H1 H2].
  destruct ev; try discriminate H1. cbn [app follows_select]. apply IH, H2.
Qed.

Lemma follows_select_tail (tail : list event) :
  forall (open : list Z) (over : bool),
    forallb (fun ev => negb (is_stream_event ev)) tail = true ->
    follows_select open [] over tail = true.
Proof.
  induction tail as [|ev t IH]; intros open over H; [reflexivity|].
  cbn [forallb] in H. apply andb_true_iff in H as [H1 H2].
  destruct ev; try discriminate H1; cbn [follows_select truthy negb andb];
    apply IH, H2.
Qed.

Lemma logged_app (lg : log_method) (tr tr' : list event) :
  logged lg (tr ++ tr') = logged lg tr ++ logged lg tr'.
Proof.
  induction tr as [|ev t IH]; [reflexivity|]. cbn [app logged].
  destruct ev; try exact IH.
  destruct (same_method m lg); [cbn [app]; f_equal|]; exact IH.
Qed.

Lemma logged_log_events (lg lg' : log_method) (segs : list bytes) :
  logged lg (map (log_event lg') segs)
  = if same_method lg' lg then map decoded segs else [].
Proof.
  induction segs as [|seg t IH]; [destruct (same_method lg' lg); reflexivity|].
  cbn [map logged log_event]. rewrite IH.
  destruct (same_method lg' lg); reflexivity.
Qed.

Lemma bytes_read_log_events (fd : Z) (lg : log_method) (segs : list bytes) :
  bytes_read fd (map (log_event lg) segs) = [].
Proof. induction segs as [|seg t IH]; [reflexivity | exact IH]. Qed.

Lemma pipe_read_length (n : Z) (p : list pipe_event) (d : bytes)
      (p' : list pipe_event) :
  0 <= n ->
  pipe_read n p = (Done d, p') -> Z.of_nat (length d) <= n.
Proof.
  intros Hn H. destruct p as [|[data|f] rest]; cbn [pipe_read] in H;
    inversion H; subst; cbn [length]; [lia|].
  rewrite length_firstn. lia.
Qed.

Lemma line_state_log (lg : log_method) (ll : LineLogger) (B d : bytes)
      (msgs : list str) :
  line_state lg ll true B msgs ->
  line_state lg {| buffer := last (bytes_split (buffer ll ++ d)) [];
                   logger := logger ll |} true (B ++ d)
             (msgs ++ map decoded (removelast (bytes_split (buffer ll ++ d)))).
Proof.
  intros (Hl & Hb & Hm). unfold line_state. cbn [buffer logger].
  rewrite Hm, Hb, (bytes_split_app_last B d),
    (bytes_split_app_removelast B d), map_app.
  repeat split; auto.
Qed.

Lemma line_state_flush (lg : log_method) (ll : LineLogger) (B : bytes)
      (msgs : list str) :
  line_state lg ll true B msgs ->
  line_state lg (if truthy (buffer ll)
                 then {| buffer := []; logger := logger ll |} else ll)
             false B
             (msgs ++ (if truthy (buffer ll) then [decoded (buffer ll)]
                       else [])).
Proof.
  intros (Hl & Hb & Hm). unfold line_state, text_lines.
  rewrite Hm, Hb. destruct (truthy (last (bytes_split B) [])) eqn:Et.
  - cbn [buffer logger]. rewrite map_app. auto.
  - rewrite !app_nil_r. repeat split; auto.
    rewrite Hb. apply truthy_false, Et.
Qed.

Lemma line_state_same (lg : log_method) (ll : LineLogger) (opened : bool)
      (B B' : bytes) (msgs msgs' : list str) :
  B' = B -> msgs' = msgs ->
  line_state lg ll opened B msgs -> line_state lg ll opened B' msgs'.
Proof. intros -> ->. auto. Qed.

Lemma is_system_fault (f : fault) : is_system (exn_of_fault f) = true.
Proof. destruct f; reflexivity. Qed.

Lemma is_eof_data (fd fd' n : Z) (d : bytes) :
  truthy d = true -> is_eof fd (EvRead fd' n (Done d)) = false.
Proof. destruct d; [discriminate | reflexivity]. Qed.

Lemma is_eof_log_events (fd : Z) (lg : log_method) (segs : list bytes) :
  existsb (is_eof fd) (map (log_event lg) segs) = false.
Proof. induction segs as [|seg t IH]; [reflexivity | exact IH]. Qed.

Lemma silent_logged (lg : log_method) (evs : list event) :
  forallb is_silent evs = true -> logged lg evs = [].
Proof.
  induction evs as [|ev t IH]; [reflexivity|]. cbn [forallb].
  intros H. apply andb_true_iff in H as [H1 H2].
  destruct ev; try discriminate H1; exact (IH H2).
Qed.

Lemma silent_bytes_read (fd : Z) (evs : list event) :
  forallb is_silent evs = true -> bytes_read fd evs = [].
Proof.
  induction evs as [|ev t IH]; [reflexivity|]. cbn [forallb].
  intros H. apply andb_true_iff in H as [H1 H2].
  destruct ev as [ | ? ? [d|f] | | | | | ]; try discriminate H1; exact (IH H2).
Qed.

Lemma silent_is_eof (fd : Z) (evs : list event) :
  forallb is_silent evs = true -> existsb (is_eof fd) evs = false.
Proof.
  induction evs as [|ev t IH]; [reflexivity|]. cbn [forallb].
  intros H. apply andb_true_iff in H as [H1 H2].
  destruct ev as [ | ? ? [d|f] | | | | | ]; try discriminate H1; exact (IH H2).
Qed.

(** Silent calls leave the log and the lines read as they are. *)
Lemma log_so_far_silent (fo fe : Z) (tr evs : list event) :
  forallb is_silent evs = true ->
  log_so_far fo fe tr -> log_so_far fo fe (tr ++ evs).
Proof.
  intros He [H1 H2]. unfold log_so_far, lines_so_far.
  rewrite !logged_app, !bytes_read_app, !existsb_app,
    !(silent_logged _ _ He), !(silent_bytes_read _ _ He),
    !(silent_is_eof _ _ He), !app_nil_r, !orb_false_r.
  split; assumption.
Qed.

Lemma loop_inv_log_so_far (fo fe : Z) (live bo be : bool) (pend : list Z)
      (st : State) :
  loop_inv fo fe live bo be pend st ->
  live = true -> log_so_far fo fe (trace st).
Proof.
  intros C Hl. destruct (li_out C Hl) as (_ & _ & Ho).
  destruct (li_err C Hl) as (_ & _ & He).
  unfold log_so_far, lines_so_far.
  rewrite (li_eof_out C), (li_eof_err C), Ho, He.
  destruct bo, be; split; reflexivity.
Qed.

Lemma not_stream_silent (evs : list event) :
  forallb (fun ev => negb (is_stream_event ev)) evs = true ->
  forallb is_silent evs = true.
Proof.
  induction evs as [|ev t IH]; [reflexivity|]. cbn [forallb].
  intros H. apply andb_true_iff in H as [H1 H2]. rewrite (IH H2), andb_true_r.
  destruct ev; try discriminate H1; reflexivity.
Qed.

Section Protocol.

Variables (fo fe : Z) (live : bool).
Hypothesis Hne : (fo =? fe) = false.

Local Abbreviation L := (loop_inv fo fe live).
Local Abbreviation fmap := (make_fds_map fo fe).

Lemma open_fds_mem_out (be : bool) : mem fo (open_fds fo fe true be) = true.
Proof.
  unfold open_fds, mem. cbn [app existsb]. rewrite Z.eqb_refl. reflexivity.
Qed.

Lemma open_fds_mem_err (bo : bool) : mem fe (open_fds fo fe bo true) = true.
Proof.
  unfold open_fds, mem. destruct bo; cbn [app existsb];
    rewrite Z.eqb_refl, ?orb_true_r; reflexivity.
Qed.

Lemma open_fds_drop_out (be : bool) :
  drop_fd fo (open_fds fo fe true be) = open_fds fo fe false be.
Proof.
  unfold open_fds, drop_fd. destruct be; cbn [app filter];
    rewrite Z.eqb_refl, ?(@fileno_distinct_sym _ _ Hne); reflexivity.
Qed.

Lemma open_fds_drop_err (bo : bool) :
  drop_fd fe (open_fds fo fe bo true) = open_fds fo fe bo false.
Proof.
  unfold open_fds, drop_fd. destruct bo; cbn [app filter];
    rewrite ?Hne, Z.eqb_refl; reflexivity.
Qed.

Lemma open_fds_remove_out (be : bool) :
  list_remove (open_fds fo fe true be) fo = Some (open_fds fo fe false be).
Proof.
  unfold open_fds. cbn [app list_remove]. rewrite Z.eqb_refl. reflexivity.
Qed.

Lemma open_fds_remove_err (bo : bool) :
  list_remove (open_fds fo fe bo true) fe = Some (open_fds fo fe bo false).
Proof.
  unfold open_fds. destruct bo; cbn [app list_remove option_map];
    rewrite ?Hne, Z.eqb_refl; reflexivity.
Qed.

Ltac proto_step Hp mem_lemma :=
  let rest := fresh "rest" in
  intros rest; rewrite <- ?app_assoc, Hp; cbn [app follows_select];
  rewrite ?Z.eqb_refl, mem_lemma;
  repeat match goal with
         | H : _ = true |- _ => rewrite H
         end;
  cbn [andb];
  rewrite ?open_fds_drop_out, ?open_fds_drop_err;
  first [ reflexivity
        | apply follows_select_logs, forallb_is_log_map
        | apply (follows_select_logs [_]); reflexivity ].

Ltac same_line H :=
  intros _; eapply line_state_same; [| | exact H];
  rewrite ?bytes_read_app, ?logged_app, ?bytes_read_log_events,
    ?logged_log_events;
  cbn [bytes_read logged log_event];
  repeat match goal with
         | E : logger _ = _ |- _ => rewrite E
         end;
  cbn [same_method];
  rewrite ?Z.eqb_refl, ?Hne, ?(@fileno_distinct_sym _ _ Hne), ?app_nil_r;
  reflexivity.

Ltac eof_step H :=
  rewrite ?existsb_app, H; cbn [existsb log_event];
  rewrite ?is_eof_log_events;
  repeat match goal with
         | E : truthy _ = true |- _ => rewrite (@is_eof_data _ _ _ _ E)
         end;
  cbn [is_eof];
  rewrite ?Z.eqb_refl, ?Hne, ?(@fileno_distinct_sym _ _ Hne), ?orb_false_r;
  reflexivity.

Ltac left_by_fault C Hp mem_lemma :=
  split; [apply is_system_fault|]; split;
  [ eexists; state_simpl; proto_step Hp mem_lemma
  | let Hl := fresh "Hl" in
    intros Hl; state_simpl;
    apply log_so_far_silent; [reflexivity|];
    exact (loop_inv_log_so_far C Hl) ].

Lemma step_stdout (be : bool) (pend : list Z) (st : State) :
  L true be (fo :: pend) st ->
  exists (r : result unit) (st' : State),
    drain_fd fmap live fo st = (r, st')
    /\ loop_outcome fo fe live (fun s => exists bo', L bo' be pend s) r st'.
Proof.
  intros C. pose proof C as [Hfo Hfe Hfds Hp Ho He Heo Hee].
  unfold drain_fd. rewrite (@make_fds_map_distinct _ _ Hne).
  cbn [dict_get]. rewrite Z.eqb_refl, bind_ret.
  unfold bind at 1. unfold os_read. rewrite Hfo, Z.eqb_refl.
  destruct (pipe_read read_size (stdout_pipe (world st))) as [[d|f] p'] eqn:Ep;
    cbn [reply]; unfold ret at 1, raise at 1.
  - assert (Hd : (Z.of_nat (length d) <=? read_size) = true).
    { apply Z.leb_le. eapply pipe_read_length; [|exact Ep]. discriminate. }
    clear Ep. destruct (truthy d) eqn:Ed.
    + rewrite bind_modify. destruct live.
      * pose proof (Ho eq_refl) as Lo. pose proof (He eq_refl) as Le.
        pose proof Lo as (El & _).
        rewrite LineLogger_log_run. cbv zeta. state_simpl.
        do 2 eexists. split; [reflexivity|]. exists true.
        constructor; state_simpl; auto.
        -- proto_step Hp open_fds_mem_out.
        -- same_line (line_state_log d Lo).
        -- same_line Le.
        -- eof_step Heo.
        -- eof_step Hee.
      * do 2 eexists. split; [reflexivity|]. exists true.
        constructor; state_simpl; auto; try discriminate;
          [proto_step Hp open_fds_mem_out | eof_step Heo | eof_step Hee].
    + apply truthy_false in Ed. subst d. rewrite bind_gets. state_simpl.
      rewrite Hfds, open_fds_remove_out, bind_modify, LineLogger_flush_run.
      cbv zeta. state_simpl.
      do 2 eexists. split; [reflexivity|]. exists false.
      destruct live.
      * pose proof (Ho eq_refl) as Lo. pose proof (He eq_refl) as Le.
        pose proof Lo as (El & _).
        pose proof (line_state_flush Lo) as Lf.
        destruct (truthy (buffer (stdout_logger st)));
          constructor; state_simpl; auto.
        -- proto_step Hp open_fds_mem_out.
        -- same_line Lf.
        -- same_line Le.
        -- eof_step Heo.
        -- eof_step Hee.
        -- proto_step Hp open_fds_mem_out.
        -- same_line Lf.
        -- same_line Le.
        -- eof_step Heo.
        -- eof_step Hee.
      * destruct (truthy (buffer (stdout_logger st)));
          constructor; state_simpl; auto; try discriminate;
          first [proto_step Hp open_fds_mem_out | eof_step Heo | eof_step Hee].
  - do 2 eexists. split; [reflexivity|].
    left_by_fault C Hp open_fds_mem_out.
Qed.

Lemma step_stderr (bo : bool) (pend : list Z) (st : State) :
  L bo true (fe :: pend) st ->
  exists (r : result unit) (st' : State),
    drain_fd fmap live fe st = (r, st')
    /\ loop_outcome fo fe live (fun s => exists be', L bo be' pend s) r st'.
Proof.
  intros C. pose proof C as [Hfo Hfe Hfds Hp Ho He Heo Hee].
  unfold drain_fd. rewrite (@make_fds_map_distinct _ _ Hne).
  cbn [dict_get]. rewrite Hne, Z.eqb_refl, bind_ret.
  unfold bind at 1. unfold os_read.
  rewrite Hfo, Hfe, (@fileno_distinct_sym _ _ Hne), Z.eqb_refl.
  destruct (pipe_read read_size (stderr_pipe (world st))) as [[d|f] p'] eqn:Ep;
    cbn [reply]; unfold ret at 1, raise at 1.
  - assert (Hd : (Z.of_nat (length d) <=? read_size) = true).
    { apply Z.leb_le. eapply pipe_read_length; [|exact Ep]. discriminate. }
    clear Ep. destruct (truthy d) eqn:Ed.
    + rewrite bind_modify. destruct live.
      * pose proof (Ho eq_refl) as Lo. pose proof (He eq_refl) as Le.
        pose proof Le as (El & _).
        rewrite LineLogger_log_run. cbv zeta. state_simpl.
        do 2 eexists. split; [reflexivity|]. exists true.
        constructor; state_simpl; auto.
        -- proto_step Hp open_fds_mem_err.
        -- same_line Lo.
        -- same_line (line_state_log d Le).
        -- eof_step Heo.
        -- eof_step Hee.
      * do 2 eexists. split; [reflexivity|]. exists true.
        constructor; state_simpl; auto; try discriminate;
          [proto_step Hp open_fds_mem_err | eof_step Heo | eof_step Hee].
    + apply truthy_false in Ed. subst d. rewrite bind_gets. state_simpl.
      rewrite Hfds, open_fds_remove_err, bind_modify, LineLogger_flush_run.
      cbv zeta. state_simpl.
      do 2 eexists. split; [reflexivity|]. exists false.
      destruct live.
      * pose proof (Ho eq_refl) as Lo. pose proof (He eq_refl) as Le.
        pose proof Le as (El & _).
        pose proof (line_state_flush Le) as Lf.
        destruct (truthy (buffer (stderr_logger st)));
          constructor; state_simpl; auto.
        -- proto_step Hp open_fds_mem_err.
        -- same_line Lo.
        -- same_line Lf.
        -- eof_step Heo.
        -- eof_step Hee.
        -- proto_step Hp open_fds_mem_err.
        -- same_line Lo.
        -- same_line Lf.
        -- eof_step Heo.
        -- eof_step Hee.
      * destruct (truthy (buffer (stderr_logger st)));
          constructor; state_simpl; auto; try discriminate;
          first [proto_step Hp open_fds_mem_err | eof_step Heo | eof_step Hee].
  - do 2 eexists. split; [reflexivity|].
    left_by_fault C Hp open_fds_mem_err.
Qed.

(** [select] reports a non-empty part of the open descriptors. *)
Lemma step_select (bo be : bool) (st : State) :
  L bo be [] st ->
  bo || be = true ->
  exists (r : result (list Z)) (st' : State),
    select_select (fds st) st = (r, st')
    /\ match r with
       | Val ready =>
           exists ro re : bool,
             ready = open_fds fo fe ro re
             /\ ro || re = true
             /\ (ro = true -> bo = true) /\ (re = true -> be = true)
             /\ L bo be ready st'
       | Exc e => is_system e = true /\ loop_left fo fe live st'
       | OutOfFuel => False
       end.
Proof.
  intros C Hb. pose proof C as [Hfo Hfe Hfds Hp Ho He Heo Hee].
  assert (G : forall ready w,
             stdout_fileno w = stdout_fileno (world st) ->
             stderr_fileno w = stderr_fileno (world st) ->
             L bo be ready
               (emit (EvSelect (open_fds fo fe bo be) (Done ready))
                     (with_world w st))).
  { intros ready w Ewo Ewe.
    constructor; state_simpl; try congruence.
    - intros rest. rewrite <- app_assoc, Hp. cbn [app follows_select].
      rewrite list_Z_eqb_refl.
      destruct bo, be; try discriminate Hb; reflexivity.
    - intros Hl. pose proof (Ho Hl) as Lo. revert Hl. same_line Lo.
    - intros Hl. pose proof (He Hl) as Le. revert Hl. same_line Le.
    - eof_step Heo.
    - eof_step Hee. }
  assert (X : forall f w,
             loop_left fo fe live
               (emit (EvSelect (open_fds fo fe bo be) (Faulted f))
                     (with_world w st))).
  { intros f w. split.
    - exists (open_fds fo fe bo be). intros rest. state_simpl.
      rewrite <- app_assoc, Hp. cbn [app follows_select].
      rewrite list_Z_eqb_refl.
      destruct bo, be; try discriminate Hb; reflexivity.
    - intros Hl. state_simpl. apply log_so_far_silent; [reflexivity|].
      exact (loop_inv_log_so_far C Hl). }
  unfold select_select. rewrite Hfds.
  destruct (select_oracle (world st)) as [|[r|f] o].
  - do 2 eexists. split; [reflexivity|]. exists bo, be.
    split; [reflexivity|]. split; [exact Hb|]. do 2 (split; [auto|]).
    replace st with (with_world (world st) st) at 1
      by (destruct st; reflexivity).
    apply G; reflexivity.
  - do 2 eexists. split; [reflexivity|].
    assert (S : exists ro re : bool,
               match filter (fun fd => mem fd r) (open_fds fo fe bo be) with
               | [] => open_fds fo fe bo be
               | sel => sel
               end = open_fds fo fe ro re
               /\ ro || re = true
               /\ (ro = true -> bo = true) /\ (re = true -> be = true)).
    { unfold open_fds.
      destruct bo, be; try discriminate Hb; cbn [app filter];
        destruct (mem fo r), (mem fe r);
        first [ exists true, true; repeat split; reflexivity
              | exists true, false; repeat split; auto; reflexivity
              | exists false, true; repeat split; auto; reflexivity ]. }
    destruct S as (ro & re & -> & S1 & S2 & S3). exists ro, re.
    split; [reflexivity|]. do 3 (split; [assumption|]).
    apply G; reflexivity.
  - do 2 eexists. split; [reflexivity|].
    split; [apply is_system_fault | apply X].
Qed.

Lemma for_each_one (fd : Z) (st : State) (r : result unit) (st' : State) :
  drain_fd fmap live fd st = (r, st') ->
  for_each [fd] (drain_fd fmap live) st = (r, st').
Proof.
  intros E. cbn [for_each]. unfold bind. rewrite E.
  destruct r as [[]|e|]; reflexivity.
Qed.

(** The [for] loop over what [select] reported. *)
Lemma step_ready (bo be ro re : bool) (st : State) :
  (ro = true -> bo = true) -> (re = true -> be = true) ->
  L bo be (open_fds fo fe ro re) st ->
  exists (r : result unit) (st' : State),
    for_each (open_fds fo fe ro re) (drain_fd fmap live) st = (r, st')
    /\ loop_outcome fo fe live (fun s => exists bo' be', L bo' be' [] s) r st'.
Proof.
  intros Ho He C. destruct ro, re.
  - rewrite (Ho eq_refl), (He eq_refl) in C.
    destruct (step_stdout C) as (r & s1 & E & O).
    change (open_fds fo fe true true) with (fo :: [fe]).
    cbn [for_each]. unfold bind at 1. rewrite E.
    destruct r as [[]|e|]; [|exists (Exc e), s1; auto|contradiction].
    destruct O as (bo' & C1).
    destruct (step_stderr C1) as (r & s2 & E2 & O2).
    exists r, s2. split; [apply for_each_one, E2|].
    destruct r as [[]|e|]; [|exact O2|contradiction].
    destruct O2 as (be' & C2). exists bo', be'. exact C2.
  - rewrite (Ho eq_refl) in C.
    destruct (step_stdout C) as (r & s1 & E & O).
    exists r, s1. split; [apply for_each_one, E|].
    destruct r as [[]|e|]; [|exact O|contradiction].
    destruct O as (bo' & C1). exists bo', be. exact C1.
  - rewrite (He eq_refl) in C.
    destruct (step_stderr C) as (r & s1 & E & O).
    exists r, s1. split; [apply for_each_one, E|].
    destruct r as [[]|e|]; [|exact O|contradiction].
    destruct O as (be' & C1). exists bo, be'. exact C1.
  - exists (Val tt), st. split; [reflexivity|]. exists bo, be. exact C.
Qed.

(** One iteration of [while fds]. *)
Lemma step_iteration (bo be : bool) (st : State) :
  L bo be [] st ->
  truthy (fds st) = true ->
  exists (r : result unit) (st' : State),
    drain_step fmap live st = (r, st')
    /\ loop_outcome fo fe live (fun s => exists bo' be', L bo' be' [] s) r st'.
Proof.
  intros C Hf.
  assert (Hb : bo || be = true).
  { rewrite (li_fds C) in Hf. destruct bo, be; try reflexivity.
    discriminate Hf. }
  unfold drain_step. rewrite bind_gets.
  destruct (step_select C Hb) as (r & s1 & E & O).
  unfold bind at 1. rewrite E.
  destruct r as [ready|e|]; [|exists (Exc e), s1; auto|contradiction].
  destruct O as (ro & re & -> & _ & Ho & He & C1).
  exact (step_ready Ho He C1).
Qed.

(** The loop: it is left with no open descriptor, or by an exception of a
    system call. *)
Lemma loop_steps (fuel : nat) :
  forall (bo be : bool) (st : State),
    L bo be [] st ->
    exists (r : result unit) (st' : State),
      while fuel (fun s => truthy (fds s)) (drain_step fmap live) st = (r, st')
      /\ match r with
         | Val _ => L false false [] st'
         | Exc e => is_system e = true /\ loop_left fo fe live st'
         | OutOfFuel => True
         end.
Proof.
  induction fuel as [|fuel IH]; intros bo be st C; cbn [while];
    destruct (truthy (fds st)) eqn:Hf.
  - do 2 eexists. split; [reflexivity | exact I].
  - do 2 eexists. split; [reflexivity|].
    rewrite (li_fds C) in Hf. destruct bo, be; try discriminate Hf. exact C.
  - destruct (step_iteration C Hf) as (r & s1 & E & O).
    unfold bind at 1. rewrite E.
    destruct r as [[]|e|]; [|exists (Exc e), s1; auto|contradiction].
    destruct O as (bo' & be' & C1). exact (IH _ _ _ C1).
  - do 2 eexists. split; [reflexivity|].
    rewrite (li_fds C) in Hf. destruct bo, be; try discriminate Hf. exact C.
Qed.

End Protocol.

(** What [drain] leaves, in every world with two distinct descriptors. *)
Lemma drain_protocol (log_output_live : bool) (st : State) :
  (stdout_fileno (world st) =? stderr_fileno (world st)) = false ->
  trace st = [] ->
  exists (r : result unit) (st' : State),
    drain log_output_live st = (r, st')
    /\ match r with
       | Val _ => loop_inv (stdout_fileno (world st))
                           (stderr_fileno (world st)) log_output_live
                           false false [] st'
       | Exc e => is_system e = true
                  /\ loop_left (stdout_fileno (world st))
                               (stderr_fileno (world st)) log_output_live st'
       | OutOfFuel => False
       end.
Proof.
  intros Hne Htr.
  unfold drain, LineLogger_init. mstep. state_simpl.
  match goal with
  | |- context [while ?n ?c ?b ?s] =>
      pose proof (@while_fds_total
                    (make_fds_map (stdout_fileno (world st))
                                  (stderr_fileno (world st)))
                    log_output_live n s (Nat.le_refl _)) as T;
      assert (C0 : loop_inv (stdout_fileno (world st))
                            (stderr_fileno (world st)) log_output_live
                            true true [] s)
  end.
  { rewrite (@make_fds_map_distinct _ _ Hne). cbn [dict_keys map fst].
    constructor; state_simpl; auto.
    - intros rest. rewrite Htr. reflexivity.
    - intros _. rewrite Htr. repeat split; reflexivity.
    - intros _. rewrite Htr. repeat split; reflexivity.
    - rewrite Htr. reflexivity.
    - rewrite Htr. reflexivity. }
  match goal with
  | |- context [while ?n _ _ _] =>
      destruct (@loop_steps _ _ log_output_live Hne n _ _ _ C0)
        as (r & st' & E & O)
  end.
  rewrite E in T. exists r, st'. split; [exact E|].
  destruct r as [[]|e|]; [exact O | exact O | discriminate T].
Qed.

(** After an exception of a system call in the [try] block: only calls of
    the handler and the exit of the block follow, and the caller gets the
    exception of a system call. *)
Lemma run_after_system_exception (w : World) (args : list string)
      (log_output_live pipe_output : bool) (e : exn) (st1 : State) :
  try_block log_output_live pipe_output (initial_state w) = (Exc e, st1) ->
  is_system e = true ->
  let r := run w args log_output_live pipe_output in
  raises_only_expected (fst r) = true
  /\ is_final_result (fst r) = false
  /\ exists evs,
      trace (snd r) = trace st1 ++ evs
      /\ forallb (fun ev => negb (is_stream_event ev)) evs = true.
Proof.
  intros Et He r. subst r. rewrite (run_try_exc _ _ _ _ Et).
  assert (F : forall e' : exn,
             is_system e' = true ->
             raises_only_expected (@Exc CompletedProcess e') = true
             /\ is_final_result (Exc e') = false).
  { intros e' H. destruct e'; try discriminate H; split; reflexivity. }
  destruct (is_Exception e).
  - unfold cleanup_spec.
    destruct (terminate_answer (world st1)) as [[]|f];
      [destruct (timed_wait_answer (world st1)) as [rc| |f];
       [| destruct (kill_answer (world st1)) as [[]|f] |] |];
      cbn [fst snd]; state_simpl;
      (split; [apply F; auto using is_system_fault|]);
      (split; [apply F; auto using is_system_fault|]);
      eexists; rewrite <- !app_assoc; (split; [reflexivity|]); reflexivity.
  - cbn [fst snd]. state_simpl. split; [apply F, He|].
    split; [apply F, He|]. eexists. split; reflexivity.
Qed.

(** ** Every execution with capture: calls, exceptions and log *)

Lemma run_protocol_general (w : World) (args : list string)
      (log_output_live : bool) :
  distinct_fds w = true ->
  let r := run w args log_output_live true in
  let tr := trace (snd r) in
  follows_select [stdout_fileno w; stderr_fileno w] [] false tr = true
  /\ raises_only_expected (fst r) = true
  /\ (log_output_live = true ->
      is_final_result (fst r) = true ->
      logged LOGGER_debug tr
      = map decoded (text_lines (bytes_read (stdout_fileno w) tr))
      /\ logged LOGGER_warning tr
         = map decoded (text_lines (bytes_read (stderr_fileno w) tr)))
  /\ (log_output_live = true ->
      log_so_far (stdout_fileno w) (stderr_fileno w) tr).
Proof.
  intros Hd. unfold distinct_fds in Hd. apply negb_true_iff in Hd.
  destruct (@drain_protocol log_output_live (reset_lists (initial_state w)) Hd
              eq_refl) as (rd & sd & Ed & Hr).
  cbn [world reset_lists initial_state with_list] in Hr.
  assert (Et : try_block log_output_live true (initial_state w)
               = match rd with
                 | Val _ => (x <- process_wait None ;;
                             out <- gets stdout_list ;;
                             err <- gets stderr_list ;;
                             ret (Some (bytes_join out), Some (bytes_join err)))
                              sd
                 | Exc e => (Exc e, sd)
                 | OutOfFuel => (OutOfFuel, sd)
                 end).
  { unfold try_block. cbv iota. mstep. unfold bind at 1.
    unfold reset_lists in Ed. rewrite Ed. destruct rd; reflexivity. }
  destruct rd as [[]|e|]; [| |contradiction].
  - unfold bind at 1, process_wait in Et.
    destruct (wait_answer (world sd)) as [rc|f] eqn:Ew.
    + rewrite !bind_gets in Et. unfold ret in Et. revert Et. state_simpl.
      intros Et. cbv zeta. rewrite (run_try_val _ _ _ _ Et).
      cbn [fst snd]. state_simpl. rewrite <- app_assoc. cbn [app].
      split; [rewrite (li_proto Hr); reflexivity|].
      split; [destruct (negb (opt_Z_eqb (Some rc) (Some 0))); reflexivity|].
      split.
      * intros Hl _. rewrite !logged_app, !bytes_read_app.
        cbn [logged bytes_read]. rewrite !app_nil_r.
        destruct (li_out Hr Hl) as (_ & _ & ->).
        destruct (li_err Hr Hl) as (_ & _ & ->). split; reflexivity.
      * intros Hl. apply log_so_far_silent; [reflexivity|].
        exact (loop_inv_log_so_far Hr Hl).
    + destruct (@run_after_system_exception w args log_output_live true _ _ Et
                  (is_system_fault f)) as (Hx & Hf & evs & Htr & Hev).
      cbv zeta. rewrite Htr. state_simpl. rewrite <- app_assoc. cbn [app].
      split; [rewrite (li_proto Hr); cbn [follows_select truthy negb andb];
              apply follows_select_tail, Hev|].
      split; [exact Hx|].
      split; [intros _ Hfin; rewrite Hf in Hfin; discriminate Hfin|].
      intros Hl. apply log_so_far_silent.
      * cbn [forallb is_silent]. apply not_stream_silent, Hev.
      * exact (loop_inv_log_so_far Hr Hl).
  - destruct Hr as (Hs & (open & Hp) & Hlog).
    destruct (@run_after_system_exception w args log_output_live true _ _ Et Hs)
      as (Hx & Hf & evs & Htr & Hev).
    cbv zeta. rewrite Htr.
    split; [rewrite Hp; apply follows_select_tail, Hev|].
    split; [exact Hx|].
    split; [intros _ Hfin; rewrite Hf in Hfin; discriminate Hfin|].
    intros Hl. apply log_so_far_silent; [apply not_stream_silent, Hev|].
    exact (Hlog Hl).
Qed.

(** X5.  With capture, in every world: [select] is called only with the
    descriptors that have not yet reported their end, of which there is at
    least one, and only when every descriptor it reported before has been
    read; every read is of the next descriptor that the last [select]
    reported, asks for 8192 bytes and gets no more; a descriptor is never
    read again after its empty read; no [select] and no read follows an
    exception, [process.wait()] or a call of the handler. *)
Theorem pipe_calls_follow_select :
  forall (w : World) (args : list string) (log_output_live : bool),
    distinct_fds w = true ->
    follows_select [stdout_fileno w; stderr_fileno w] [] false
                   (trace (snd (run w args log_output_live true)))
    = true.
Proof.
  intros w args live Hd.
  exact (proj1 (@run_protocol_general w args live Hd)).
Qed.

Lemma pipe_calls_follow_select_witness :
  follows_select [stdout_fileno (hello_world 0); stderr_fileno (hello_world 0)]
                 [] false
                 (trace (snd (run (hello_world 0) ["echo"%string] true true)))
  = true.
Proof.
  apply (pipe_calls_follow_select (hello_world 0) ["echo"%string] true).
  vm_compute. reflexivity.
Defined.



(** X7.  With capture and live logging, when a result is returned or
    [CalledProcessError] is raised: the messages given to [LOGGER.debug]
    are, in order, the decoded lines of the captured standard output, and
    those given to [LOGGER.warning] the decoded lines of the captured
    standard error; a last line without newline is a message when it is
    not empty. *)
Theorem live_log_is_captured_text :
  forall (w : World) (args : list string),
    distinct_fds w = true ->
    let r := run w args true true in
    let tr := trace (snd r) in
    match captured (fst r) with
    | Some (Some out, Some err) =>
        logged LOGGER_debug tr = map decoded (text_lines out)
        /\ logged LOGGER_warning tr = map decoded (text_lines err)
    | Some _ => False
    | None => True
    end.
Proof.
  intros w args Hd.
  destruct (@run_capture_general w args true Hd) as [_ Hc].
  destruct (@run_protocol_general w args true Hd) as (_ & _ & Hl & _).
  cbv zeta in *. specialize (Hl eq_refl).
  destruct (exit_code_obtained (trace (snd (run w args true true))))
    as [rc|].
  - destruct (fst (run w args true true)) as [cp|e|] eqn:Er.
    + destruct (rc =? 0); [|discriminate Hc]. injection Hc as ->.
      cbn [captured cp_stdout cp_stderr]. exact (Hl eq_refl).
    + destruct (rc =? 0); [discriminate Hc|]. injection Hc as ->.
      cbn [captured]. exact (Hl eq_refl).
    + destruct (rc =? 0); discriminate Hc.
  - destruct (fst (run w args true true)) as [cp|[]|]; try discriminate Hc;
      exact I.
Qed.

Lemma live_log_is_captured_text_witness :
  distinct_fds (hello_world 0) = true
  /\ let r := run (hello_world 0) ["echo"%string] true true in
     let tr := trace (snd r) in
     match captured (fst r) with
     | Some (Some out, Some err) =>
         logged LOGGER_debug tr = map decoded (text_lines out)
         /\ logged LOGGER_warning tr = map decoded (text_lines err)
     | Some _ => False
     | None => True
     end.
Proof.
  split; [reflexivity|].
  apply (live_log_is_captured_text (hello_world 0) ["echo"%string]).
  reflexivity.
Defined.

(** ** Messages are single lines *)

Lemma between_spec (lo x hi : Z) :
  Codec.between lo x hi = true -> lo <= x <= hi.
Proof.
  unfold Codec.between. intros H. apply andb_true_iff in H as [H1 H2].
  apply Z.leb_le in H1, H2. lia.
Qed.

Lemma cp2_not_small (b0 b1 : Z) :
  Codec.between 0xC2 b0 0xDF = true -> Z.shiftr (Codec.cp2 b0 b1) 6 <> 0.
Proof.
  intros H0. apply between_spec in H0. unfold Codec.cp2.
  rewrite Z.shiftr_lor, Z.shiftr_shiftl_l by lia. change (6 - 6) with 0.
  rewrite Z.shiftl_0_r.
  intros E. apply Z.lor_eq_0_iff in E as [E _].
  change 0x1F with (Z.ones 5) in E. rewrite Z.land_ones in E by lia.
  change (2 ^ 5) with 32 in E.
  pose proof (Z.div_mod b0 32 ltac:(lia)) as D. lia.
Qed.

Lemma cp3_not_small (b0 b1 b2 : Z) :
  Codec.between 0xE0 b0 0xEF = true -> Codec.second_ok b0 b1 = true ->
  Z.shiftr (Codec.cp3 b0 b1 b2) 6 <> 0.
Proof.
  intros H0 H1. apply between_spec in H0. unfold Codec.cp3, Codec.cont_bits.
  rewrite !Z.shiftr_lor, !Z.shiftr_shiftl_l by lia.
  change (12 - 6) with 6. change (6 - 6) with 0. rewrite Z.shiftl_0_r.
  intros E. apply Z.lor_eq_0_iff in E as [E1 E2].
  apply Z.shiftl_eq_0_iff in E1; [|lia].
  apply Z.lor_eq_0_iff in E2 as [E2 _].
  change 0x0F with (Z.ones 4) in E1. rewrite Z.land_ones in E1 by lia.
  change 0x3F with (Z.ones 6) in E2. rewrite Z.land_ones in E2 by lia.
  change (2 ^ 4) with 16 in E1. change (2 ^ 6) with 64 in E2.
  pose proof (Z.div_mod b0 16 ltac:(lia)) as D0.
  pose proof (Z.div_mod b1 64 ltac:(lia)) as D1.
  assert (b0 = 0xE0) by lia. subst b0. unfold Codec.second_ok in H1.
  cbn [Z.eqb Pos.eqb] in H1. apply between_spec in H1. lia.
Qed.

Lemma cp4_not_small (b0 b1 b2 b3 : Z) :
  Codec.between 0xF0 b0 0xF4 = true -> Codec.second_ok b0 b1 = true ->
  Z.shiftr (Codec.cp4 b0 b1 b2 b3) 6 <> 0.
Proof.
  intros H0 H1. apply between_spec in H0. unfold Codec.cp4, Codec.cont_bits.
  rewrite !Z.shiftr_lor, !Z.shiftr_shiftl_l by lia.
  change (18 - 6) with 12. change (12 - 6) with 6.
  intros E. apply Z.lor_eq_0_iff in E as [E1 E2].
  apply Z.shiftl_eq_0_iff in E1; [|lia].
  apply Z.lor_eq_0_iff in E2 as [E2 _].
  apply Z.shiftl_eq_0_iff in E2; [|lia].
  change 0x07 with (Z.ones 3) in E1. rewrite Z.land_ones in E1 by lia.
  change 0x3F with (Z.ones 6) in E2. rewrite Z.land_ones in E2 by lia.
  change (2 ^ 3) with 8 in E1. change (2 ^ 6) with 64 in E2.
  pose proof (Z.div_mod b0 8 ltac:(lia)) as D0.
  pose proof (Z.div_mod b1 64 ltac:(lia)) as D1.
  assert (b0 = 0xF0) by lia. subst b0. unfold Codec.second_ok in H1.
  cbn [Z.eqb Pos.eqb] in H1. apply between_spec in H1. lia.
Qed.

Lemma not_line_feed (c : Z) : Z.shiftr c 6 <> 0 -> (10 =? c) = false.
Proof.
  intros H. apply Z.eqb_neq. intros E. subst c. apply H. reflexivity.
Qed.

(** A code point of several bytes is never a line feed. *)
Lemma utf8_strict_no_line_feed (n : nat) :
  forall (l : list Z) (s : str),
    (length l <= n)%nat ->
    existsb (Z.eqb 10) l = false ->
    Codec.utf8_strict l = Some s ->
    existsb (Z.eqb 10) s = false.
Proof.
  induction n as [|n IH]; intros l s Hn Hl Hs.
  - destruct l; [|cbn [length] in Hn; lia].
    injection Hs as <-. reflexivity.
  - destruct l as [|b0 t0]; [injection Hs as <-; reflexivity|].
    cbn [length] in Hn. cbn [existsb] in Hl.
    apply orb_false_iff in Hl as [H0 Hl]. cbn [Codec.utf8_strict] in Hs.
    destruct (b0 <? 128).
    { destruct (Codec.utf8_strict t0) as [s'|] eqn:E; [|discriminate Hs].
      injection Hs as <-. cbn [existsb]. rewrite H0.
      apply (IH t0); [lia | exact Hl | exact E]. }
    destruct (Codec.between 194 b0 223) eqn:B2.
    { destruct t0 as [|b1 t1]; [discriminate Hs|].
      destruct (Codec.is_cont b1); [|discriminate Hs].
      destruct (Codec.utf8_strict t1) as [s'|] eqn:E; [|discriminate Hs].
      injection Hs as <-. cbn [existsb] in *.
      apply orb_false_iff in Hl as [_ Hl].
      rewrite (@not_line_feed _ (@cp2_not_small b0 b1 B2)).
      apply (IH t1); [cbn [length] in Hn; lia | exact Hl | exact E]. }
    destruct (Codec.between 224 b0 239) eqn:B3.
    { destruct t0 as [|b1 [|b2 t2]]; try discriminate Hs.
      destruct (Codec.second_ok b0 b1) eqn:S1; [|discriminate Hs].
      destruct (Codec.is_cont b2); [|discriminate Hs].
      destruct (Codec.utf8_strict t2) as [s'|] eqn:E; [|discriminate Hs].
      injection Hs as <-. cbn [existsb] in *.
      apply orb_false_iff in Hl as [_ Hl]. apply orb_false_iff in Hl as [_ Hl].
      rewrite (@not_line_feed _ (@cp3_not_small b0 b1 b2 B3 S1)).
      apply (IH t2); [cbn [length] in Hn; lia | exact Hl | exact E]. }
    destruct (Codec.between 240 b0 244) eqn:B4; [|discriminate Hs].
    destruct t0 as [|b1 [|b2 [|b3 t3]]]; try discriminate Hs.
    destruct (Codec.second_ok b0 b1) eqn:S1; [|discriminate Hs].
    destruct (Codec.is_cont b2); [|discriminate Hs].
    destruct (Codec.is_cont b3); [|discriminate Hs].
    destruct (Codec.utf8_strict t3) as [s'|] eqn:E; [|discriminate Hs].
    injection Hs as <-. cbn [existsb] in *.
    apply orb_false_iff in Hl as [_ Hl]. apply orb_false_iff in Hl as [_ Hl].
    apply orb_false_iff in Hl as [_ Hl].
    rewrite (@not_line_feed _ (@cp4_not_small b0 b1 b2 b3 B4 S1)).
    apply (IH t3); [cbn [length] in Hn; lia | exact Hl | exact E].
Qed.

(** An escape [\xNN] holds no line feed. *)
Lemma ascii_backslashreplace_no_line_feed (l : list Z) :
  existsb (Z.eqb 10) l = false ->
  existsb (Z.eqb 10) (Codec.ascii_backslashreplace l) = false.
Proof.
  induction l as [|b t IH]; [reflexivity|]. cbn [existsb].
  intros H. apply orb_false_iff in H as [H1 H2].
  cbn [Codec.ascii_backslashreplace]. rewrite existsb_app, (IH H2), orb_false_r.
  destruct (b <? 128) eqn:E; [cbn [existsb]; rewrite H1; reflexivity|].
  apply Z.ltb_ge in E. unfold Codec.backslash_escape, Codec.hex_digit.
  pose proof (Z.div_pos b 16 ltac:(lia) ltac:(lia)) as Hq.
  pose proof (Z.mod_pos_bound b 16 ltac:(lia)) as Hr.
  cbn [existsb].
  destruct (b / 16 <? 10), (b mod 16 <? 10);
    repeat match goal with
           | |- context [10 =? ?x] =>
               replace (10 =? x) with false by (symmetry; apply Z.eqb_neq; lia)
           end; reflexivity.
Qed.

Lemma byte_val_newline (c : byte) : (10 =? byte_val c) = Byte.eqb newline c.
Proof. destruct c; reflexivity. Qed.

Lemma decoded_single_line (b : bytes) :
  has_newline b = false -> single_line (decoded b) = true.
Proof.
  intros H. unfold single_line. apply negb_true_iff.
  assert (Hl : existsb (Z.eqb 10) (map byte_val b) = false).
  { unfold has_newline in H. induction b as [|c t IH]; [reflexivity|].
    cbn [existsb map] in *. apply orb_false_iff in H as [H1 H2].
    rewrite byte_val_newline, H1. exact (IH H2). }
  unfold decoded.
  destruct (Codec.utf8_strict (map byte_val b)) as [s|] eqn:E.
  - exact (@utf8_strict_no_line_feed _ _ _ (Nat.le_refl _) Hl E).
  - apply ascii_backslashreplace_no_line_feed, Hl.
Qed.

Lemma single_lines_step (st st' : State) (evs : list event) :
  trace st' = trace st ++ evs ->
  forallb single_line_event evs = true ->
  has_newline (buffer (stdout_logger st')) = false ->
  has_newline (buffer (stderr_logger st')) = false ->
  single_lines st -> single_lines st'.
Proof.
  intros Ht He Ho Hr (H & _ & _). unfold single_lines.
  rewrite Ht, forallb_app, H, He. auto.
Qed.

Lemma single_line_log_events (lg : log_method) (segs : list bytes) :
  forallb (fun seg => negb (has_newline seg)) segs = true ->
  forallb single_line_event (map (log_event lg) segs) = true.
Proof.
  induction segs as [|seg t IH]; [reflexivity|]. cbn [forallb map].
  intros H. apply andb_true_iff in H as [H1 H2]. rewrite (IH H2), andb_true_r.
  apply decoded_single_line, negb_true_iff, H1.
Qed.

Section SingleLines.

Local Abbreviation sl := (keeps single_lines (fun _ : exn => True)).

Lemma sl_emit (ev : event) (w : World) (st : State) :
  single_line_event ev = true ->
  single_lines st -> single_lines (emit ev (with_world w st)).
Proof.
  intros He H. destruct H as (H1 & H2 & H3).
  eapply (@single_lines_step st _ [ev]); state_simpl; auto;
    [cbn [forallb]; rewrite He; reflexivity | split; auto].
Qed.

Lemma sl_reply_emit {A} (r : answer A) (ev : event) (w : World) (st : State) :
  single_line_event ev = true ->
  single_lines st ->
  single_lines (snd (reply r (emit ev (with_world w st))))
  /\ match fst (reply r (emit ev (with_world w st))) with
     | Exc e => True
     | _ => True
     end.
Proof.
  intros He H. destruct r as [a|f]; cbn [reply]; unfold ret, raise;
    cbn [fst snd]; (split; [apply sl_emit; auto | exact I]).
Qed.

Lemma sl_os_read (fd n : Z) : sl (os_read fd n).
Proof.
  intros st H. unfold os_read.
  destruct (fd =? stdout_fileno (world st));
    [|destruct (fd =? stderr_fileno (world st))];
    try destruct (pipe_read n _) as [r p];
    apply sl_reply_emit; auto.
Qed.

Lemma sl_select_select (rlist : list Z) : sl (select_select rlist).
Proof.
  intros st H. unfold select_select.
  destruct (select_oracle (world st)) as [|[r|f] o]; cbn [fst snd];
    (split; [|exact I]); apply sl_emit; auto.
Qed.

Lemma sl_modify (f : State -> State) :
  (forall st, single_lines st -> single_lines (f st)) -> sl (modify f).
Proof. intros Hf st H. split; [apply Hf, H | exact I]. Qed.

Lemma sl_LineLogger_log (self : logger_ref) (data : bytes) :
  sl (LineLogger_log self data).
Proof.
  intros st H. rewrite LineLogger_log_run. cbv zeta. cbn [fst snd].
  split; [|exact I]. destruct H as (H1 & H2 & H3).
  eapply single_lines_step; [state_simpl; reflexivity | | | | split; eauto].
  - apply single_line_log_events, removelast_split_no_newline.
  - destruct self; state_simpl; [apply last_split_no_newline | exact H2].
  - destruct self; state_simpl; [exact H3 | apply last_split_no_newline].
Qed.

Lemma sl_LineLogger_flush (self : logger_ref) : sl (LineLogger_flush self).
Proof.
  intros st H. rewrite LineLogger_flush_run. cbv zeta. cbn [fst snd].
  split; [|exact I]. pose proof H as (H1 & H2 & H3).
  destruct (truthy (buffer (get_logger self st))); [|exact H].
  eapply single_lines_step; [state_simpl; reflexivity | | | | exact H].
  - cbn [forallb log_event single_line_event]. rewrite andb_true_r.
    apply decoded_single_line. destruct self; assumption.
  - destruct self; state_simpl; [reflexivity | exact H2].
  - destruct self; state_simpl; [exact H3 | reflexivity].
Qed.

Lemma sl_drain_fd (fds_map : dict (logger_ref * list_ref))
      (log_output_live : bool) (fd : Z) :
  sl (drain_fd fds_map log_output_live fd).
Proof.
  unfold drain_fd. apply keeps_bind.
  - destruct (dict_get fds_map fd); [apply keeps_ret | now apply keeps_raise].
  - intros [logger lines]. apply keeps_bind; [apply sl_os_read|].
    intros buff. destruct (truthy buff).
    + apply keeps_bind; [apply sl_modify; intros st H; exact H|].
      intros _. destruct log_output_live; [|apply keeps_ret].
      apply sl_LineLogger_log.
    + apply keeps_bind; [apply keeps_gets|]. intros l.
      apply keeps_bind.
      * destruct (list_remove l fd); [|now apply keeps_raise].
        apply sl_modify. intros st H. exact H.
      * intros _. apply sl_LineLogger_flush.
Qed.

Lemma sl_process_wait : sl (process_wait None).
Proof.
  intros st H. unfold process_wait.
  destruct (wait_answer (world st)) as [rc|f]; cbn [fst snd];
    (split; [|exact I]).
  - destruct H as (H1 & H2 & H3).
    eapply (@single_lines_step st _ [EvWait None (Exited rc)]);
      state_simpl; auto. split; auto.
  - apply sl_emit; auto.
Qed.

Lemma sl_try_block (log_output_live pipe_output : bool) :
  sl (try_block log_output_live pipe_output).
Proof.
  unfold try_block.
  apply keeps_bind; [apply sl_modify; intros st H; exact H|]. intros _.
  apply keeps_bind; [apply sl_modify; intros st H; exact H|]. intros _.
  apply keeps_bind.
  { destruct pipe_output; [|apply keeps_ret]. unfold drain, LineLogger_init.
    apply keeps_bind; [apply keeps_gets|]. intros fo.
    apply keeps_bind.
    { apply sl_modify. intros st (H1 & H2 & H3). repeat split; auto. }
    intros _.
    apply keeps_bind; [apply keeps_gets|]. intros fe.
    apply keeps_bind.
    { apply sl_modify. intros st (H1 & H2 & H3). repeat split; auto. }
    intros _.
    apply keeps_bind; [apply sl_modify; intros st H; exact H|]. intros _.
    apply keeps_bind; [apply keeps_gets|]. intros fuel.
    apply keeps_while. unfold drain_step.
    apply keeps_bind; [apply keeps_gets|]. intros l.
    apply keeps_bind; [apply sl_select_select|]. intros ready.
    apply keeps_for_each. intros fd. apply sl_drain_fd. }
  intros _. apply keeps_bind; [apply sl_process_wait|]. intros _.
  destruct pipe_output; [|apply keeps_ret].
  apply keeps_bind; [apply keeps_gets|]. intros out.
  apply keeps_bind; [apply keeps_gets|]. intros err. apply keeps_ret.
Qed.

End SingleLines.

(** X8.  In every world, every message given to the logger is a single
    line: it holds no line feed, whether the line was decoded as UTF-8 or
    written with escapes, and whether it was sent by [log] or by
    [flush]. *)
Theorem logged_messages_are_single_lines :
  forall (w : World) (args : list string) (log_output_live pipe_output : bool),
    forallb single_line_event
            (trace (snd (run w args log_output_live pipe_output))) = true.
Proof.
  intros w args live pipe.
  assert (H0 : single_lines (initial_state w)) by (repeat split).
  destruct (@sl_try_block live pipe (initial_state w) H0) as [(H1 & _) _].
  destruct (try_block live pipe (initial_state w)) as [[out|e|] st1] eqn:Et;
    cbn [fst snd] in *.
  - rewrite (run_try_val _ _ _ _ Et). cbn [fst snd]. state_simpl.
    rewrite forallb_app, H1. reflexivity.
  - rewrite (run_try_exc _ _ _ _ Et).
    destruct (is_Exception e).
    + unfold cleanup_spec.
      destruct (terminate_answer (world st1)) as [[]|f];
        [destruct (timed_wait_answer (world st1)) as [rc| |f];
         [| destruct (kill_answer (world st1)) as [[]|f] |] |];
        cbn [fst snd]; state_simpl; rewrite !forallb_app, H1; reflexivity.
    + cbn [fst snd]. state_simpl. rewrite forallb_app, H1. reflexivity.
  - exfalso. pose proof (total_try_block live pipe (initial_state w)) as T.
    rewrite Et in T. discriminate T.
Qed.

(** ** Decoding line by line *)

Lemma second_ok_line_feed (b0 : Z) : Codec.second_ok b0 10 = false.
Proof.
  unfold Codec.second_ok.
  destruct (b0 =? 224); [reflexivity|]. destruct (b0 =? 237); [reflexivity|].
  destruct (b0 =? 240); [reflexivity|]. destruct (b0 =? 244); reflexivity.
Qed.

(** A newline byte is never inside the bytes of one character: valid
    UTF-8 cut at a newline is valid on both sides. *)
Lemma utf8_strict_cut (n : nat) :
  forall (a b : list Z) (s : str),
    (length a <= n)%nat ->
    Codec.utf8_strict (a ++ 10 :: b) = Some s ->
    exists sa sb : str,
      Codec.utf8_strict a = Some sa
      /\ Codec.utf8_strict b = Some sb
      /\ s = sa ++ 10 :: sb.
Proof.
  induction n as [|n IH]; intros a b s Hn Hs.
  - destruct a; [|cbn [length] in Hn; lia].
    cbn [app Codec.utf8_strict] in Hs. change (10 <? 128) with true in Hs.
    cbv iota in Hs.
    destruct (Codec.utf8_strict b) as [sb|]; [|discriminate Hs].
    injection Hs as <-. exists [], sb. auto.
  - destruct a as [|b0 t0].
    { cbn [app Codec.utf8_strict] in Hs. change (10 <? 128) with true in Hs.
      cbv iota in Hs.
      destruct (Codec.utf8_strict b) as [sb|]; [|discriminate Hs].
      injection Hs as <-. exists [], sb. auto. }
    cbn [length] in Hn. cbn [app Codec.utf8_strict] in Hs.
    cbn [Codec.utf8_strict].
    destruct (b0 <? 128).
    { destruct (Codec.utf8_strict (t0 ++ 10 :: b)) as [s'|] eqn:E;
        [|discriminate Hs].
      injection Hs as <-.
      destruct (IH t0 b s' ltac:(lia) E) as (sa & sb & -> & Eb & ->).
      exists (b0 :: sa), sb. auto. }
    destruct (Codec.between 194 b0 223).
    { destruct t0 as [|b1 t1]; [discriminate Hs|].
      cbn [app] in Hs. cbn [length] in Hn.
      destruct (Codec.is_cont b1); [|discriminate Hs].
      destruct (Codec.utf8_strict (t1 ++ 10 :: b)) as [s'|] eqn:E;
        [|discriminate Hs].
      injection Hs as <-.
      destruct (IH t1 b s' ltac:(lia) E) as (sa & sb & -> & Eb & ->).
      exists (Codec.cp2 b0 b1 :: sa), sb. auto. }
    destruct (Codec.between 224 b0 239).
    { destruct t0 as [|b1 [|b2 t2]]; cbn [app] in Hs.
      - rewrite second_ok_line_feed in Hs. destruct b; discriminate Hs.
      - rewrite andb_false_r in Hs. discriminate Hs.
      - cbn [length] in Hn.
        destruct (Codec.second_ok b0 b1 && Codec.is_cont b2);
          [|discriminate Hs].
        destruct (Codec.utf8_strict (t2 ++ 10 :: b)) as [s'|] eqn:E;
          [|discriminate Hs].
        injection Hs as <-.
        destruct (IH t2 b s' ltac:(lia) E) as (sa & sb & -> & Eb & ->).
        exists (Codec.cp3 b0 b1 b2 :: sa), sb. auto. }
    destruct (Codec.between 240 b0 244); [|discriminate Hs].
    destruct t0 as [|b1 [|b2 [|b3 t3]]]; cbn [app] in Hs.
    + rewrite second_ok_line_feed in Hs. destruct b as [|? [|? ?]];
        discriminate Hs.
    + rewrite andb_false_r in Hs. destruct b; discriminate Hs.
    + rewrite andb_false_r in Hs. discriminate Hs.
    + cbn [length] in Hn.
      destruct (Codec.second_ok b0 b1 && Codec.is_cont b2 && Codec.is_cont b3);
        [|discriminate Hs].
      destruct (Codec.utf8_strict (t3 ++ 10 :: b)) as [s'|] eqn:E;
        [|discriminate Hs].
      injection Hs as <-.
      destruct (IH t3 b s' ltac:(lia) E) as (sa & sb & -> & Eb & ->).
      exists (Codec.cp4 b0 b1 b2 b3 :: sa), sb. auto.
Qed.

Lemma decoded_lines_join (segs : list bytes) :
  forall s : str,
    Codec.utf8_strict (map byte_val (newline_join segs)) = Some s ->
    line_feed_join (map decoded segs) = s
    /\ forallb (fun seg => match Codec.utf8_strict (map byte_val seg) with
                           | Some _ => true
                           | None => false
                           end) segs = true.
Proof.
  induction segs as [|seg [|seg2 rest] IH]; intros s Hs.
  - injection Hs as <-. split; reflexivity.
  - cbn [newline_join] in Hs. cbn [map line_feed_join forallb].
    unfold decoded. rewrite Hs. split; reflexivity.
  - change (newline_join (seg :: seg2 :: rest))
      with (seg ++ newline :: newline_join (seg2 :: rest)) in Hs.
    rewrite map_app in Hs. cbn [map] in Hs.
    change (byte_val newline) with 10 in Hs.
    destruct (@utf8_strict_cut _ _ _ _ (Nat.le_refl _) Hs)
      as (sa & sb & Ea & Eb & ->).
    destruct (IH sb Eb) as [IH1 IH2].
    change (map decoded (seg :: seg2 :: rest))
      with (decoded seg :: map decoded (seg2 :: rest)).
    change (line_feed_join (decoded seg :: map decoded (seg2 :: rest)))
      with (decoded seg ++ 10 :: line_feed_join (map decoded (seg2 :: rest))).
    rewrite IH1. unfold decoded at 1. rewrite Ea.
    split; [reflexivity|].
    change (forallb ?f (seg :: seg2 :: rest))
      with (f seg && forallb f (seg2 :: rest)).
    cbv beta. rewrite Ea, IH2. reflexivity.
Qed.

(** X9.  When the whole output is valid UTF-8, decoding it line by line,
    as [LineLogger] does, loses nothing: no line falls back to escapes, and
    the decoded lines joined by line feeds are the decoded output. *)
Theorem decoding_by_line_agrees :
  forall (b : bytes) (s : str),
    Codec.decode_utf8_strict b = Val s ->
    line_feed_join (map decoded (bytes_split b)) = s
    /\ forall seg : bytes,
        In seg (bytes_split b) ->
        _safe_decode seg = Codec.decode_utf8_strict seg.
Proof.
  intros b s H. unfold Codec.decode_utf8_strict in H.
  destruct (Codec.utf8_strict (map byte_val b)) as [s'|] eqn:E;
    [|discriminate H].
  injection H as ->. rewrite <- (newline_join_split b) in E.
  destruct (decoded_lines_join _ E) as [H1 H2]. split; [exact H1|].
  intros seg Hin. rewrite forallb_forall in H2. specialize (H2 seg Hin).
  unfold _safe_decode, Codec.decode_utf8_strict.
  destruct (Codec.utf8_strict (map byte_val seg)); [reflexivity|discriminate H2].
Qed.

Lemma decoding_by_line_agrees_witness :
  Codec.decode_utf8_strict a_b_c = Val [97; 10; 98; 10; 99]
  /\ line_feed_join (map decoded (bytes_split a_b_c)) = [97; 10; 98; 10; 99].
Proof.
  split; [reflexivity|].
  exact (proj1 (@decoding_by_line_agrees a_b_c [97; 10; 98; 10; 99] eq_refl)).
Defined.


